(** * Endless Dodge (src/game.c): the simulation core, embedded and verified

    The C program keeps every coordinate, speed and time in [float].  The
    embedding keeps them as IEEE 754 binary32 values: [spec_float] with a
    24-bit significand and exponent bound 128, every operation rounded to
    nearest-even as [SFadd], [SFmul], ... of the Standard Library do.  The
    expressions are evaluated operation by operation in single precision
    (FLT_EVAL_METHOD = 0, no fused multiply-add).

    What the C code reads from its environment is an argument of the
    embedded function: the value of [SDL_GetTicks()], the value of [rand()],
    whether [fopen] and [fwrite] succeed and whether the flush in [fclose]
    reaches the file.  [RAND_MAX] comes from <stdlib.h> and is a parameter
    of the functions that draw random numbers.  The high score file is a
    value threaded through [update_game]; the calls to SDL and the
    rectangles drawn are traces the functions return; the log lines are
    left out. *)

From Stdlib Require Import ZArith List Bool Lia Reals Lra Floats.SpecFloat.
From stdpp Require Import base list.
Import ListNotations.
Open Scope Z_scope.

(** ** Single-precision arithmetic *)

Module F32.

Definition float := spec_float.

Definition prec : Z := 24.
Definition emax : Z := 128.

Definition fadd : float -> float -> float := SFadd prec emax.
Definition fsub : float -> float -> float := SFsub prec emax.
Definition fmul : float -> float -> float := SFmul prec emax.
Definition fdiv : float -> float -> float := SFdiv prec emax.
Definition fneg : float -> float := SFopp.

(** The C comparisons [a < b], [a > b], [a <= b], [a >= b]; each is false
    as soon as one side is a NaN. *)
Definition flt (a b : float) : bool := SFltb a b.
Definition fgt (a b : float) : bool := SFltb b a.
Definition fle (a b : float) : bool := SFleb a b.
Definition fge (a b : float) : bool := SFleb b a.

(** [(float)n] for an integer [n]. *)
Definition of_int (n : Z) : float := binary_normalize prec emax n 0 false.

(** A decimal literal [n/d] with [n] and [d] below 2^24: both are exact
    in binary32 and the division is correctly rounded, so the quotient is
    the float nearest to the decimal, as the compiler reads the literal. *)
Definition literal (n d : Z) : float := fdiv (of_int n) (of_int d).

Definition INT_MIN : Z := - 2 ^ 31.
Definition INT_MAX : Z := 2 ^ 31 - 1.

(** [(int)x]: truncation toward zero.  C leaves the conversion undefined
    for a NaN, an infinity or a value outside [int]; the x86 conversion
    instruction yields [INT_MIN] there, and so does the model. *)
Definition to_int (x : float) : Z :=
  match x with
  | S754_zero _ => 0
  | S754_finite s m e =>
      let mag := if 0 <=? e then Zpos m * 2 ^ e else Zpos m / 2 ^ (- e) in
      let t := if s then - mag else mag in
      if (INT_MIN <=? t) && (t <=? INT_MAX) then t else INT_MIN
  | _ => INT_MIN
  end.

Definition is_nan (x : float) : bool :=
  match x with S754_nan => true | _ => false end.

Definition is_finite (x : float) : bool :=
  match x with S754_zero _ | S754_finite _ _ _ => true | _ => false end.

End F32.

Import F32.

(** [int] arithmetic: the sum wraps around in two's complement (signed
    overflow is undefined in C; the usual 32-bit result is taken). *)
Definition wrap_int (z : Z) : Z := (z + 2 ^ 31) mod 2 ^ 32 - 2 ^ 31.

(** [Uint32] arithmetic of the SDL tick counter. *)
Definition wrap_u32 (z : Z) : Z := z mod 2 ^ 32.

(** ** Configuration *)

Definition WINDOW_WIDTH : Z := 800.
Definition WINDOW_HEIGHT : Z := 600.
Definition TARGET_FPS : Z := 60.
Definition FRAME_TIME_MS : Z := 1000 / TARGET_FPS.

Definition PLAYER_WIDTH : float := Eval vm_compute in of_int 80.
Definition PLAYER_HEIGHT : float := Eval vm_compute in of_int 20.
Definition PLAYER_SPEED : float := Eval vm_compute in of_int 500.

Definition MAX_OBSTACLES : nat := 64.
Definition OBSTACLE_MIN_WIDTH : float := Eval vm_compute in of_int 40.
Definition OBSTACLE_MAX_WIDTH : float := Eval vm_compute in of_int 140.
Definition OBSTACLE_HEIGHT : float := Eval vm_compute in of_int 20.
Definition OBSTACLE_BASE_SPEED : float := Eval vm_compute in of_int 200.
Definition OBSTACLE_SPEED_INCREMENT : float := Eval vm_compute in literal 3 100.
Definition OBSTACLE_BASE_INTERVAL : float := Eval vm_compute in of_int 700.
Definition OBSTACLE_MIN_INTERVAL : float := Eval vm_compute in of_int 140.
Definition OBSTACLE_INTERVAL_DECAY : float := Eval vm_compute in literal 985 1000.

(** The literals [0.0f], [1.0f], [2.0f], [20.0f], [40.0f], [0.1f],
    [1000.0f] of the code, and the integer macros where C converts them
    to [float]. *)
Definition f0 : float := S754_zero false.
Definition f1 : float := Eval vm_compute in of_int 1.
Definition f2 : float := Eval vm_compute in of_int 2.
Definition f20 : float := Eval vm_compute in of_int 20.
Definition f40 : float := Eval vm_compute in of_int 40.
Definition f1000 : float := Eval vm_compute in of_int 1000.
Definition f0_1 : float := Eval vm_compute in literal 1 10.
Definition fWINDOW_WIDTH : float := Eval vm_compute in of_int WINDOW_WIDTH.
Definition fWINDOW_HEIGHT : float := Eval vm_compute in of_int WINDOW_HEIGHT.

(** ** Types *)

Inductive GameState : Set :=
| GAME_STATE_MENU
| GAME_STATE_PLAYING
| GAME_STATE_PAUSED
| GAME_STATE_GAME_OVER.

Definition GameState_eqb (a b : GameState) : bool :=
  match a, b with
  | GAME_STATE_MENU, GAME_STATE_MENU
  | GAME_STATE_PLAYING, GAME_STATE_PLAYING
  | GAME_STATE_PAUSED, GAME_STATE_PAUSED
  | GAME_STATE_GAME_OVER, GAME_STATE_GAME_OVER => true
  | _, _ => false
  end.

Record Obstacle : Set := mkObstacle {
  o_x : float;
  o_y : float;
  o_w : float;
  o_h : float;
  o_speed : float;
  o_active : Z
}.

Record Player : Set := mkPlayer {
  p_x : float;
  p_y : float;
  p_w : float;
  p_h : float;
  p_speed : float
}.

(** The [Game] structure without its window and renderer handles. *)
Record Game : Set := mkGame {
  running : Z;
  state : GameState;
  player : Player;
  obstacles : list Obstacle;
  score : Z;
  highScore : Z;
  elapsedTime : float;
  lastSpawnTicks : Z;
  spawnIntervalMs : float;
  leftPressed : Z;
  rightPressed : Z
}.

(** The keys [handle_key_down] tells apart; every other key code is
    [SDLK_other]. *)
Inductive SDL_Keycode : Set :=
| SDLK_a | SDLK_LEFT
| SDLK_d | SDLK_RIGHT
| SDLK_RETURN | SDLK_KP_ENTER
| SDLK_p
| SDLK_ESCAPE
| SDLK_other (code : Z).

(** The high score file: [None] when it is absent or holds no readable
    integer (fewer than [sizeof(int)] bytes), and the list of values
    [save_high_score] was called with (oldest first). *)
Record Disk : Set := mkDisk {
  file : option Z;
  saves : list Z
}.

(** What one call of [update_game] reads from outside the [Game]. *)
Record TickEnv : Set := mkTickEnv {
  now : Z;          (* SDL_GetTicks() in update_game *)
  spawn_now : Z;    (* SDL_GetTicks() in spawn_obstacle *)
  rand_w : Z;       (* rand() for the width *)
  rand_x : Z;       (* rand() for the position *)
  fopen_ok : bool;   (* fopen(path, "wb") returns a stream *)
  fwrite_ok : bool;  (* fwrite returns 1 *)
  fclose_ok : bool   (* the flush in fclose puts the buffered bytes in the file *)
}.

(** ** Utility functions *)

Definition clampf (v min max : float) : float :=
  if flt v min then min
  else if fgt v max then max
  else v.

Definition rects_intersect (x1 y1 w1 h1 x2 y2 w2 h2 : float) : bool :=
  negb (fgt x1 (fadd x2 w2) ||
        flt (fadd x1 w1) x2 ||
        fgt y1 (fadd y2 h2) ||
        flt (fadd y1 h1) y2).

Definition rand_range (RAND_MAX r : Z) (min max : float) : float :=
  let t := fdiv (of_int r) (of_int RAND_MAX) in
  fadd min (fmul t (fsub max min)).

(** ** High score storage *)

Definition load_high_score (d : Disk) : Z :=
  match file d with
  | Some v => v
  | None => 0
  end.

(** [fopen(path, "wb")] empties the file; [fwrite] puts the four bytes in
    the stream's buffer and [fclose], whose result is not looked at, sends
    them to the file.  The file holds the integer only if both succeed;
    otherwise it is left with fewer than four bytes. *)
Definition save_high_score (open_ok write_ok close_ok : bool) (d : Disk) (v : Z)
  : Disk :=
  let f := if open_ok then (if write_ok && close_ok then Some v else None)
           else file d in
  mkDisk f (saves d ++ [v]).

(** ** Game setup *)

Definition set_active (a : Z) (o : Obstacle) : Obstacle :=
  mkObstacle (o_x o) (o_y o) (o_w o) (o_h o) (o_speed o) a.

Definition reset_obstacles (obs : list Obstacle) : list Obstacle :=
  map (set_active 0) obs.

Definition init_player : Player :=
  mkPlayer (fdiv (fsub fWINDOW_WIDTH PLAYER_WIDTH) f2)
           (fsub (fsub fWINDOW_HEIGHT PLAYER_HEIGHT) f40)
           PLAYER_WIDTH
           PLAYER_HEIGHT
           PLAYER_SPEED.

Definition reset_gameplay (ticks : Z) (g : Game) : Game :=
  mkGame (running g) (state g)
         init_player
         (reset_obstacles (obstacles g))
         0
         (highScore g)
         f0
         ticks
         OBSTACLE_BASE_INTERVAL
         (leftPressed g) (rightPressed g).

(** ** Obstacle logic *)

Definition is_free (o : Obstacle) : bool := o_active o =? 0.

(** The scan of [spawn_obstacle]: the lowest index whose slot is inactive. *)
Fixpoint find_free_slot (obs : list Obstacle) (i : nat) : option nat :=
  match obs with
  | [] => None
  | o :: rest => if is_free o then Some i else find_free_slot rest (S i)
  end.

(** The obstacle [spawn_obstacle] writes into the slot it found. *)
Definition new_obstacle (RAND_MAX : Z) (rw rx : Z) (elapsed : float) : Obstacle :=
  let w := rand_range RAND_MAX rw OBSTACLE_MIN_WIDTH OBSTACLE_MAX_WIDTH in
  let h := OBSTACLE_HEIGHT in
  let maxX := fsub fWINDOW_WIDTH w in
  let x := rand_range RAND_MAX rx f0 maxX in
  let y := fneg h in
  let speedBoost := fmul (fmul OBSTACLE_SPEED_INCREMENT elapsed) OBSTACLE_BASE_SPEED in
  mkObstacle x y w h (fadd OBSTACLE_BASE_SPEED speedBoost) 1.

Definition decay_interval (interval : float) : float :=
  let i := fmul interval OBSTACLE_INTERVAL_DECAY in
  if flt i OBSTACLE_MIN_INTERVAL then OBSTACLE_MIN_INTERVAL else i.

Definition spawn_obstacle (RAND_MAX : Z) (env : TickEnv) (g : Game) : Game :=
  match find_free_slot (obstacles g) 0 with
  | None => g
  | Some idx =>
      let o := new_obstacle RAND_MAX (rand_w env) (rand_x env) (elapsedTime g) in
      mkGame (running g) (state g) (player g)
             (<[idx := o]> (obstacles g))
             (score g) (highScore g) (elapsedTime g)
             (wrap_u32 (spawn_now env))
             (decay_interval (spawnIntervalMs g))
             (leftPressed g) (rightPressed g)
  end.

(** One iteration of the loop of [update_obstacles]: the slot and the
    score after it. *)
Definition update_obstacle (dt : float) (o : Obstacle) (sc : Z) : Obstacle * Z :=
  if is_free o then (o, sc)
  else
    let y := fadd (o_y o) (fmul (o_speed o) dt) in
    if fgt y fWINDOW_HEIGHT
    then (mkObstacle (o_x o) y (o_w o) (o_h o) (o_speed o) 0, wrap_int (sc + 10))
    else (mkObstacle (o_x o) y (o_w o) (o_h o) (o_speed o) (o_active o), sc).

Fixpoint update_obstacles_loop (dt : float) (obs : list Obstacle) (sc : Z)
  : list Obstacle * Z :=
  match obs with
  | [] => ([], sc)
  | o :: rest =>
      let '(o', sc1) := update_obstacle dt o sc in
      let '(rest', sc2) := update_obstacles_loop dt rest sc1 in
      (o' :: rest', sc2)
  end.

Definition update_obstacles (dt : float) (g : Game) : Game :=
  let '(obs, sc) := update_obstacles_loop dt (obstacles g) (score g) in
  mkGame (running g) (state g) (player g) obs sc (highScore g)
         (elapsedTime g) (lastSpawnTicks g) (spawnIntervalMs g)
         (leftPressed g) (rightPressed g).

Definition hits (p : Player) (o : Obstacle) : bool :=
  negb (is_free o) &&
  rects_intersect (p_x p) (p_y p) (p_w p) (p_h p)
                  (o_x o) (o_y o) (o_w o) (o_h o).

Definition check_collisions (g : Game) : bool :=
  existsb (hits (player g)) (obstacles g).

(** ** Input handling *)

Definition set_state (s : GameState) (g : Game) : Game :=
  mkGame (running g) s (player g) (obstacles g) (score g) (highScore g)
         (elapsedTime g) (lastSpawnTicks g) (spawnIntervalMs g)
         (leftPressed g) (rightPressed g).

Definition set_running (r : Z) (g : Game) : Game :=
  mkGame r (state g) (player g) (obstacles g) (score g) (highScore g)
         (elapsedTime g) (lastSpawnTicks g) (spawnIntervalMs g)
         (leftPressed g) (rightPressed g).

Definition set_leftPressed (v : Z) (g : Game) : Game :=
  mkGame (running g) (state g) (player g) (obstacles g) (score g) (highScore g)
         (elapsedTime g) (lastSpawnTicks g) (spawnIntervalMs g)
         v (rightPressed g).

Definition set_rightPressed (v : Z) (g : Game) : Game :=
  mkGame (running g) (state g) (player g) (obstacles g) (score g) (highScore g)
         (elapsedTime g) (lastSpawnTicks g) (spawnIntervalMs g)
         (leftPressed g) v.

(** [ticks] is what [SDL_GetTicks()] returns if [reset_gameplay] runs. *)
Definition handle_key_down (ticks : Z) (g : Game) (key : SDL_Keycode) : Game :=
  match key with
  | SDLK_a | SDLK_LEFT => set_leftPressed 1 g
  | SDLK_d | SDLK_RIGHT => set_rightPressed 1 g
  | SDLK_RETURN | SDLK_KP_ENTER =>
      if GameState_eqb (state g) GAME_STATE_MENU ||
         GameState_eqb (state g) GAME_STATE_GAME_OVER
      then set_state GAME_STATE_PLAYING (reset_gameplay ticks g)
      else g
  | SDLK_p =>
      if GameState_eqb (state g) GAME_STATE_PLAYING
      then set_state GAME_STATE_PAUSED g
      else if GameState_eqb (state g) GAME_STATE_PAUSED
      then set_state GAME_STATE_PLAYING g
      else g
  | SDLK_ESCAPE => set_running 0 g
  | SDLK_other _ => g
  end.

Definition handle_key_up (g : Game) (key : SDL_Keycode) : Game :=
  match key with
  | SDLK_a | SDLK_LEFT => set_leftPressed 0 g
  | SDLK_d | SDLK_RIGHT => set_rightPressed 0 g
  | _ => g
  end.

(** ** Game update *)

Definition direction (left right : Z) : float :=
  let dir := f0 in
  let dir := if negb (left =? 0) then fsub dir f1 else dir in
  let dir := if negb (right =? 0) then fadd dir f1 else dir in
  dir.

Definition update_player_x (left right : Z) (p : Player) (dt : float) : float :=
  let dir := direction left right in
  let x := fadd (p_x p) (fmul (fmul dir (p_speed p)) dt) in
  clampf x f0 (fsub fWINDOW_WIDTH (p_w p)).

Definition update_player (dt : float) (g : Game) : Game :=
  let p := player g in
  let x := update_player_x (leftPressed g) (rightPressed g) p dt in
  mkGame (running g) (state g)
         (mkPlayer x (p_y p) (p_w p) (p_h p) (p_speed p))
         (obstacles g) (score g) (highScore g)
         (elapsedTime g) (lastSpawnTicks g) (spawnIntervalMs g)
         (leftPressed g) (rightPressed g).

(** The points one tick adds for the time survived: [(int)(dt * 20.0f)]. *)
Definition time_points (dt : float) : Z := to_int (fmul dt f20).

Definition add_time (dt : float) (g : Game) : Game :=
  mkGame (running g) (state g) (player g) (obstacles g)
         (wrap_int (score g + time_points dt))
         (highScore g)
         (fadd (elapsedTime g) dt)
         (lastSpawnTicks g) (spawnIntervalMs g)
         (leftPressed g) (rightPressed g).

Definition spawn_due (env : TickEnv) (g : Game) : bool :=
  fge (of_int (wrap_u32 (now env - lastSpawnTicks g))) (spawnIntervalMs g).

(** [update_game] up to and including the spawn, before the collision
    check. *)
Definition advance (RAND_MAX : Z) (env : TickEnv) (dt : float) (g : Game) : Game :=
  let g := add_time dt g in
  let g := update_player dt g in
  let g := update_obstacles dt g in
  if spawn_due env g then spawn_obstacle RAND_MAX env g else g.

Definition set_highScore (h : Z) (g : Game) : Game :=
  mkGame (running g) (state g) (player g) (obstacles g) (score g) h
         (elapsedTime g) (lastSpawnTicks g) (spawnIntervalMs g)
         (leftPressed g) (rightPressed g).

Definition update_game (RAND_MAX : Z) (env : TickEnv) (dt : float)
           (w : Game * Disk) : Game * Disk :=
  let '(g, d) := w in
  if negb (GameState_eqb (state g) GAME_STATE_PLAYING) then (g, d)
  else
    let g := advance RAND_MAX env dt g in
    if check_collisions g then
      let g := set_state GAME_STATE_GAME_OVER g in
      if highScore g <? score g then
        let g := set_highScore (score g) g in
        (g, save_high_score (fopen_ok env) (fwrite_ok env) (fclose_ok env) d
                            (highScore g))
      else (g, d)
    else (g, d).

(** The time step the main loop hands to [update_game] when [deltaMs]
    milliseconds have passed since the previous frame. *)
Definition frame_dt (deltaMs : Z) : float :=
  let dt := fdiv (of_int (wrap_u32 deltaMs)) f1000 in
  if fgt dt f0_1 then f0_1 else dt.

(** ** Real values of floats, used to state the rounding lemmas *)

Definition bpow (e : Z) : R := powerRZ 2 e.

Arguments bpow : simpl never.

(** The real number a finite float stands for (0 for the others). *)
Definition B2R (x : float) : R :=
  match x with
  | S754_finite s m e =>
      ((if s then (-1) else 1) * IZR (Zpos m) * bpow e)%R
  | _ => 0%R
  end.

(** A non-negative finite binary32 value: a zero, or a positive float in
    canonical form (the only form the format has). *)
Definition nnf (x : float) : Prop :=
  match x with
  | S754_zero _ => True
  | S754_finite false m e => bounded prec emax m e = true
  | _ => False
  end.

(** Non-negative, possibly +infinity. *)
Definition nni (x : float) : Prop := nnf x \/ x = S754_infinity false.

(** [y] lies at location [l] of the unit interval that starts at the
    integer [m]. *)
Definition inbetween (m : Z) (l : location) (y : R) : Prop :=
  match l with
  | loc_Exact => y = IZR m
  | loc_Inexact Lt => (IZR m < y < IZR m + / 2)%R
  | loc_Inexact Eq => y = (IZR m + / 2)%R
  | loc_Inexact Gt => (IZR m + / 2 < y < IZR m + 1)%R
  end.

(** The same for a significand with its round and sticky bits. *)
Definition located (mrs : shr_record) (y : R) : Prop :=
  0 <= shr_m mrs /\ inbetween (shr_m mrs) (loc_of_shr_record mrs) y.

(** The exponent binary32 rounds a non-negative real [x] at. *)
Definition is_cexp (x : R) (fe : Z) : Prop :=
  (fe = -149 /\ (0 <= x < bpow (-125))%R) \/
  (-149 < fe /\ (bpow (fe + 23) <= x < bpow (fe + 24))%R).

(** The float of value [m * 2^fe], for a rounded significand
    [0 <= m <= 2^24]: the last step of [binary_round_aux]. *)
Definition finish (m fe : Z) : float :=
  let '(mrs, e) := shr_fexp prec emax m fe loc_Exact in
  match shr_m mrs with
  | Z0 => S754_zero false
  | Zpos p => if e <=? emax - prec then S754_finite false p e
              else S754_infinity false
  | Zneg _ => S754_nan
  end.

(** [r] is a rounding to nearest-even of the real [x >= 0]; a zero result
    may carry either sign. *)
Definition RND (x : R) (r : float) : Prop :=
  exists fe m l,
    is_cexp x fe /\ 0 <= m /\ inbetween m l (x * bpow (- fe))%R /\
    let m1 := round_nearest_even m l in
    (m1 = 0 /\ exists s, r = S754_zero s) \/ (0 < m1 /\ r = finish m1 fe).

(** ** The state machine of the specification *)

(** The intents of the specification that bear on the state. *)
Inductive Intent : Set := confirm | pause | other_intent.

Definition intent_of (key : SDL_Keycode) : Intent :=
  match key with
  | SDLK_RETURN | SDLK_KP_ENTER => confirm
  | SDLK_p => pause
  | _ => other_intent
  end.

(** The transition table of the specification, section 4.1. *)
Definition fsm_next (s : GameState) (i : Intent) : GameState :=
  match s, i with
  | GAME_STATE_MENU, confirm => GAME_STATE_PLAYING
  | GAME_STATE_GAME_OVER, confirm => GAME_STATE_PLAYING
  | GAME_STATE_PLAYING, pause => GAME_STATE_PAUSED
  | GAME_STATE_PAUSED, pause => GAME_STATE_PLAYING
  | s, _ => s
  end.

(** A run freshly reset: what [reset_gameplay] leaves behind. *)
Definition fresh_run (ticks : Z) (g : Game) : Prop :=
  score g = 0 /\ elapsedTime g = f0 /\
  spawnIntervalMs g = OBSTACLE_BASE_INTERVAL /\
  lastSpawnTicks g = ticks /\
  player g = init_player /\
  Forall (fun o => o_active o = 0) (obstacles g).

(** ** Counting and running *)

(** Whether the loop of [update_obstacles] retires the slot in this tick:
    it is active and its new [y] is beyond the bottom of the window. *)
Definition leaves (dt : float) (o : Obstacle) : bool :=
  negb (is_free o) &&
  fgt (fadd (o_y o) (fmul (o_speed o) dt)) fWINDOW_HEIGHT.

(** The number of obstacles a tick retires. *)
Fixpoint exits (dt : float) (obs : list Obstacle) : Z :=
  match obs with
  | [] => 0
  | o :: rest => (if leaves dt o then 1 else 0) + exits dt rest
  end.

(** A value of the C type [int]. *)
Definition is_int (z : Z) : Prop := F32.INT_MIN <= z <= F32.INT_MAX.

(** Successive frames with the same time step, one environment each. *)
Definition run_ticks (RAND_MAX : Z) (dt : float) (envs : list TickEnv)
           (w : Game * Disk) : Game * Disk :=
  fold_left (fun w env => update_game RAND_MAX env dt w) envs w.

(** The spawn interval after [n] successful spawns of a run. *)
Fixpoint interval_after (n : nat) : float :=
  match n with
  | O => OBSTACLE_BASE_INTERVAL
  | S k => decay_interval (interval_after k)
  end.

(** The speed [spawn_obstacle] gives an obstacle spawned when the run has
    lasted [elapsed] seconds. *)
Definition spawn_speed (elapsed : float) : float :=
  fadd OBSTACLE_BASE_SPEED
       (fmul (fmul OBSTACLE_SPEED_INCREMENT elapsed) OBSTACLE_BASE_SPEED).

(** [0.05f], the float next below it, and the largest float below 1. *)
Definition f0_05 : float := Eval vm_compute in literal 5 100.
Definition f0_05_pred : float := S754_finite false 13421772 (-28).
Definition f1_pred : float := S754_finite false 16777215 (-24).

(** The float next below [0.1f], the largest float below 2, and 2.5. *)
Definition f0_1_pred : float := S754_finite false 13421772 (-27).
Definition f2_pred : float := S754_finite false 16777215 (-23).
Definition f2_5 : float := Eval vm_compute in literal 5 2.

(** ** The player between ticks *)

(** The player as [init_player] sizes it, somewhere on the line: the
    width and the speed are the configured ones (nothing writes them
    after [init_player]) and [x] is a finite number. *)
Definition player_ok (p : Player) : Prop :=
  p_w p = PLAYER_WIDTH /\ p_speed p = PLAYER_SPEED /\ is_finite (p_x p) = true.

(** [screenWidth - playerWidth], the right end of the player's range. *)
Definition PLAYER_MAX_X : float := fsub fWINDOW_WIDTH PLAYER_WIDTH.

(** ** Concrete games for the examples *)

(** The platform value of [RAND_MAX] used in the examples (glibc). *)
Definition RAND_MAX_glibc : Z := 2147483647.

(** An active obstacle lying over the player's start position. *)
Definition obstacle_on_player : Obstacle :=
  mkObstacle (of_int 350) (of_int 535) (of_int 100) OBSTACLE_HEIGHT
             OBSTACLE_BASE_SPEED 1.

Definition quiet_env : TickEnv := mkTickEnv 16 16 0 0 true true true.

Definition game_about_to_crash : Game :=
  mkGame 1 GAME_STATE_PLAYING init_player
         (obstacle_on_player :: repeat (set_active 0 obstacle_on_player) 63)
         100 50 f0 0 OBSTACLE_BASE_INTERVAL 0 0.

Definition full_pool_game : Game :=
  mkGame 1 GAME_STATE_PLAYING init_player
         (repeat obstacle_on_player 64)
         0 0 f0 0 OBSTACLE_BASE_INTERVAL 0 0.

(** A run started a moment ago: every slot free, the interval at its
    start value. *)
Definition fresh_game : Game :=
  reset_gameplay 0 game_about_to_crash.

(** The draws [rand() = 82] for the width and [rand() = RAND_MAX] for the
    position. *)
Definition edge_env : TickEnv := mkTickEnv 16 16 82 RAND_MAX_glibc true true true.

(** Thirty frames 100 ms apart, the clock read at 100, 200, ... ms; the
    draws of [rand()] change with the frame. *)
Definition spawning_envs : list TickEnv :=
  map (fun k => mkTickEnv (100 * Z.of_nat k) (100 * Z.of_nat k)
                          (12345 * Z.of_nat k) (67890 * Z.of_nat k)
                          true true true)
      (seq 1 30).

(** ** Floats of either sign *)

(** A finite binary32 value of either sign: a zero or a float in canonical
    form. *)
Definition fin32 (x : float) : Prop :=
  match x with
  | S754_zero _ => True
  | S754_finite _ m e => bounded prec emax m e = true
  | _ => False
  end.

(** [r] is a rounding to nearest-even of the real [x] of either sign:
    binary32 rounds the magnitude and keeps the sign. *)
Definition RNDs (x : R) (r : float) : Prop :=
  ((0 <= x)%R /\ RND x r) \/ ((x <= 0)%R /\ RND (- x) (fneg r)).

(** ** Events *)

(** The events [process_events] tells apart; [repeat] is the key-repeat
    flag of a key press. *)
Inductive SDL_Event : Set :=
| SDL_QUIT
| SDL_KEYDOWN (repeat : Z) (sym : SDL_Keycode)
| SDL_KEYUP (sym : SDL_Keycode)
| SDL_other_event.

(** One iteration of the loop of [process_events]: the event
    [SDL_PollEvent] delivered, with the value [SDL_GetTicks()] has while
    it is handled. *)
Definition process_event (g : Game) (te : Z * SDL_Event) : Game :=
  match snd te with
  | SDL_QUIT => set_running 0 g
  | SDL_KEYDOWN repeat sym =>
      if repeat =? 0 then handle_key_down (fst te) g sym else g
  | SDL_KEYUP sym => handle_key_up g sym
  | SDL_other_event => g
  end.

(** [evs] is the queue [SDL_PollEvent] empties, oldest event first. *)
Definition process_events (evs : list (Z * SDL_Event)) (g : Game) : Game :=
  fold_left process_event evs g.

(** ** Set-up and tear-down *)

(** The SDL calls of [init_sdl] and [shutdown_sdl]; the two that create a
    resource carry their success. *)
Inductive SDL_Call : Set :=
| SDL_Init (ok : bool)
| SDL_CreateWindow (ok : bool)
| SDL_CreateRenderer (ok : bool)
| SDL_SetRenderDrawBlendMode
| SDL_DestroyRenderer
| SDL_DestroyWindow
| SDL_Quit.

(** Whether [SDL_Init], [SDL_CreateWindow] and [SDL_CreateRenderer]
    succeed. *)
Record SdlEnv : Set := mkSdlEnv {
  sdl_init_ok : bool;
  create_window_ok : bool;
  create_renderer_ok : bool
}.

(** The [window] and [renderer] fields of [Game]: whether each is
    non-NULL. *)
Record Handles : Set := mkHandles {
  window : bool;
  renderer : bool
}.

Definition init_sdl (e : SdlEnv) (h : Handles)
  : bool * Handles * list SDL_Call :=
  if negb (sdl_init_ok e) then (false, h, [SDL_Init false])
  else
    let h := mkHandles (create_window_ok e) (renderer h) in
    if negb (window h) then
      (false, h, [SDL_Init true; SDL_CreateWindow false; SDL_Quit])
    else
      let h := mkHandles (window h) (create_renderer_ok e) in
      if negb (renderer h) then
        (false, h, [SDL_Init true; SDL_CreateWindow true;
                    SDL_CreateRenderer false; SDL_DestroyWindow; SDL_Quit])
      else
        (true, h, [SDL_Init true; SDL_CreateWindow true;
                   SDL_CreateRenderer true; SDL_SetRenderDrawBlendMode]).

Definition shutdown_sdl (h : Handles) : list SDL_Call :=
  (if renderer h then [SDL_DestroyRenderer] else []) ++
  (if window h then [SDL_DestroyWindow] else []) ++
  [SDL_Quit].

(** [memset(game, 0, sizeof(Game))]: every field is the all-zero bit
    pattern, which is [+0.0f] for a [float] and [GAME_STATE_MENU] for the
    state. *)
Definition zero_obstacle : Obstacle := mkObstacle f0 f0 f0 f0 f0 0.

Definition zero_game : Game :=
  mkGame 0 GAME_STATE_MENU (mkPlayer f0 f0 f0 f0 f0)
         (repeat zero_obstacle MAX_OBSTACLES)
         0 0 f0 0 f0 0 0.

Definition zero_handles : Handles := mkHandles false false.

(** [init_game]: [None] when it returns 0.  [ticks] is the value of
    [SDL_GetTicks()] in [reset_gameplay]; the seeding of [rand] has no
    counterpart, the draws being arguments of the model. *)
Definition init_game (e : SdlEnv) (ticks : Z) (d : Disk)
  : option Game * Handles * list SDL_Call :=
  let g := zero_game in
  let '(ok, h, calls) := init_sdl e zero_handles in
  if negb ok then (None, h, calls)
  else
    let g := set_running 1 g in
    let g := set_state GAME_STATE_MENU g in
    let g := set_leftPressed 0 g in
    let g := set_rightPressed 0 g in
    let g := set_highScore (load_high_score d) g in
    (Some (reset_gameplay ticks g), h, calls).

(** ** Main loop *)

(** What one iteration of the loop of [main] reads: the clock at its
    start, the event queue, and what [update_game] reads. *)
Record FrameInput : Set := mkFrameInput {
  currentTicks : Z;
  polled : list (Z * SDL_Event);
  tick_env : TickEnv
}.

(** The body of the loop, on [lastTicks] and the game; the title and the
    picture are functions of the game it leaves. *)
Definition frame (RAND_MAX : Z) (inp : FrameInput) (st : Z * (Game * Disk))
  : Z * (Game * Disk) :=
  let '(lastTicks, (g, d)) := st in
  let deltaMs := currentTicks inp - lastTicks in
  let dt := frame_dt deltaMs in
  let g := process_events (polled inp) g in
  (currentTicks inp, update_game RAND_MAX (tick_env inp) dt (g, d)).

(** [while (game.running)] over the frames [inputs] describes: the state
    when the loop has ended or the inputs are used up. *)
Fixpoint main_loop (RAND_MAX : Z) (inputs : list FrameInput)
         (st : Z * (Game * Disk)) : Z * (Game * Disk) :=
  match inputs with
  | [] => st
  | inp :: rest =>
      if running (fst (snd st)) =? 0 then st
      else main_loop RAND_MAX rest (frame RAND_MAX inp st)
  end.

Definition EXIT_SUCCESS : Z := 0.
Definition EXIT_FAILURE : Z := 1.

(** [main]: the exit status, the high score file and the SDL calls of
    set-up and tear-down; [None] while the loop has not ended by the last
    of [inputs].  [ticks] is the clock in [init_game], [lastTicks] the
    clock read before the loop. *)
Definition main (RAND_MAX : Z) (e : SdlEnv) (ticks lastTicks : Z) (d : Disk)
           (inputs : list FrameInput) : option (Z * Disk * list SDL_Call) :=
  match init_game e ticks d with
  | (None, _, calls) => Some (EXIT_FAILURE, d, calls)
  | (Some g, h, calls) =>
      let '(_, (g', d')) := main_loop RAND_MAX inputs (lastTicks, (g, d)) in
      if running g' =? 0
      then Some (EXIT_SUCCESS, d', calls ++ shutdown_sdl h)
      else None
  end.

(** The resources the SDL calls made so far leave held: the library, the
    window, the renderer. *)
Record Held : Set := mkHeld {
  held_sdl : bool;
  held_window : bool;
  held_renderer : bool
}.

(** The effect of one call on the resources held; [None] when the call
    is not allowed there: a creation before [SDL_Init] or of something
    already held, the release of something not held, [SDL_Quit] with a
    window or a renderer still held or without the library. *)
Definition sdl_step (r : Held) (c : SDL_Call) : option Held :=
  match c with
  | SDL_Init ok =>
      if held_sdl r then None
      else Some (mkHeld ok (held_window r) (held_renderer r))
  | SDL_CreateWindow ok =>
      if held_sdl r && negb (held_window r)
      then Some (mkHeld true ok (held_renderer r)) else None
  | SDL_CreateRenderer ok =>
      if held_window r && negb (held_renderer r)
      then Some (mkHeld (held_sdl r) true ok) else None
  | SDL_SetRenderDrawBlendMode =>
      if held_renderer r then Some r else None
  | SDL_DestroyRenderer =>
      if held_renderer r
      then Some (mkHeld (held_sdl r) (held_window r) false) else None
  | SDL_DestroyWindow =>
      if held_window r && negb (held_renderer r)
      then Some (mkHeld (held_sdl r) false false) else None
  | SDL_Quit =>
      if held_sdl r && negb (held_window r) && negb (held_renderer r)
      then Some (mkHeld false false false) else None
  end.

Fixpoint sdl_run (r : Held) (calls : list SDL_Call) : option Held :=
  match calls with
  | [] => Some r
  | c :: rest =>
      match sdl_step r c with
      | Some r' => sdl_run r' rest
      | None => None
      end
  end.

Definition nothing_held : Held := mkHeld false false false.

(** ** The player on its line *)

(** The player as every tick leaves it: sized by [init_player], [x] a
    non-negative finite value up to [screenWidth - playerWidth]. *)
Definition player_on_line (p : Player) : Prop :=
  p_w p = PLAYER_WIDTH /\ p_speed p = PLAYER_SPEED /\
  nnf (p_x p) /\ fle (p_x p) PLAYER_MAX_X = true.

(** ** The pool *)

(** The obstacle one iteration of the loop of [update_obstacles] leaves
    in the slot (the score does not bear on it). *)
Definition moved (dt : float) (o : Obstacle) : Obstacle :=
  fst (update_obstacle dt o 0).

(** The number of active slots. *)
Fixpoint active_count (obs : list Obstacle) : nat :=
  match obs with
  | [] => O
  | o :: rest => ((if is_free o then 0 else 1) + active_count rest)%nat
  end.

(** ** A session for the examples *)

Definition sdl_all_ok : SdlEnv := mkSdlEnv true true true.

(** The game [init_game] leaves when SDL starts and the file holds 50. *)
Definition session_start : Game :=
  match init_game sdl_all_ok 0 (mkDisk (Some 50) []) with
  | (Some g, _, _) => g
  | _ => zero_game
  end.

(** Forty-one frames 100 ms apart; Enter is pressed in the first one.
    Every obstacle is 40 wide and drawn at the middle of the range, over
    the player, who does not move. *)
Definition session_inputs : list FrameInput :=
  mkFrameInput 100 [(100, SDL_KEYDOWN 0 SDLK_RETURN)]
               (mkTickEnv 100 100 0 1073741824 true true true)
  :: map (fun k => mkFrameInput (100 * Z.of_nat k) []
                     (mkTickEnv (100 * Z.of_nat k) (100 * Z.of_nat k)
                                0 1073741824 true true true))
         (seq 2 40).

(** ** Quitting *)

(** The events that clear [running]: the quit event and a first press
    of Escape. *)
Definition is_quit (te : Z * SDL_Event) : bool :=
  match snd te with
  | SDL_QUIT => true
  | SDL_KEYDOWN repeat SDLK_ESCAPE => repeat =? 0
  | _ => false
  end.

(** Whether the events of a frame ask to quit. *)
Definition quits (inp : FrameInput) : bool := existsb is_quit (polled inp).

(** A key press that is a repeat of a held key. *)
Definition is_repeat (te : Z * SDL_Event) : bool :=
  match snd te with
  | SDL_KEYDOWN repeat _ => negb (repeat =? 0)
  | _ => false
  end.

(** ** The well-formed game *)

(** The elapsed time a run does not exceed, 2^21 s: from there on
    adding a time step of at most 0.1 s rounds back to the same float.
    [SPEED_MAX] is the speed of an obstacle spawned at that time. *)
Definition ELAPSED_MAX : float := Eval vm_compute in of_int 2097152.
Definition SPEED_MAX : float := Eval vm_compute in spawn_speed (of_int 2097152).

(** An active slot holds an obstacle as [spawn_obstacle] makes them and
    [update_obstacles] moves them: inside the window from side to side,
    between its start row and the bottom edge, with a finite speed. *)
Definition obstacle_ok (o : Obstacle) : Prop :=
  o_active o <> 0 ->
  o_active o = 1 /\
  nnf (o_x o) /\ nnf (o_w o) /\ o_h o = OBSTACLE_HEIGHT /\
  fle OBSTACLE_MIN_WIDTH (o_w o) = true /\
  fle (o_w o) OBSTACLE_MAX_WIDTH = true /\
  fle (fadd (o_x o) (o_w o)) fWINDOW_WIDTH = true /\
  (B2R (o_x o) + B2R (o_w o) <= 800 + / 2 * bpow (-14))%R /\
  nnf (o_speed o) /\
  fle OBSTACLE_BASE_SPEED (o_speed o) = true /\
  fle (o_speed o) SPEED_MAX = true /\
  fin32 (o_y o) /\
  fle (fneg OBSTACLE_HEIGHT) (o_y o) = true /\
  fle (o_y o) fWINDOW_HEIGHT = true.

(** The games the program is in between two frames. *)
Definition game_ok (g : Game) : Prop :=
  length (obstacles g) = MAX_OBSTACLES /\
  Forall obstacle_ok (obstacles g) /\
  p_y (player g) = p_y init_player /\
  p_h (player g) = PLAYER_HEIGHT /\
  player_on_line (player g) /\
  nnf (elapsedTime g) /\ fle (elapsedTime g) ELAPSED_MAX = true /\
  nnf (spawnIntervalMs g) /\
  fle OBSTACLE_MIN_INTERVAL (spawnIntervalMs g) = true /\
  fle (spawnIntervalMs g) OBSTACLE_BASE_INTERVAL = true /\
  is_int (score g) /\
  (state g = GAME_STATE_GAME_OVER -> score g <= highScore g).

(** The draws of [rand] of a frame are in range. *)
Definition draws_ok (RAND_MAX : Z) (inp : FrameInput) : Prop :=
  0 <= rand_w (tick_env inp) <= RAND_MAX /\
  0 <= rand_x (tick_env inp) <= RAND_MAX.

(** ** Rendering *)

Definition BACKGROUND_COLOR_R : Z := 15.
Definition BACKGROUND_COLOR_G : Z := 15.
Definition BACKGROUND_COLOR_B : Z := 25.
Definition PLAYER_COLOR_R : Z := 60.
Definition PLAYER_COLOR_G : Z := 220.
Definition PLAYER_COLOR_B : Z := 120.
Definition OBSTACLE_COLOR_R : Z := 230.
Definition OBSTACLE_COLOR_G : Z := 60.
Definition OBSTACLE_COLOR_B : Z := 80.
Definition MENU_TINT_ALPHA : Z := 120.
Definition PAUSE_TINT_ALPHA : Z := 120.
Definition GAME_OVER_TINT_ALPHA : Z := 160.

(** [roundf]: the nearest integer, halfway cases away from zero.  A
    float with a non-negative exponent is an integer already; for the
    others the magnitude [m / 2^k] is rounded as [(m + 2^(k-1)) / 2^k],
    which is below 2^24 and so a float. *)
Definition roundf (x : float) : float :=
  match x with
  | S754_finite s m e =>
      if 0 <=? e then x
      else
        let q := (Zpos m + 2 ^ (- e - 1)) / 2 ^ (- e) in
        binary_normalize prec emax (cond_Zopp s q) 0 s
  | _ => x
  end.

Record SDL_Rect : Set := mkRect {
  rect_x : Z;
  rect_y : Z;
  rect_w : Z;
  rect_h : Z
}.

(** The calls on the renderer. *)
Inductive Render_Call : Set :=
| SDL_SetRenderDrawColor (r g b a : Z)
| SDL_RenderClear
| SDL_RenderFillRect (rect : SDL_Rect)
| SDL_RenderPresent.

Definition draw_filled_rect (x y w h : float) (r g b a : Z)
  : list Render_Call :=
  let rect := mkRect (to_int (roundf x)) (to_int (roundf y))
                     (to_int (roundf w)) (to_int (roundf h)) in
  [SDL_SetRenderDrawColor r g b a; SDL_RenderFillRect rect].

Definition draw_obstacle (o : Obstacle) : list Render_Call :=
  if is_free o then []
  else draw_filled_rect (o_x o) (o_y o) (o_w o) (o_h o)
                        OBSTACLE_COLOR_R OBSTACLE_COLOR_G OBSTACLE_COLOR_B 255.

Definition render_game (g : Game) : list Render_Call :=
  [SDL_SetRenderDrawColor BACKGROUND_COLOR_R BACKGROUND_COLOR_G
                          BACKGROUND_COLOR_B 255;
   SDL_RenderClear] ++
  draw_filled_rect (p_x (player g)) (p_y (player g))
                   (p_w (player g)) (p_h (player g))
                   PLAYER_COLOR_R PLAYER_COLOR_G PLAYER_COLOR_B 255 ++
  flat_map draw_obstacle (obstacles g) ++
  (match state g with
   | GAME_STATE_MENU =>
       draw_filled_rect f0 f0 fWINDOW_WIDTH fWINDOW_HEIGHT
                        0 0 0 MENU_TINT_ALPHA
   | GAME_STATE_PAUSED =>
       draw_filled_rect f0 f0 fWINDOW_WIDTH fWINDOW_HEIGHT
                        0 0 0 PAUSE_TINT_ALPHA
   | GAME_STATE_GAME_OVER =>
       draw_filled_rect f0 f0 fWINDOW_WIDTH fWINDOW_HEIGHT
                        120 0 0 GAME_OVER_TINT_ALPHA
   | GAME_STATE_PLAYING => []
   end) ++
  [SDL_RenderPresent].

(** The rectangles a list of calls fills, in order. *)
Fixpoint filled (calls : list Render_Call) : list SDL_Rect :=
  match calls with
  | [] => []
  | SDL_RenderFillRect rect :: rest => rect :: filled rest
  | _ :: rest => filled rest
  end.

(** ** The window title *)

From Stdlib Require String Ascii.

Section TitleText.

Import Ascii String.
Local Open Scope string_scope.
Local Open Scope Z_scope.

Definition digit_char (d : Z) : ascii := ascii_of_N (Z.to_N (48 + d)).

(** The decimal digits of [n >= 0] in front of [acc], the last digit
    produced first; ten rounds are enough for an [int]. *)
Fixpoint digits (fuel : nat) (n : Z) (acc : string) : string :=
  match fuel with
  | O => acc
  | S fuel' =>
      let acc' := String (digit_char (n mod 10)) acc in
      if n / 10 =? 0 then acc' else digits fuel' (n / 10) acc'
  end.

(** What [%d] prints for an [int]. *)
Definition format_int (n : Z) : string :=
  if n <? 0 then String "-" (digits 10 (- n) "") else digits 10 n "".

(** The state names of [update_window_title]; its [default] branch is
    for values outside the enumeration. *)
Definition state_str (s : GameState) : string :=
  match s with
  | GAME_STATE_MENU => "MENU"
  | GAME_STATE_PLAYING => "PLAYING"
  | GAME_STATE_PAUSED => "PAUSED"
  | GAME_STATE_GAME_OVER => "GAME OVER"
  end.

(** The text the format string describes. *)
Definition title_text (g : Game) : string :=
  "Endless Dodge - Score: " ++ format_int (score g) ++
  "  High: " ++ format_int (highScore g) ++
  "  [" ++ state_str (state g) ++ "]".

(** The title [update_window_title] sets: [snprintf] into [char
    title[128]] keeps at most 127 characters. *)
Definition update_window_title (g : Game) : string :=
  substring 0 127 (title_text g).

(** The integer a string of decimal digits, with an optional minus
    sign, stands for. *)
Fixpoint decimal_digits (s : string) (acc : Z) : Z :=
  match s with
  | EmptyString => acc
  | String c rest =>
      decimal_digits rest (10 * acc + (Z.of_N (N_of_ascii c) - 48))
  end.

Definition decimal_value (s : string) : Z :=
  match s with
  | String "-" rest => - decimal_digits rest 0
  | _ => decimal_digits s 0
  end.

End TitleText.

(** ** A range [rand_range] leaves *)

(** [3 * 2^-24] and [1.5 + 2^-23]: the difference of the two is a tie
    that rounds up, and so does the sum that follows. *)
Definition overshoot_min : float := S754_finite false 12582912 (-46).
Definition overshoot_max : float := S754_finite false 12582913 (-23).

(** ** The movement flags *)

(** What an event does to [leftPressed]: [Some v] writes [v]. *)
Definition left_effect (te : Z * SDL_Event) : option Z :=
  match snd te with
  | SDL_KEYDOWN repeat (SDLK_a | SDLK_LEFT) =>
      if repeat =? 0 then Some 1 else None
  | SDL_KEYUP (SDLK_a | SDLK_LEFT) => Some 0
  | _ => None
  end.

(** The same for [rightPressed]. *)
Definition right_effect (te : Z * SDL_Event) : option Z :=
  match snd te with
  | SDL_KEYDOWN repeat (SDLK_d | SDLK_RIGHT) =>
      if repeat =? 0 then Some 1 else None
  | SDL_KEYUP (SDLK_d | SDLK_RIGHT) => Some 0
  | _ => None
  end.

(** The value the last write of a queue leaves, [v] if there is none. *)
Definition last_effect (f : Z * SDL_Event -> option Z)
           (evs : list (Z * SDL_Event)) (v : Z) : Z :=
  fold_left (fun v te => match f te with Some v' => v' | None => v end) evs v.

(** ** Around the player's row *)

(** The floats next below 520 and next below 540. *)
Definition f520_pred : float := S754_finite false 8519679 (-14).
Definition f540_pred : float := S754_finite false 8847359 (-14).

(** * Rounding to nearest in binary32 *)

Section Bpow.

Lemma bpow_pos e : (0 < bpow e)%R.
Proof. apply powerRZ_lt; lra. Qed.

Lemma bpow_add a b : bpow (a + b) = (bpow a * bpow b)%R.
Proof. apply powerRZ_add; lra. Qed.

Lemma bpow_0 : bpow 0 = 1%R.
Proof. reflexivity. Qed.

Lemma bpow_1 : bpow 1 = 2%R.
Proof. unfold bpow; simpl; lra. Qed.

Lemma bpow_succ e : bpow (e + 1) = (2 * bpow e)%R.
Proof. rewrite bpow_add, bpow_1; lra. Qed.

Lemma bpow_opp e : (bpow e * bpow (- e) = 1)%R.
Proof. rewrite <- bpow_add, Z.add_opp_diag_r; apply bpow_0. Qed.

Lemma bpow_IZR k : 0 <= k -> bpow k = IZR (2 ^ k).
Proof.
  intros Hk; destruct k as [|p|p]; [reflexivity| |lia].
  unfold bpow; rewrite <- Zpower_pos_powerRZ; reflexivity.
Qed.

Lemma bpow_le a b : a <= b -> (bpow a <= bpow b)%R.
Proof.
  intros H; replace b with (a + (b - a)) by lia.
  rewrite bpow_add, (bpow_IZR (b - a)) by lia.
  assert (H0 : 0 < 2 ^ (b - a)) by (apply Z.pow_pos_nonneg; lia).
  assert (H1 : 1 <= 2 ^ (b - a)) by lia.
  apply IZR_le in H1; pose proof (bpow_pos a); nra.
Qed.

Lemma bpow_lt_inv a b : (bpow a < bpow b)%R -> a < b.
Proof.
  intros H; destruct (Z_lt_le_dec a b) as [|Hle]; [assumption|].
  apply bpow_le in Hle; lra.
Qed.

End Bpow.

Section Digits.

Lemma digits2_pos_bounds (m : positive) :
  2 ^ (Zpos (digits2_pos m) - 1) <= Zpos m < 2 ^ Zpos (digits2_pos m).
Proof.
  induction m as [m IH|m IH|]; simpl digits2_pos.
  - rewrite Pos2Z.inj_succ, (Pos2Z.inj_xI m).
    replace (Z.succ (Zpos (digits2_pos m)) - 1)
      with (Z.succ (Zpos (digits2_pos m) - 1)) by lia.
    rewrite !Z.pow_succ_r by lia. lia.
  - rewrite Pos2Z.inj_succ, (Pos2Z.inj_xO m).
    replace (Z.succ (Zpos (digits2_pos m)) - 1)
      with (Z.succ (Zpos (digits2_pos m) - 1)) by lia.
    rewrite !Z.pow_succ_r by lia. lia.
  - simpl. lia.
Qed.

Lemma digits2_pos_unique (m : positive) (k : Z) :
  2 ^ (k - 1) <= Zpos m < 2 ^ k -> Zpos (digits2_pos m) = k.
Proof.
  intros [Hl Hu]. pose proof (digits2_pos_bounds m) as [Dl Du].
  set (d := Zpos (digits2_pos m)) in *.
  assert (0 < d) by (subst d; lia).
  destruct (Z.lt_trichotomy d k) as [Hlt|[Heq|Hgt]]; [|assumption|].
  - assert (2 ^ d <= 2 ^ (k - 1)) by (apply Z.pow_le_mono_r; lia). lia.
  - assert (0 <= k).
    { destruct (Z_lt_le_dec k 0) as [Hk|]; [|assumption].
      rewrite (Z.pow_neg_r 2 k Hk) in Hu. lia. }
    assert (2 ^ k <= 2 ^ (d - 1)) by (apply Z.pow_le_mono_r; lia). lia.
Qed.

Lemma Zdigits2_pos (m : positive) : Zdigits2 (Zpos m) = Zpos (digits2_pos m).
Proof. reflexivity. Qed.

Lemma iter_xO_pow (m d : positive) :
  Zpos (Pos.iter xO m d) = Zpos m * 2 ^ Zpos d.
Proof.
  induction d as [|d IH] using Pos.peano_ind.
  - simpl. lia.
  - rewrite Pos.iter_succ, (Pos2Z.inj_xO (Pos.iter xO m d)), IH, Pos2Z.inj_succ, Z.pow_succ_r by lia.
    lia.
Qed.

End Digits.

Section Shift.

Lemma IZR_xO p : IZR (Zpos p~0) = (2 * IZR (Zpos p))%R.
Proof. rewrite (Pos2Z.inj_xO p), mult_IZR. reflexivity. Qed.

Lemma IZR_xI p : IZR (Zpos p~1) = (2 * IZR (Zpos p) + 1)%R.
Proof. rewrite (Pos2Z.inj_xI p), plus_IZR, mult_IZR. reflexivity. Qed.

Lemma located_of_loc m l y :
  0 <= m -> inbetween m l y -> located (shr_record_of_loc m l) y.
Proof.
  intros Hm H; split; destruct l as [|[ | | ]]; simpl; assumption.
Qed.

Lemma shr_1_located mrs y :
  located mrs y -> located (shr_1 mrs) (y * / 2)%R.
Proof.
  destruct mrs as [m r s]; intros [Hm H].
  cbn [shr_m loc_of_shr_record] in Hm, H.
  destruct m as [|p|p]; [| |lia].
  - destruct r, s; cbn [inbetween] in H; split;
      cbn [shr_1 orb shr_m loc_of_shr_record inbetween]; try lia; lra.
  - destruct p as [p|p|]; destruct r, s; cbn [inbetween] in H;
      try rewrite (IZR_xO p) in H; try rewrite (IZR_xI p) in H; split;
      cbn [shr_1 orb shr_m loc_of_shr_record inbetween]; try lia; lra.
Qed.

Lemma iter_shr_1_located p : forall mrs y,
  located mrs y -> located (SpecFloat.iter_pos shr_1 p mrs) (y * bpow (- Zpos p))%R.
Proof.
  assert (Hhalf : bpow (-1) = (/ 2)%R) by (unfold bpow; simpl; lra).
  induction p as [p IH|p IH|]; intros mrs y H; cbn [SpecFloat.iter_pos].
  - apply shr_1_located, IH, IH in H.
    replace (y * bpow (- Zpos p~1))%R
      with (y * / 2 * bpow (- Zpos p) * bpow (- Zpos p))%R; [assumption|].
    replace (- Zpos p~1) with (-1 + (- Zpos p + - Zpos p)) by lia.
    rewrite !bpow_add, Hhalf. ring.
  - apply IH, IH in H.
    replace (y * bpow (- Zpos p~0))%R
      with (y * bpow (- Zpos p) * bpow (- Zpos p))%R; [assumption|].
    replace (- Zpos p~0) with (- Zpos p + - Zpos p) by lia.
    rewrite !bpow_add. ring.
  - apply shr_1_located in H.
    change (- Zpos 1) with (-1). rewrite Hhalf. assumption.
Qed.

(** Shifting by [n >= 0] keeps track of where the real lies. *)
Lemma shr_located mrs e n y :
  0 <= n -> located mrs y ->
  located (fst (shr mrs e n)) (y * bpow (- n))%R /\ snd (shr mrs e n) = e + n.
Proof.
  intros Hn H; destruct n as [|p|p]; [| |lia]; simpl.
  - rewrite Rmult_1_r. split; [assumption|lia].
  - split; [apply iter_shr_1_located; assumption|reflexivity].
Qed.

Lemma shr_nop mrs e n : n <= 0 -> shr mrs e n = (mrs, e).
Proof. destruct n; intros; [reflexivity|lia|reflexivity]. Qed.

End Shift.

Section Round.

Lemma fexp_eq e : fexp prec emax e = Z.max (e - 24) (-149).
Proof. reflexivity. Qed.

Lemma inbetween_bounds m l y :
  inbetween m l y -> (IZR m <= y < IZR m + 1)%R.
Proof. destruct l as [|[ | | ]]; simpl; lra. Qed.

Lemma rne_bounds m l :
  m <= round_nearest_even m l <= m + 1.
Proof.
  destruct l as [|[ | | ]]; simpl; try lia. destruct (Z.even m); lia.
Qed.

Lemma unscale x e : x = (x * bpow (- e) * bpow e)%R.
Proof.
  rewrite Rmult_assoc, (Rmult_comm (bpow (- e))), bpow_opp. ring.
Qed.

Lemma IZR_pow2 k : 0 <= k -> IZR (2 ^ k) = bpow k.
Proof. intros; symmetry; apply bpow_IZR; assumption. Qed.

(** Integers against powers of two, in the reals. *)
Lemma IZR_lt_bpow m k : 0 <= k -> m < 2 ^ k -> (IZR m < bpow k)%R.
Proof. intros Hk H; rewrite bpow_IZR by assumption; apply IZR_lt; assumption. Qed.

Lemma IZR_ge_bpow m k : 0 <= k -> 2 ^ k <= m -> (bpow k <= IZR m)%R.
Proof. intros Hk H; rewrite bpow_IZR by assumption; apply IZR_le; assumption. Qed.

Lemma bounded_inv m e :
  bounded prec emax m e = true ->
  -149 <= e <= 104 /\ Zpos m < 2 ^ 24 /\ (-149 < e -> 2 ^ 23 <= Zpos m).
Proof.
  unfold bounded, canonical_mantissa; rewrite fexp_eq.
  intros H; apply andb_true_iff in H as [Hc He].
  apply Z.eqb_eq in Hc; apply Z.leb_le in He.
  change (emax - prec) with 104 in He.
  pose proof (digits2_pos_bounds m) as [Dl Du].
  set (d := Zpos (digits2_pos m)) in *.
  assert (0 < d) by (subst d; lia).
  repeat split; try lia.
  - assert (2 ^ d <= 2 ^ 24) by (apply Z.pow_le_mono_r; lia). lia.
  - intros He'. assert (d = 24) by lia.
    replace 23 with (d - 1) by lia. assumption.
Qed.

Lemma bounded_intro m e :
  -149 <= e <= 104 -> Zpos m < 2 ^ 24 -> (-149 < e -> 2 ^ 23 <= Zpos m) ->
  bounded prec emax m e = true.
Proof.
  intros He Hm Hn. unfold bounded, canonical_mantissa; rewrite fexp_eq.
  apply andb_true_iff; split; [apply Z.eqb_eq|apply Z.leb_le; change (emax - prec) with 104; lia].
  pose proof (digits2_pos_bounds m) as [Dl Du].
  set (d := Zpos (digits2_pos m)) in *.
  assert (0 < d) by (subst d; lia).
  assert (d <= 24).
  { destruct (Z_lt_le_dec 24 d) as [Hd|]; [|assumption].
    assert (2 ^ 24 <= 2 ^ (d - 1)) by (apply Z.pow_le_mono_r; lia). lia. }
  destruct (Z.eq_dec e (-149)) as [->|Hne]; [lia|].
  assert (2 ^ 23 <= Zpos m) by (apply Hn; lia).
  assert (24 <= d).
  { destruct (Z_lt_le_dec d 24) as [Hd|]; [|assumption].
    assert (2 ^ d <= 2 ^ 23) by (apply Z.pow_le_mono_r; lia). lia. }
  lia.
Qed.

(** The last step of the rounding: a significand in [1, 2^24] at a
    rounding exponent gives a canonical float of that value, or
    overflows. *)
Lemma finish_spec m fe :
  0 < m <= 2 ^ 24 -> -149 <= fe -> (-149 < fe -> 2 ^ 23 <= m) ->
  (nnf (finish m fe) /\ B2R (finish m fe) = (IZR m * bpow fe)%R) \/
  (finish m fe = S754_infinity false /\ (bpow 128 <= IZR m * bpow fe)%R).
Proof.
  intros [Hm0 Hm] Hfe Hn.
  destruct (Z.eq_dec m (2 ^ 24)) as [->|Hne].
  - (* the significand carried out: one more shift *)
    assert (Hs : shr_fexp prec emax (2 ^ 24) fe loc_Exact
                 = ({| shr_m := 2 ^ 23; shr_r := false; shr_s := false |}, fe + 1)).
    { unfold shr_fexp. change (Zdigits2 (2 ^ 24)) with 25. rewrite fexp_eq.
      replace (Z.max (25 + fe - 24) (-149) - fe) with 1 by lia. reflexivity. }
    unfold finish; rewrite Hs; cbn [shr_m]. change (2 ^ 23) with (Zpos 8388608).
    cbv iota beta. change (emax - prec) with 104.
    destruct (Z.leb_spec (fe + 1) 104) as [Hle|Hgt].
    + left; split.
      * apply bounded_intro; lia.
      * cbn [B2R]. rewrite bpow_succ. change (2 ^ 24) with (2 * 8388608).
        rewrite mult_IZR. ring.
    + right; split; [reflexivity|].
      replace 128 with (24 + 104) by lia. rewrite (bpow_add 24 104), (bpow_IZR 24) by lia.
      assert (bpow 104 <= bpow fe)%R by (apply bpow_le; lia).
      assert (0 < IZR (2 ^ 24))%R by (apply IZR_lt; lia). nra.
  - destruct m as [|p|p]; try lia.
    pose proof (digits2_pos_bounds p) as [Dl Du].
    assert (Hd : Zpos (digits2_pos p) <= 24).
    { destruct (Z_lt_le_dec 24 (Zpos (digits2_pos p))) as [Hd|]; [|assumption].
      assert (2 ^ 24 <= 2 ^ (Zpos (digits2_pos p) - 1)) by (apply Z.pow_le_mono_r; lia).
      lia. }
    assert (Hs : shr_fexp prec emax (Zpos p) fe loc_Exact
                 = ({| shr_m := Zpos p; shr_r := false; shr_s := false |}, fe)).
    { unfold shr_fexp. rewrite Zdigits2_pos, fexp_eq. apply shr_nop. lia. }
    unfold finish; rewrite Hs; cbn [shr_m]. cbv iota beta.
    change (emax - prec) with 104.
    destruct (Z.leb_spec fe 104) as [Hle|Hgt].
    + left; split; [|cbn [B2R]; ring].
      apply bounded_intro; lia.
    + right; split; [reflexivity|].
      assert (2 ^ 23 <= Zpos p) by (apply Hn; lia).
      apply (IZR_ge_bpow _ 23) in H; [|lia].
      replace 128 with (23 + 105) by lia. rewrite (bpow_add 23 105).
      assert (bpow 105 <= bpow fe)%R by (apply bpow_le; lia).
      pose proof (bpow_pos 23). pose proof (bpow_pos 105). nra.
Qed.

Lemma finish_zero fe : -149 <= fe -> finish 0 fe = S754_zero false.
Proof.
  intros Hfe. unfold finish, shr_fexp. change (Zdigits2 0) with 0.
  rewrite fexp_eq, shr_nop by lia. reflexivity.
Qed.

End Round.

Section Rounding.

Lemma B2R_finite_bounds m e :
  bounded prec emax m e = true ->
  (0 < B2R (S754_finite false m e) < bpow (e + 24))%R /\
  (-149 < e -> (bpow (e + 23) <= B2R (S754_finite false m e))%R).
Proof.
  intros H; apply bounded_inv in H as (He & Hm & Hn); cbn [B2R].
  pose proof (bpow_pos e) as Hp.
  assert (0 < IZR (Zpos m))%R by (apply IZR_lt; lia).
  assert (IZR (Zpos m) < bpow 24)%R by (apply IZR_lt_bpow; lia).
  rewrite (Z.add_comm e 24), (Z.add_comm e 23), !bpow_add.
  repeat split; try nra.
  intros He'. apply Hn, (IZR_ge_bpow _ 23) in He'; [nra|lia].
Qed.

Lemma nnf_nonneg c : nnf c -> (0 <= B2R c)%R.
Proof.
  destruct c as [s|s| |[|] m e]; simpl; intros H; try lra; try contradiction.
  apply B2R_finite_bounds in H as [[H _] _]. cbn [B2R] in H. lra.
Qed.

Lemma nnf_lt_bpow128 c : nnf c -> (B2R c < bpow 128)%R.
Proof.
  destruct c as [s|s| |[|] m e]; cbn [nnf B2R]; intros H; try contradiction;
    try apply bpow_pos.
  pose proof (bounded_inv _ _ H) as (He & _).
  apply B2R_finite_bounds in H as [[_ H] _]. cbn [B2R] in H.
  assert (bpow (e + 24) <= bpow 128)%R by (apply bpow_le; lia). lra.
Qed.

(** On non-negative finite floats the C comparison is the comparison of
    the values. *)
Lemma compare_nnf a b :
  nnf a -> nnf b ->
  (SFcompare a b = Some Lt /\ (B2R a < B2R b)%R) \/
  (SFcompare a b = Some Eq /\ B2R a = B2R b) \/
  (SFcompare a b = Some Gt /\ (B2R b < B2R a)%R).
Proof.
  destruct a as [sa|sa| |[|] ma ea]; try contradiction;
    destruct b as [sb|sb| |[|] mb eb]; try contradiction; intros Ha Hb.
  - right; left; split; reflexivity.
  - left; split; [reflexivity|].
    apply B2R_finite_bounds in Hb as [[Hb _] _]. simpl B2R at 1. lra.
  - right; right; split; [reflexivity|].
    apply B2R_finite_bounds in Ha as [[Ha _] _]. simpl B2R at 1. lra.
  - pose proof (B2R_finite_bounds _ _ Ha) as [[Ha0 Ha1] Ha2].
    pose proof (B2R_finite_bounds _ _ Hb) as [[Hb0 Hb1] Hb2].
    pose proof (bounded_inv _ _ Ha) as (Hea & _).
    pose proof (bounded_inv _ _ Hb) as (Heb & _).
    cbn [SFcompare]. destruct (Z.compare_spec ea eb) as [Heq|Hlt|Hgt].
    + subst eb. change (Pos.compare_cont Eq ma mb) with (Pos.compare ma mb).
      pose proof (bpow_pos ea). cbn [B2R].
      destruct (Pos.compare_spec ma mb) as [Hm|Hm|Hm].
      * right; left; split; [reflexivity|]. subst; reflexivity.
      * left; split; [reflexivity|].
        assert (IZR (Zpos ma) < IZR (Zpos mb))%R by (apply IZR_lt; lia). nra.
      * right; right; split; [reflexivity|].
        assert (IZR (Zpos mb) < IZR (Zpos ma))%R by (apply IZR_lt; lia). nra.
    + left; split; [reflexivity|].
      assert (bpow (ea + 24) <= bpow (eb + 23))%R by (apply bpow_le; lia).
      assert (bpow (eb + 23) <= B2R (S754_finite false mb eb))%R by (apply Hb2; lia).
      lra.
    + right; right; split; [reflexivity|].
      assert (bpow (eb + 24) <= bpow (ea + 23))%R by (apply bpow_le; lia).
      assert (bpow (ea + 23) <= B2R (S754_finite false ma ea))%R by (apply Ha2; lia).
      lra.
Qed.

Lemma fle_nnf a b : nnf a -> nnf b -> (fle a b = true <-> (B2R a <= B2R b)%R).
Proof.
  intros Ha Hb; unfold fle, SFleb.
  destruct (compare_nnf a b Ha Hb) as [[-> H]|[[-> H]|[-> H]]];
    split; intros; try reflexivity; try discriminate; lra.
Qed.

Lemma flt_nnf a b : nnf a -> nnf b -> (flt a b = true <-> (B2R a < B2R b)%R).
Proof.
  intros Ha Hb; unfold flt, SFltb.
  destruct (compare_nnf a b Ha Hb) as [[-> H]|[[-> H]|[-> H]]];
    split; intros; try reflexivity; try discriminate; lra.
Qed.

Lemma fle_nni_inf a : nni a -> fle a (S754_infinity false) = true.
Proof.
  intros [H| ->]; [|reflexivity].
  destruct a as [s|s| |[|] m e]; try contradiction; reflexivity.
Qed.

(** Rounding does not step over an integer. *)
Lemma rne_le_int m l y K :
  inbetween m l y -> (y <= IZR K)%R -> round_nearest_even m l <= K.
Proof.
  intros H Hy. pose proof (rne_bounds m l).
  destruct l as [|c].
  - simpl in *. subst y. apply le_IZR in Hy. lia.
  - assert (IZR m < IZR K)%R by (destruct c; simpl in H; lra).
    apply lt_IZR in H1. lia.
Qed.

Lemma rne_ge_int m l y K :
  inbetween m l y -> (IZR K <= y)%R -> K <= round_nearest_even m l.
Proof.
  intros H Hy. pose proof (rne_bounds m l).
  apply inbetween_bounds in H.
  assert (IZR K < IZR (m + 1))%R by (rewrite plus_IZR; lra).
  apply lt_IZR in H1. lia.
Qed.

Lemma rne_mono m l y m' l' y' :
  inbetween m l y -> inbetween m' l' y' -> (y <= y')%R ->
  round_nearest_even m l <= round_nearest_even m' l'.
Proof.
  intros H H' Hy.
  pose proof (rne_bounds m l). pose proof (rne_bounds m' l').
  pose proof (inbetween_bounds _ _ _ H). pose proof (inbetween_bounds _ _ _ H').
  assert (Hmm : m <= m').
  { assert (IZR m < IZR (m' + 1))%R by (rewrite plus_IZR; lra).
    apply lt_IZR in H4. lia. }
  destruct (Z.eq_dec m m') as [<-|Hne].
  - destruct l as [|[ | | ]], l' as [|[ | | ]]; simpl in *;
      try lra; try lia; destruct (Z.even m); lia.
  - assert (round_nearest_even m l <= m + 1) by lia. lia.
Qed.

(** What a rounding is, with the last step resolved. *)
Lemma RND_inv x r :
  RND x r ->
  exists fe m l,
    is_cexp x fe /\ 0 <= m /\ inbetween m l (x * bpow (- fe))%R /\
    let m1 := round_nearest_even m l in
    (nnf r /\ B2R r = (IZR m1 * bpow fe)%R) \/
    (r = S754_infinity false /\ (bpow 128 <= IZR m1 * bpow fe)%R).
Proof.
  intros (fe & m & l & Hc & Hm & Hin & H). exists fe, m, l.
  repeat split; try assumption. cbv zeta in *.
  destruct H as [[H0 [s ->]]|[Hpos ->]].
  - left; split; [exact I|]. rewrite H0; simpl; ring.
  - pose proof (rne_bounds m l) as Hb.
    pose proof (inbetween_bounds _ _ _ Hin) as Hy.
    assert (Hfe : -149 <= fe) by (destruct Hc as [[-> _]|[? _]]; lia).
    assert (Hy24 : (x * bpow (- fe) < bpow 24)%R).
    { destruct Hc as [[-> [_ Hx]]|[_ [_ Hx]]].
      - change (- -149) with 149.
        assert (bpow (-125) * bpow 149 = bpow 24)%R by (rewrite <- bpow_add; reflexivity).
        pose proof (bpow_pos 149). nra.
      - assert (bpow (fe + 24) * bpow (- fe) = bpow 24)%R.
        { rewrite <- bpow_add. f_equal. lia. }
        pose proof (bpow_pos (- fe)). nra. }
    assert (Hm24 : m < 2 ^ 24).
    { apply lt_IZR. rewrite IZR_pow2 by lia. lra. }
    apply finish_spec; try lia.
    intros Hn. destruct Hc as [[-> _]|[_ [Hx _]]]; [lia|].
    assert (bpow (fe + 23) * bpow (- fe) = bpow 23)%R.
    { rewrite <- bpow_add. f_equal. lia. }
    assert (IZR (2 ^ 23) < IZR (m + 1))%R.
    { rewrite IZR_pow2, plus_IZR by lia. pose proof (bpow_pos (- fe)). nra. }
    apply lt_IZR in H0. lia.
Qed.

Lemma RND_nni x r : RND x r -> nni r.
Proof.
  intros H; apply RND_inv in H as (fe & m & l & _ & _ & _ & [[Hr _]|[-> _]]);
    [left; assumption|right; reflexivity].
Qed.

Lemma is_cexp_unique x fe fe' : is_cexp x fe -> is_cexp x fe' -> fe = fe'.
Proof.
  intros [[-> [H0 H1]]|[Hn [H0 H1]]] [[-> [H0' H1']]|[Hn' [H0' H1']]]; try reflexivity.
  - assert (bpow (-125) <= bpow (fe' + 23))%R by (apply bpow_le; lia). lra.
  - assert (bpow (-125) <= bpow (fe + 23))%R by (apply bpow_le; lia). lra.
  - destruct (Z.lt_trichotomy fe fe') as [Hlt|[Heq|Hgt]]; [|assumption|].
    + assert (bpow (fe + 24) <= bpow (fe' + 23))%R by (apply bpow_le; lia). lra.
    + assert (bpow (fe' + 24) <= bpow (fe + 23))%R by (apply bpow_le; lia). lra.
Qed.

End Rounding.

Section RoundingOrder.

Lemma is_cexp_bounds x fe :
  is_cexp x fe ->
  -149 <= fe /\ (0 <= x < bpow (fe + 24))%R /\
  (-149 < fe -> (bpow (fe + 23) <= x)%R).
Proof.
  intros [[-> [H0 H1]]|[Hn [H0 H1]]].
  - repeat split; try lia; try lra. assumption.
  - pose proof (bpow_pos (fe + 23)). repeat split; try lia; try lra.
Qed.

Lemma scaled_int (M : positive) (E fe : Z) :
  fe <= E ->
  (IZR (Zpos M) * bpow E * bpow (- fe) = IZR (Zpos M * 2 ^ (E - fe)))%R.
Proof.
  intros H. rewrite mult_IZR, IZR_pow2 by lia.
  replace (E - fe) with (E + - fe) by lia. rewrite bpow_add. ring.
Qed.

(** A rounding does not step over a float: upper bound. *)
Lemma RND_le x r c :
  RND x r -> nnf c -> (x <= B2R c)%R -> nnf r /\ (B2R r <= B2R c)%R.
Proof.
  intros Hr Hc Hx. pose proof (nnf_lt_bpow128 c Hc) as Hc128.
  apply RND_inv in Hr as (fe & m & l & Hce & Hm & Hin & Hres).
  cbv zeta in Hres. set (m1 := round_nearest_even m l) in *.
  pose proof (is_cexp_bounds _ _ Hce) as (Hfe & [Hx0 Hx1] & Hx2).
  pose proof (bpow_pos fe) as Hpf. pose proof (bpow_pos (- fe)) as Hpnf.
  assert (Hval : (IZR m1 * bpow fe <= B2R c)%R).
  { destruct c as [s|s| |[|] M E]; try contradiction.
    - cbn [B2R] in *. assert (x = 0%R) by lra. subst x.
      assert (m1 <= 0).
      { apply (rne_le_int m l (0 * bpow (- fe))%R); [assumption|]. simpl. lra. }
      apply IZR_le in H. nra.
    - pose proof (bounded_inv _ _ Hc) as (HE & HM & HMn).
      pose proof (B2R_finite_bounds _ _ Hc) as [[Hc0 Hc1] Hc2].
      destruct (Z_le_gt_dec fe E) as [Hle|Hgt].
      + assert (m1 <= Zpos M * 2 ^ (E - fe)).
        { apply (rne_le_int m l (x * bpow (- fe))%R); [assumption|].
          rewrite <- scaled_int by assumption. cbn [B2R] in Hx.
          apply Rmult_le_compat_r; lra. }
        apply IZR_le in H. rewrite <- scaled_int in H by assumption.
        cbn [B2R]. rewrite (unscale (1 * IZR (Zpos M) * bpow E) fe).
        apply Rmult_le_compat_r; lra.
      + assert (bpow (E + 24) <= bpow (fe + 23))%R by (apply bpow_le; lia).
        assert (bpow (fe + 23) <= x)%R by (apply Hx2; lia). lra. }
  destruct Hres as [[Hn Hv]|[-> Hv]]; [split; [assumption|lra]|lra].
Qed.

(** A rounding does not step over a float: lower bound. *)
Lemma RND_ge x r c :
  RND x r -> nnf c -> (B2R c <= x)%R ->
  r = S754_infinity false \/ (nnf r /\ (B2R c <= B2R r)%R).
Proof.
  intros Hr Hc Hx.
  apply RND_inv in Hr as (fe & m & l & Hce & Hm & Hin & Hres).
  cbv zeta in Hres. set (m1 := round_nearest_even m l) in *.
  pose proof (is_cexp_bounds _ _ Hce) as (Hfe & [Hx0 Hx1] & Hx2).
  pose proof (bpow_pos fe) as Hpf. pose proof (bpow_pos (- fe)) as Hpnf.
  destruct Hres as [[Hn Hv]|[-> Hv]]; [right; split; [assumption|]|left; reflexivity].
  rewrite Hv.
  destruct c as [s|s| |[|] M E]; try contradiction.
  - cbn [B2R]. rewrite <- Hv. apply nnf_nonneg; assumption.
  - pose proof (bounded_inv _ _ Hc) as (HE & HM & HMn).
    pose proof (B2R_finite_bounds _ _ Hc) as [[Hc0 Hc1] Hc2].
    destruct (Z_le_gt_dec fe E) as [Hle|Hgt].
    + assert (Zpos M * 2 ^ (E - fe) <= m1).
      { apply (rne_ge_int m l (x * bpow (- fe))%R); [assumption|].
        rewrite <- scaled_int by assumption. cbn [B2R] in Hx.
        apply Rmult_le_compat_r; lra. }
      apply IZR_le in H. rewrite <- scaled_int in H by assumption.
      cbn [B2R]. rewrite (unscale (1 * IZR (Zpos M) * bpow E) fe).
      apply Rmult_le_compat_r; lra.
    + assert (2 ^ 23 <= m1).
      { apply (rne_ge_int m l (x * bpow (- fe))%R); [assumption|].
        rewrite IZR_pow2 by lia.
        replace (bpow 23) with (bpow (fe + 23) * bpow (- fe))%R
          by (rewrite <- bpow_add; f_equal; lia).
        apply Rmult_le_compat_r; [lra|]. apply Hx2; lia. }
      apply IZR_le in H. rewrite IZR_pow2 in H by lia.
      assert (bpow (E + 24) <= bpow (fe + 23))%R by (apply bpow_le; lia).
      rewrite (bpow_add fe 23) in H0.
      pose proof (bpow_pos 23). nra.
Qed.

(** Rounding is monotone. *)
Lemma RND_mono x r x' r' :
  RND x r -> RND x' r' -> (x <= x')%R -> fle r r' = true.
Proof.
  intros Hr Hr' Hxx. pose proof (RND_nni _ _ Hr) as Hnni.
  pose proof Hr as Hr0.
  apply RND_inv in Hr as (fe & m & l & Hce & Hm & Hin & Hres).
  apply RND_inv in Hr' as (fe' & m' & l' & Hce' & Hm' & Hin' & Hres').
  cbv zeta in Hres, Hres'.
  set (m1 := round_nearest_even m l) in *.
  set (m1' := round_nearest_even m' l') in *.
  pose proof (is_cexp_bounds _ _ Hce) as (Hfe & [Hx0 Hx1] & Hx2).
  pose proof (is_cexp_bounds _ _ Hce') as (Hfe' & [Hx0' Hx1'] & Hx2').
  destruct Hres' as [[Hn' Hv']|[-> Hv']]; [|apply fle_nni_inf; assumption].
  pose proof (nnf_lt_bpow128 _ Hn') as H128.
  assert (nnf r /\ (B2R r <= B2R r')%R) as [Hn Hle];
    [|apply fle_nnf; assumption].
  destruct (Z.lt_trichotomy fe fe') as [Hlt|[Heq|Hgt]].
  - (* a power of two separates the two roundings *)
    assert (H23 : 2 ^ 23 <= m1').
    { apply (rne_ge_int m' l' (x' * bpow (- fe'))%R); [assumption|].
      rewrite IZR_pow2 by lia.
      replace (bpow 23) with (bpow (fe' + 23) * bpow (- fe'))%R
        by (rewrite <- bpow_add; f_equal; lia).
      pose proof (bpow_pos (- fe')).
      apply Rmult_le_compat_r; [lra|]. apply Hx2'; lia. }
    apply IZR_le in H23. rewrite IZR_pow2 in H23 by lia.
    pose proof (bpow_pos fe') as Hpf'.
    assert (HP : (bpow (fe' + 23) <= B2R r')%R).
    { rewrite Hv', (bpow_add fe' 23). nra. }
    assert (Hfe104 : fe' <= 104).
    { assert (fe' + 23 < 128) by (apply bpow_lt_inv; lra). lia. }
    set (c := S754_finite false 8388608 fe').
    assert (Hc : nnf c) by (apply bounded_intro; lia).
    assert (HcR : B2R c = bpow (fe' + 23)).
    { unfold c; cbn [B2R]. rewrite (bpow_add fe' 23).
      change (Zpos 8388608) with (2 ^ 23). rewrite IZR_pow2 by lia. ring. }
    assert (bpow (fe + 24) <= bpow (fe' + 23))%R by (apply bpow_le; lia).
    destruct (RND_le x r c Hr0 Hc) as [Hn Hle]; [lra|].
    split; [assumption|lra].
  - subst fe'.
    assert (Hmm : m1 <= m1').
    { apply (rne_mono m l (x * bpow (- fe))%R m' l' (x' * bpow (- fe))%R);
        try assumption.
      pose proof (bpow_pos (- fe)). apply Rmult_le_compat_r; lra. }
    apply IZR_le in Hmm. pose proof (bpow_pos fe).
    destruct Hres as [[Hn Hv]|[-> Hv]]; [split; [assumption|]|]; nra.
  - assert (bpow (fe' + 24) <= bpow (fe + 23))%R by (apply bpow_le; lia).
    assert (bpow (fe + 23) <= x)%R by (apply Hx2; lia). lra.
Qed.

Lemma finish_bounded (M : positive) (E : Z) :
  bounded prec emax M E = true -> finish (Zpos M) E = S754_finite false M E.
Proof.
  intros H. unfold bounded, canonical_mantissa in H.
  apply andb_true_iff in H as [Hc He]. apply Z.eqb_eq in Hc.
  unfold finish, shr_fexp. rewrite Zdigits2_pos, Hc, shr_nop by lia.
  cbn [shr_record_of_loc shr_m]. rewrite He. reflexivity.
Qed.

(** A float is the rounding of its own value. *)
Lemma RND_id c : nnf c -> RND (B2R c) c.
Proof.
  destruct c as [s|s| |[|] M E]; try contradiction; intros Hc.
  - exists (-149), 0, loc_Exact. cbn [B2R inbetween round_nearest_even].
    pose proof (bpow_pos (-125)).
    split; [left; split; [reflexivity|lra]|].
    split; [lia|]. split; [lra|]. left; eauto.
  - pose proof (bounded_inv _ _ Hc) as (HE & HM & HMn).
    pose proof (B2R_finite_bounds _ _ Hc) as [[Hc0 Hc1] Hc2].
    exists E, (Zpos M), loc_Exact. cbn [inbetween round_nearest_even].
    repeat split; try lia.
    + destruct (Z.eq_dec E (-149)) as [->|Hne].
      * left; split; [reflexivity|]. change (-149 + 24) with (-125) in Hc1. lra.
      * right; split; [lia|]. split; [apply Hc2; lia|lra].
    + cbn [B2R]. rewrite Rmult_assoc, bpow_opp. ring.
    + right; split; [lia|]. symmetry; apply finish_bounded; assumption.
Qed.

End RoundingOrder.

Section Operations.

Lemma digits2_pos_gt (m : positive) (k : Z) :
  0 <= k -> 2 ^ k <= Zpos m -> k < Zpos (digits2_pos m).
Proof.
  intros Hk H. pose proof (digits2_pos_bounds m) as [_ Du].
  apply (Z.pow_lt_mono_r_iff 2); lia.
Qed.

Lemma digits2_pos_shift (m : positive) (k : positive) :
  Zpos (digits2_pos (Pos.iter xO m k)) = Zpos (digits2_pos m) + Zpos k.
Proof.
  apply digits2_pos_unique. rewrite iter_xO_pow.
  pose proof (digits2_pos_bounds m) as [Dl Du].
  replace (Zpos (digits2_pos m) + Zpos k - 1)
    with ((Zpos (digits2_pos m) - 1) + Zpos k) by lia.
  rewrite !Z.pow_add_r by lia.
  assert (0 < 2 ^ Zpos k) by (apply Z.pow_pos_nonneg; lia). nia.
Qed.

(** The rounding step of every operation, for a non-negative real [x]
    handed over as an integer [m], a location and an exponent [e]. *)
Lemma bra_RND x m e l :
  0 <= m -> inbetween m l (x * bpow (- e))%R ->
  e <= fexp prec emax (Zdigits2 m + e) ->
  RND x (binary_round_aux prec emax false m e l).
Proof.
  intros Hm Hin He.
  set (fe := fexp prec emax (Zdigits2 m + e)) in *.
  assert (Hfe : fe = Z.max (Zdigits2 m + e - 24) (-149)) by apply fexp_eq.
  destruct (shr_located (shr_record_of_loc m l) e (fe - e) (x * bpow (- e))%R)
    as [[Hm' Hloc] Hsnd]; [lia|apply located_of_loc; assumption|].
  unfold binary_round_aux, shr_fexp. fold fe.
  destruct (shr (shr_record_of_loc m l) e (fe - e)) as [mrs' e'].
  cbn [fst snd] in Hm', Hloc, Hsnd. subst e'.
  replace (e + (fe - e)) with fe by lia.
  change (RND x (finish (round_nearest_even (shr_m mrs') (loc_of_shr_record mrs')) fe)).
  replace (x * bpow (- e) * bpow (- (fe - e)))%R with (x * bpow (- fe))%R in Hloc.
  2:{ rewrite Rmult_assoc, <- bpow_add. do 2 f_equal. lia. }
  exists fe, (shr_m mrs'), (loc_of_shr_record mrs').
  split; [|split; [assumption|split; [assumption|]]].
  - (* the exponent is the one of the binade of x *)
    pose proof (inbetween_bounds _ _ _ Hin) as [Hy0 Hy1].
    pose proof (bpow_pos e) as Hpe.
    assert (Hx : x = (x * bpow (- e) * bpow e)%R) by apply unscale.
    destruct m as [|p|p]; [| |lia].
    + change (Zdigits2 0) with 0 in Hfe.
      assert (e <= -149 /\ fe = -149) as [He' ->] by lia.
      left; split; [reflexivity|].
      assert (bpow e <= bpow (-125))%R by (apply bpow_le; lia).
      simpl in Hy0, Hy1. nra.
    + rewrite Zdigits2_pos in Hfe.
      pose proof (digits2_pos_bounds p) as [Dl Du].
      set (d := Zpos (digits2_pos p)) in *.
      assert (Hd : 0 < d) by (subst d; lia).
      assert (Hlo : (bpow (d - 1 + e) <= x)%R).
      { rewrite bpow_add. apply (IZR_ge_bpow _ (d - 1)) in Dl; [|lia]. nra. }
      assert (Hhi : (x < bpow (d + e))%R).
      { rewrite bpow_add.
        assert (IZR (Zpos p + 1) <= bpow d)%R.
        { rewrite bpow_IZR by lia. apply IZR_le. lia. }
        rewrite plus_IZR in H. nra. }
      pose proof (bpow_pos (d - 1 + e)).
      destruct (Z_le_gt_dec (d + e - 24) (-149)) as [Hsub|Hnor].
      * left. split; [lia|]. split; [lra|].
        assert (bpow (d + e) <= bpow (-125))%R by (apply bpow_le; lia). lra.
      * right. split; [lia|].
        replace (fe + 23) with (d - 1 + e) by lia.
        replace (fe + 24) with (d + e) by lia. lra.
  - cbv zeta. pose proof (rne_bounds (shr_m mrs') (loc_of_shr_record mrs')).
    destruct (Z.eq_dec (round_nearest_even (shr_m mrs') (loc_of_shr_record mrs')) 0)
      as [E0|E0].
    + left. split; [assumption|]. rewrite E0, finish_zero by lia. eauto.
    + right. split; [lia|reflexivity].
Qed.

Lemma binary_round_RND (p : positive) (e : Z) :
  RND (IZR (Zpos p) * bpow e)%R (binary_round prec emax false p e).
Proof.
  unfold binary_round, shl_align.
  set (fe := fexp prec emax (Zpos (digits2_pos p) + e)).
  destruct (fe - e) as [|k|k] eqn:Hk.
  - apply bra_RND; [lia| |rewrite Zdigits2_pos; fold fe; lia].
    cbn [inbetween]. rewrite Rmult_assoc, bpow_opp. ring.
  - apply bra_RND; [lia| |rewrite Zdigits2_pos; fold fe; lia].
    cbn [inbetween]. rewrite Rmult_assoc, bpow_opp. ring.
  - apply bra_RND; [lia| |].
    + cbn [inbetween]. rewrite iter_xO_pow, mult_IZR, IZR_pow2 by lia.
      replace e with (fe + Zpos k) at 1 by lia. rewrite bpow_add.
      transitivity (IZR (Zpos p) * bpow (Zpos k) * (bpow fe * bpow (- fe)))%R;
        [ring|rewrite bpow_opp; ring].
    + rewrite Zdigits2_pos, digits2_pos_shift.
      replace (Zpos (digits2_pos p) + Zpos k + fe)
        with (Zpos (digits2_pos p) + e) by lia.
      fold fe. lia.
Qed.

Lemma binary_normalize_RND (n e : Z) :
  0 <= n -> RND (IZR n * bpow e)%R (binary_normalize prec emax n e false).
Proof.
  intros Hn. destruct n as [|p|p]; [| |lia]; cbn [binary_normalize].
  - replace (0 * bpow e)%R with (B2R (S754_zero false)) by (simpl; ring).
    apply RND_id. exact I.
  - apply binary_round_RND.
Qed.

Lemma of_int_RND n : 0 <= n -> RND (IZR n) (of_int n).
Proof.
  intros Hn. unfold of_int.
  replace (IZR n) with (IZR n * bpow 0)%R by (rewrite bpow_0; ring).
  apply binary_normalize_RND; assumption.
Qed.

Lemma RND_zero s : RND 0 (S754_zero s).
Proof. apply (RND_id (S754_zero s)). exact I. Qed.

Lemma fmul_RND a b : nnf a -> nnf b -> RND (B2R a * B2R b) (fmul a b).
Proof.
  destruct a as [sa|sa| |[|] ma ea]; try contradiction;
    destruct b as [sb|sb| |[|] mb eb]; try contradiction; intros Ha Hb;
    cbn [fmul SFmul B2R xorb].
  - rewrite Rmult_0_l. apply RND_zero.
  - rewrite Rmult_0_l. apply RND_zero.
  - rewrite Rmult_0_r. apply RND_zero.
  - pose proof (bounded_inv _ _ Ha) as (HEa & HMa & HNa).
    pose proof (bounded_inv _ _ Hb) as (HEb & HMb & HNb).
    unfold fmul; cbn [SFmul xorb].
    apply bra_RND; [lia| |].
    + cbn [inbetween]. rewrite Pos2Z.inj_mul, mult_IZR.
      replace (- (ea + eb)) with (- ea + - eb) by lia. rewrite bpow_add.
      transitivity (IZR (Zpos ma) * IZR (Zpos mb) *
                    (bpow ea * bpow (- ea)) * (bpow eb * bpow (- eb)))%R; [ring|].
      rewrite !bpow_opp. ring.
    + rewrite Zdigits2_pos, fexp_eq.
      destruct (Z.eq_dec ea (-149)) as [Ea|Ea], (Z.eq_dec eb (-149)) as [Eb|Eb];
        [lia| | |].
      all: assert (23 < Zpos (digits2_pos (ma * mb)))
        by (apply digits2_pos_gt; [lia|]; rewrite Pos2Z.inj_mul;
            try (specialize (HNa ltac:(lia))); try (specialize (HNb ltac:(lia))); nia);
        lia.
Qed.

Lemma shl_align_spec (m : positive) (e ez : Z) :
  ez <= e -> Zpos (fst (shl_align m e ez)) = Zpos m * 2 ^ (e - ez).
Proof.
  intros H. unfold shl_align. destruct (ez - e) as [|k|k] eqn:Hk; cbn [fst].
  - replace (e - ez) with 0 by lia. lia.
  - lia.
  - rewrite iter_xO_pow. f_equal. f_equal. lia.
Qed.

Lemma aligned_value (m : positive) (e ez : Z) :
  ez <= e ->
  (IZR (Zpos (fst (shl_align m e ez))) * bpow ez = IZR (Zpos m) * bpow e)%R.
Proof.
  intros H. rewrite shl_align_spec, mult_IZR, IZR_pow2 by lia.
  rewrite Rmult_assoc, <- bpow_add. do 2 f_equal. lia.
Qed.

Lemma fadd_RND a b : nnf a -> nnf b -> RND (B2R a + B2R b) (fadd a b).
Proof.
  destruct a as [sa|sa| |[|] ma ea]; try contradiction;
    destruct b as [sb|sb| |[|] mb eb]; try contradiction; intros Ha Hb.
  - replace (B2R (S754_zero sa) + B2R (S754_zero sb))%R with 0%R by (simpl; ring).
    destruct sa, sb; apply RND_zero.
  - replace (B2R (S754_zero sa) + B2R (S754_finite false mb eb))%R
      with (B2R (S754_finite false mb eb)) by (simpl; ring).
    apply RND_id; assumption.
  - replace (B2R (S754_finite false ma ea) + B2R (S754_zero sb))%R
      with (B2R (S754_finite false ma ea)) by (simpl; ring).
    apply RND_id; assumption.
  - unfold fadd; cbn [SFadd cond_Zopp].
    set (ez := Z.min ea eb).
    set (A := Zpos (fst (shl_align ma ea ez))).
    set (B := Zpos (fst (shl_align mb eb ez))).
    replace (B2R (S754_finite false ma ea) + B2R (S754_finite false mb eb))%R
      with (IZR (A + B) * bpow ez)%R.
    + apply binary_normalize_RND. subst A B; lia.
    + rewrite plus_IZR, Rmult_plus_distr_r. subst A B.
      rewrite !aligned_value by (subst ez; lia). cbn [B2R]. ring.
Qed.

Lemma fsub_RND a b :
  nnf a -> nnf b -> (B2R b <= B2R a)%R -> RND (B2R a - B2R b) (fsub a b).
Proof.
  destruct a as [sa|sa| |[|] ma ea]; try contradiction;
    destruct b as [sb|sb| |[|] mb eb]; try contradiction; intros Ha Hb Hle.
  - replace (B2R (S754_zero sa) - B2R (S754_zero sb))%R with 0%R by (simpl; ring).
    destruct sa, sb; apply RND_zero.
  - apply B2R_finite_bounds in Hb as [[Hb _] _]. simpl B2R at 2 in Hle. lra.
  - replace (B2R (S754_finite false ma ea) - B2R (S754_zero sb))%R
      with (B2R (S754_finite false ma ea)) by (simpl; ring).
    apply RND_id; assumption.
  - unfold fsub; cbn [SFsub cond_Zopp].
    set (ez := Z.min ea eb).
    set (A := Zpos (fst (shl_align ma ea ez))).
    set (B := Zpos (fst (shl_align mb eb ez))).
    assert (HA : (IZR A * bpow ez = B2R (S754_finite false ma ea))%R).
    { subst A. rewrite aligned_value by (subst ez; lia). cbn [B2R]. ring. }
    assert (HB : (IZR B * bpow ez = B2R (S754_finite false mb eb))%R).
    { subst B. rewrite aligned_value by (subst ez; lia). cbn [B2R]. ring. }
    replace (B2R (S754_finite false ma ea) - B2R (S754_finite false mb eb))%R
      with (IZR (A - B) * bpow ez)%R.
    + apply binary_normalize_RND.
      assert (IZR B <= IZR A)%R.
      { pose proof (bpow_pos ez). rewrite <- HA, <- HB in Hle. nra. }
      apply le_IZR in H. lia.
    + rewrite minus_IZR, Rmult_minus_distr_r, HA, HB. reflexivity.
Qed.

End Operations.

Section Division.

Lemma new_location_correct (nb k q : Z) :
  0 < nb -> 0 <= k < nb ->
  inbetween q (new_location nb k) (IZR q + IZR k / IZR nb)%R.
Proof.
  intros Hnb Hk.
  assert (HN : (0 < IZR nb)%R) by (apply IZR_lt; lia).
  set (t := (IZR k / IZR nb)%R).
  assert (Ht : (t * IZR nb = IZR k)%R) by (unfold t; field; lra).
  unfold new_location, new_location_even, new_location_odd.
  destruct (IntDef.Z.even nb) eqn:Hev; cbv beta;
    change (IntDef.Z.even nb) with (Z.even nb) in Hev;
    (destruct (Z.eqb_spec k 0) as [->|Hk0];
     [assert (t = 0%R) by (unfold t; field; lra); cbn [inbetween]; lra|]).
  - assert (HK : (0 < IZR k)%R) by (apply IZR_lt; lia).
    assert (HKN : (IZR k < IZR nb)%R) by (apply IZR_lt; lia).
    destruct (Z.compare_spec (2 * k) nb) as [He|Hl|Hg]; cbn [inbetween].
    + apply (f_equal IZR) in He. rewrite mult_IZR in He. nra.
    + apply IZR_lt in Hl. rewrite mult_IZR in Hl. nra.
    + apply IZR_lt in Hg. rewrite mult_IZR in Hg. nra.
  - assert (HK : (0 < IZR k)%R) by (apply IZR_lt; lia).
    assert (HKN : (IZR k < IZR nb)%R) by (apply IZR_lt; lia).
    assert (Hodd : 2 * k <> nb).
    { intros <-. rewrite Z.even_mul in Hev. discriminate. }
    destruct (Z.compare_spec (2 * k + 1) nb) as [He|Hl|Hg]; cbn [inbetween].
    + assert (Hl : 2 * k < nb) by lia.
      apply IZR_lt in Hl. rewrite mult_IZR in Hl. nra.
    + assert (Hl' : 2 * k < nb) by lia.
      apply IZR_lt in Hl'. rewrite mult_IZR in Hl'. nra.
    + assert (Hg' : nb < 2 * k) by lia.
      apply IZR_lt in Hg'. rewrite mult_IZR in Hg'. nra.
Qed.

Lemma fdiv_RND a b :
  nnf a -> nnf b -> (0 < B2R b)%R -> RND (B2R a / B2R b) (fdiv a b).
Proof.
  destruct a as [sa|sa| |[|] ma ea]; try contradiction;
    destruct b as [sb|sb| |[|] mb eb]; try contradiction; intros Ha Hb Hpos;
    try (simpl in Hpos; lra).
  - replace (B2R (S754_zero sa) / B2R (S754_finite false mb eb))%R with 0%R
      by (unfold Rdiv; cbn [B2R]; ring).
    unfold fdiv; cbn [SFdiv]. apply RND_zero.
  - unfold fdiv; cbn [SFdiv xorb]. unfold SFdiv_core_binary.
    rewrite !Zdigits2_pos.
    pose proof (digits2_pos_bounds ma) as [Al Au].
    pose proof (digits2_pos_bounds mb) as [Bl Bu].
    set (d1 := Zpos (digits2_pos ma)) in *.
    set (d2 := Zpos (digits2_pos mb)) in *.
    assert (Hd1 : 0 < d1) by (subst d1; lia).
    assert (Hd2 : 0 < d2) by (subst d2; lia).
    set (e' := Z.min (fexp prec emax (d1 + ea - (d2 + eb))) (ea - eb)).
    set (s := ea - eb - e').
    assert (Hs : 0 <= s) by (subst s e'; lia).
    set (m' := match s with
               | 0 => Zpos ma
               | Zpos _ => Z.shiftl (Zpos ma) s
               | Zneg _ => 0
               end).
    assert (Hm' : m' = Zpos ma * 2 ^ s).
    { subst m'. destruct s as [|k|k]; [lia| |lia].
      apply Z.shiftl_mul_pow2. lia. }
    pose proof (Z_div_mod m' (Zpos mb) ltac:(lia)) as Hdm.
    destruct (Z.div_eucl m' (Zpos mb)) as [q r]. destruct Hdm as [Hq Hr].
    assert (H2s : 0 < 2 ^ s) by (apply Z.pow_pos_nonneg; lia).
    assert (Hq0 : 0 <= q) by nia.
    apply bra_RND; [assumption| |].
    + replace (B2R (S754_finite false ma ea) / B2R (S754_finite false mb eb) * bpow (- e'))%R
        with (IZR q + IZR r / IZR (Zpos mb))%R; [apply new_location_correct; lia|].
      assert (HB : (0 < IZR (Zpos mb))%R) by (apply IZR_lt; lia).
      pose proof (bpow_pos eb) as Hpb. pose proof (bpow_pos e') as Hpe.
      assert (Hq' : (IZR (Zpos ma) * bpow s = IZR q * IZR (Zpos mb) + IZR r)%R).
      { rewrite <- IZR_pow2, <- !mult_IZR, <- plus_IZR by assumption.
        f_equal. lia. }
      assert (Hea : bpow ea = (bpow s * bpow eb * bpow e')%R).
      { rewrite <- !bpow_add. f_equal. subst s. lia. }
      cbn [B2R]. rewrite Hea.
      transitivity ((IZR (Zpos ma) * bpow s) / IZR (Zpos mb) * (bpow e' * bpow (- e')))%R;
        [rewrite bpow_opp, Hq'; field; lra|field; lra].
    + rewrite fexp_eq. unfold e' at 1. rewrite fexp_eq.
      destruct q as [|pq|pq]; [| |lia].
      * change (Zdigits2 0) with 0.
        (* the quotient is below one unit: the exponent is the smallest *)
        assert (d1 - 1 + s < d2).
        { apply (Z.pow_lt_mono_r_iff 2); [lia|lia|].
          rewrite Z.pow_add_r by lia. nia. }
        subst s e'. rewrite fexp_eq in *. lia.
      * rewrite Zdigits2_pos.
        assert (Hdq : d1 - d2 + s <= Zpos (digits2_pos pq)).
        { destruct (Z_le_gt_dec (d1 - d2 + s) 0) as [|Hgt]; [lia|].
          assert (d1 - d2 + s - 1 < Zpos (digits2_pos pq)); [|lia].
          apply digits2_pos_gt; [lia|].
          assert (2 ^ (d1 - d2 + s - 1) * 2 ^ d2 <= Zpos ma * 2 ^ s).
          { rewrite <- Z.pow_add_r by lia.
            replace (d1 - d2 + s - 1 + d2) with (d1 - 1 + s) by lia.
            rewrite Z.pow_add_r by lia. nia. }
          assert (0 < 2 ^ (d1 - d2 + s - 1)) by (apply Z.pow_pos_nonneg; lia).
          nia. }
        subst s e'. rewrite fexp_eq in *. lia.
Qed.

End Division.

Section Comparison.

(** [a < b] is [b > a], for every pair of floats. *)
Lemma SFcompare_antisym a b :
  SFcompare b a = option_map CompOpp (SFcompare a b).
Proof.
  destruct a as [sa|sa| |sa ma ea], b as [sb|sb| |sb mb eb];
    try reflexivity; try (destruct sa, sb; reflexivity);
    try (destruct sa; reflexivity); try (destruct sb; reflexivity).
  cbn [SFcompare option_map].
  assert (Hp : Pos.compare_cont Eq mb ma = CompOpp (Pos.compare_cont Eq ma mb))
    by (symmetry; apply (Pos.compare_cont_antisym ma mb Eq)).
  rewrite (Z.compare_antisym ea eb), Hp.
  destruct sa, sb; cbn [CompOpp]; try reflexivity;
    destruct (ea ?= eb); cbn [CompOpp]; try reflexivity;
    destruct (Pos.compare_cont Eq ma mb); reflexivity.
Qed.

Lemma SFcompare_refl a : is_nan a = false -> SFcompare a a = Some Eq.
Proof.
  destruct a as [s|s| |s m e]; try discriminate; intros _;
    try (destruct s; reflexivity).
  cbn [SFcompare]. rewrite Z.compare_refl.
  change (Pos.compare_cont Eq m m) with (Pos.compare m m).
  rewrite Pos.compare_refl. destruct s; reflexivity.
Qed.

Lemma SFcompare_not_nan a b :
  is_nan a = false -> is_nan b = false -> exists c, SFcompare a b = Some c.
Proof.
  destruct a as [sa|sa| |sa ma ea], b as [sb|sb| |sb mb eb];
    try discriminate; intros _ _; cbn [SFcompare]; eauto.
Qed.

Lemma fle_refl a : is_nan a = false -> fle a a = true.
Proof. intros H; unfold fle, SFleb; rewrite SFcompare_refl by assumption; reflexivity. Qed.

(** When neither side is a NaN, [a < b] fails exactly when [b <= a]. *)
Lemma flt_false_fle a b :
  is_nan a = false -> is_nan b = false -> flt a b = false -> fle b a = true.
Proof.
  intros Ha Hb. unfold flt, fle, SFltb, SFleb.
  rewrite (SFcompare_antisym a b).
  destruct (SFcompare_not_nan a b Ha Hb) as [[ | | ] ->]; cbn; congruence.
Qed.

Lemma fle_true_fgt_false a b : fle a b = true -> fgt a b = false.
Proof.
  unfold fgt, fle, SFltb, SFleb. rewrite (SFcompare_antisym a b).
  destruct (SFcompare a b) as [[ | | ]|]; cbn; congruence.
Qed.

(** [clampf] brings every number into the interval. *)
Lemma clampf_range v lo hi :
  is_nan v = false -> is_nan lo = false -> is_nan hi = false ->
  fle lo hi = true ->
  fle lo (clampf v lo hi) = true /\ fle (clampf v lo hi) hi = true.
Proof.
  intros Hv Hlo Hhi Hle. unfold clampf.
  destruct (flt v lo) eqn:H1.
  - split; [apply fle_refl|]; assumption.
  - destruct (fgt v hi) eqn:H2.
    + split; [|apply fle_refl]; assumption.
    + split; apply flt_false_fle; assumption.
Qed.

End Comparison.

Section NotNaN.

Lemma shr_1_nonneg mrs : 0 <= shr_m mrs -> 0 <= shr_m (shr_1 mrs).
Proof.
  destruct mrs as [[|[p|p|]|p] r s]; cbn [shr_1 shr_m]; lia.
Qed.

Lemma iter_shr_1_nonneg p : forall mrs,
  0 <= shr_m mrs -> 0 <= shr_m (SpecFloat.iter_pos shr_1 p mrs).
Proof.
  induction p as [p IH|p IH|]; intros mrs H; cbn [SpecFloat.iter_pos].
  - apply IH, IH, shr_1_nonneg, H.
  - apply IH, IH, H.
  - apply shr_1_nonneg, H.
Qed.

Lemma shr_fexp_nonneg m e l :
  0 <= m -> 0 <= shr_m (fst (shr_fexp prec emax m e l)).
Proof.
  intros Hm. unfold shr_fexp, shr.
  assert (0 <= shr_m (shr_record_of_loc m l))
    by (destruct l as [|[ | | ]]; exact Hm).
  destruct (fexp prec emax (Zdigits2 m + e) - e); cbn [fst];
    [assumption|apply iter_shr_1_nonneg; assumption|assumption].
Qed.

(** Rounding a non-negative integer never yields a NaN. *)
Lemma bra_not_nan s m e l :
  0 <= m -> is_nan (binary_round_aux prec emax s m e l) = false.
Proof.
  intros Hm. unfold binary_round_aux.
  pose proof (shr_fexp_nonneg m e l Hm) as H1.
  destruct (shr_fexp prec emax m e l) as [mrs' e']. cbn [fst] in H1.
  pose proof (rne_bounds (shr_m mrs') (loc_of_shr_record mrs')) as Hb.
  pose proof (shr_fexp_nonneg (round_nearest_even (shr_m mrs') (loc_of_shr_record mrs'))
                e' loc_Exact ltac:(lia)) as H2.
  destruct (shr_fexp prec emax _ e' loc_Exact) as [mrs'' e'']. cbn [fst] in H2.
  destruct (shr_m mrs'') as [|p|p]; [reflexivity| |lia].
  destruct (e'' <=? emax - prec); reflexivity.
Qed.

Lemma binary_normalize_not_nan m e s :
  is_nan (binary_normalize prec emax m e s) = false.
Proof.
  destruct m as [|p|p]; cbn [binary_normalize]; [reflexivity| |];
    unfold binary_round; destruct (shl_align _ _ _) as [mz ez];
    apply bra_not_nan; lia.
Qed.

Lemma fmul_not_nan a b :
  is_finite a = true -> is_finite b = true -> is_nan (fmul a b) = false.
Proof.
  destruct a as [sa|sa| |sa ma ea], b as [sb|sb| |sb mb eb];
    try discriminate; intros _ _; try reflexivity.
  unfold fmul; cbn [SFmul]. apply bra_not_nan; lia.
Qed.

(** A finite number plus a number that is not NaN (an infinity included)
    is not NaN. *)
Lemma fadd_not_nan a b :
  is_finite a = true -> is_nan b = false -> is_nan (fadd a b) = false.
Proof.
  destruct a as [sa|sa| |sa ma ea], b as [sb|sb| |sb mb eb];
    try discriminate; intros _ _; try reflexivity;
    try (destruct sa, sb; reflexivity).
  unfold fadd; cbn [SFadd]. apply binary_normalize_not_nan.
Qed.

End NotNaN.

Section Constants.

(** The literals as bit patterns: [0.03f] is 0x3CF5C28F, [0.985f] is
    0x3F7C28F6, [0.1f] is 0x3DCCCCCD and [0.05f] is 0x3D4CCCCD
    (significand with its leading one, and the exponent of its last bit). *)
Example float_literals :
  OBSTACLE_SPEED_INCREMENT = S754_finite false 16106127 (-29) /\
  OBSTACLE_INTERVAL_DECAY = S754_finite false 16525558 (-24) /\
  f0_1 = S754_finite false 13421773 (-27) /\
  f0_05 = S754_finite false 13421773 (-28) /\
  init_player = mkPlayer (of_int 360) (of_int 540) PLAYER_WIDTH PLAYER_HEIGHT PLAYER_SPEED.
Proof. repeat split. Qed.

(** The value of a positive float with a negative exponent, cleared of
    its power of two. *)
Lemma B2R_scaled (m : positive) (k : Z) :
  0 <= k -> (B2R (S754_finite false m (- k)) * IZR (2 ^ k) = IZR (Zpos m))%R.
Proof.
  intros Hk. cbn [B2R]. rewrite IZR_pow2 by assumption.
  rewrite !Rmult_assoc, (Rmult_comm (bpow (- k))), bpow_opp. ring.
Qed.

Lemma B2R_int (m : positive) (k q : Z) :
  0 <= k -> Zpos m = q * 2 ^ k -> B2R (S754_finite false m (- k)) = IZR q.
Proof.
  intros Hk H. pose proof (B2R_scaled m k Hk) as Hs.
  rewrite H, mult_IZR in Hs.
  assert (0 < IZR (2 ^ k))%R by (apply IZR_lt, Z.pow_pos_nonneg; lia).
  nra.
Qed.

Lemma B2R_f1 : B2R f1 = 1%R.
Proof. apply (B2R_int _ 23 1); [lia|reflexivity]. Qed.

Lemma B2R_f20 : B2R f20 = 20%R.
Proof. apply (B2R_int _ 19 20); [lia|reflexivity]. Qed.

Lemma B2R_40 : B2R OBSTACLE_MIN_WIDTH = 40%R.
Proof. apply (B2R_int _ 18 40); [lia|reflexivity]. Qed.

Lemma B2R_100 : B2R (of_int 100) = 100%R.
Proof. apply (B2R_int _ 17 100); [lia|reflexivity]. Qed.

Lemma B2R_140 : B2R OBSTACLE_MAX_WIDTH = 140%R.
Proof. apply (B2R_int _ 16 140); [lia|reflexivity]. Qed.

Lemma B2R_200 : B2R OBSTACLE_BASE_SPEED = 200%R.
Proof. apply (B2R_int _ 16 200); [lia|reflexivity]. Qed.

Lemma B2R_760 : B2R (of_int 760) = 760%R.
Proof. apply (B2R_int _ 14 760); [lia|reflexivity]. Qed.

Lemma B2R_800 : B2R fWINDOW_WIDTH = 800%R.
Proof. apply (B2R_int _ 14 800); [lia|reflexivity]. Qed.

Lemma B2R_decay : (0 < B2R OBSTACLE_INTERVAL_DECAY <= 1)%R.
Proof.
  assert (H : (B2R OBSTACLE_INTERVAL_DECAY * 16777216 = 16525558)%R)
    by exact (B2R_scaled 16525558 24 ltac:(lia)).
  lra.
Qed.

Lemma B2R_increment : (0 < B2R OBSTACLE_SPEED_INCREMENT)%R.
Proof.
  assert (H : (B2R OBSTACLE_SPEED_INCREMENT * 536870912 = 16106127)%R)
    by exact (B2R_scaled 16106127 29 ltac:(lia)).
  lra.
Qed.

(** [0.05f] is just above 0.05; the float before it, times 20, is the
    float before 1. *)
Lemma B2R_f0_05 : (5 / 100 < B2R f0_05)%R.
Proof.
  assert (H : (B2R f0_05 * 268435456 = 13421773)%R)
    by exact (B2R_scaled 13421773 28 ltac:(lia)).
  lra.
Qed.

Lemma B2R_f0_05_pred : (B2R f0_05_pred * 20 = B2R f1_pred)%R.
Proof.
  assert (H : (B2R f0_05_pred * 268435456 = 13421772)%R)
    by exact (B2R_scaled 13421772 28 ltac:(lia)).
  assert (H' : (B2R f1_pred * 16777216 = 16777215)%R)
    by exact (B2R_scaled 16777215 24 ltac:(lia)).
  lra.
Qed.

Lemma B2R_f1_pred : (B2R f1_pred < 1)%R.
Proof.
  assert (H' : (B2R f1_pred * 16777216 = 16777215)%R)
    by exact (B2R_scaled 16777215 24 ltac:(lia)).
  lra.
Qed.

Lemma B2R_f2 : B2R f2 = 2%R.
Proof. apply (B2R_int _ 22 2); [lia|reflexivity]. Qed.

Lemma B2R_f0_1 : (B2R f0_1 * 134217728 = 13421773)%R.
Proof. exact (B2R_scaled 13421773 27 ltac:(lia)). Qed.

Lemma B2R_f0_05_scaled : (B2R f0_05 * 268435456 = 13421773)%R.
Proof. exact (B2R_scaled 13421773 28 ltac:(lia)). Qed.

Lemma B2R_f0_1_pred : (B2R f0_1_pred * 20 = B2R f2_pred)%R.
Proof.
  assert (H : (B2R f0_1_pred * 134217728 = 13421772)%R)
    by exact (B2R_scaled 13421772 27 ltac:(lia)).
  assert (H' : (B2R f2_pred * 8388608 = 16777215)%R)
    by exact (B2R_scaled 16777215 23 ltac:(lia)).
  lra.
Qed.

Lemma B2R_f2_pred : (B2R f2_pred < 2)%R.
Proof.
  assert (H' : (B2R f2_pred * 8388608 = 16777215)%R)
    by exact (B2R_scaled 16777215 23 ltac:(lia)).
  lra.
Qed.

Lemma B2R_f2_5 : (B2R f2_5 * 2 = 5)%R.
Proof.
  assert (H : (B2R f2_5 * 4194304 = 10485760)%R)
    by exact (B2R_scaled 10485760 22 ltac:(lia)).
  lra.
Qed.

Lemma nnf_not_nan a : nnf a -> is_nan a = false.
Proof. destruct a as [?|?| |[|] ? ?]; try contradiction; reflexivity. Qed.

End Constants.

Section Monotone.

Lemma nnf_pos_finite c :
  nnf c -> (0 < B2R c)%R -> exists m e, c = S754_finite false m e.
Proof.
  destruct c as [?|?| |[|] m e]; try contradiction; intros _ H.
  - simpl in H; lra.
  - eauto.
Qed.

Lemma fle_inf_nnf a : nnf a -> fle (S754_infinity false) a = false.
Proof. destruct a as [?|?| |[|] ? ?]; try contradiction; reflexivity. Qed.

(** Either both are finite and ordered by value, or the larger one is
    +infinity. *)
Lemma fle_nni_cases a a' :
  nni a -> nni a' -> fle a a' = true ->
  a' = S754_infinity false \/ (nnf a /\ nnf a' /\ (B2R a <= B2R a')%R).
Proof.
  intros Ha [Ha'| ->] H; [|left; reflexivity]. right.
  destruct Ha as [Ha| ->].
  - repeat split; try assumption. apply fle_nnf; assumption.
  - rewrite fle_inf_nnf in H by assumption. discriminate.
Qed.

Lemma fmul_mono_r c a a' :
  nnf c -> (0 < B2R c)%R -> nni a -> nni a' -> fle a a' = true ->
  nni (fmul c a) /\ nni (fmul c a') /\ fle (fmul c a) (fmul c a') = true.
Proof.
  intros Hc Hpos Ha Ha' Hle.
  destruct (nnf_pos_finite c Hc Hpos) as (m & e & ->).
  assert (Hn : forall b, nni b -> nni (fmul (S754_finite false m e) b)).
  { intros b [Hb| ->]; [|right; reflexivity].
    apply (RND_nni _ _ (fmul_RND _ _ Hc Hb)). }
  destruct (fle_nni_cases a a' Ha Ha' Hle) as [-> | (Hna & Hna' & Hv)].
  - repeat split; [apply Hn; assumption|right; reflexivity|].
    apply (fle_nni_inf (fmul (S754_finite false m e) a)), Hn; assumption.
  - repeat split; [apply Hn; assumption|apply Hn; assumption|].
    apply (RND_mono _ _ _ _ (fmul_RND _ _ Hc Hna) (fmul_RND _ _ Hc Hna')). nra.
Qed.

Lemma fmul_mono_l c a a' :
  nnf c -> (0 < B2R c)%R -> nni a -> nni a' -> fle a a' = true ->
  nni (fmul a c) /\ nni (fmul a' c) /\ fle (fmul a c) (fmul a' c) = true.
Proof.
  intros Hc Hpos Ha Ha' Hle.
  destruct (nnf_pos_finite c Hc Hpos) as (m & e & ->).
  assert (Hn : forall b, nni b -> nni (fmul b (S754_finite false m e))).
  { intros b [Hb| ->]; [|right; reflexivity].
    apply (RND_nni _ _ (fmul_RND _ _ Hb Hc)). }
  destruct (fle_nni_cases a a' Ha Ha' Hle) as [-> | (Hna & Hna' & Hv)].
  - repeat split; [apply Hn; assumption|right; reflexivity|].
    apply (fle_nni_inf (fmul a (S754_finite false m e))), Hn; assumption.
  - repeat split; [apply Hn; assumption|apply Hn; assumption|].
    apply (RND_mono _ _ _ _ (fmul_RND _ _ Hna Hc) (fmul_RND _ _ Hna' Hc)). nra.
Qed.

Lemma fadd_mono_r c a a' :
  nnf c -> nni a -> nni a' -> fle a a' = true ->
  nni (fadd c a) /\ nni (fadd c a') /\ fle (fadd c a) (fadd c a') = true.
Proof.
  intros Hc Ha Ha' Hle.
  assert (Hinf : fadd c (S754_infinity false) = S754_infinity false)
    by (destruct c as [?|?| |[|] ? ?]; try contradiction; reflexivity).
  assert (Hn : forall b, nni b -> nni (fadd c b)).
  { intros b [Hb| ->]; [|right; assumption].
    apply (RND_nni _ _ (fadd_RND _ _ Hc Hb)). }
  destruct (fle_nni_cases a a' Ha Ha' Hle) as [-> | (Hna & Hna' & Hv)].
  - repeat split; [apply Hn; assumption|right; assumption|].
    rewrite Hinf. apply fle_nni_inf, Hn; assumption.
  - repeat split; [apply Hn; assumption|apply Hn; assumption|].
    apply (RND_mono _ _ _ _ (fadd_RND _ _ Hc Hna) (fadd_RND _ _ Hc Hna')). lra.
Qed.

End Monotone.

Section RoundingError.

Lemma rne_error_up m l y :
  inbetween m l y -> (IZR (round_nearest_even m l) <= y + / 2)%R.
Proof.
  destruct l as [|[ | | ]]; cbn [inbetween round_nearest_even]; intros H;
    try rewrite plus_IZR; try lra.
  destruct (Z.even m); [|rewrite plus_IZR]; lra.
Qed.

(** On a tie, or below it, rounding to nearest-even stays at an even
    integer. *)
Lemma rne_tie m l y K :
  inbetween m l y -> (y <= IZR K + / 2)%R -> Z.even K = true ->
  round_nearest_even m l <= K.
Proof.
  intros H Hy Hev. pose proof (inbetween_bounds _ _ _ H) as [Hb0 Hb1].
  pose proof (rne_bounds m l) as Hr.
  assert (Hm : m <= K).
  { assert (IZR m < IZR (K + 1))%R by (rewrite plus_IZR; lra).
    apply lt_IZR in H0. lia. }
  destruct (Z.eq_dec m K) as [->|Hne]; [|lia].
  destruct l as [|[ | | ]]; cbn [inbetween round_nearest_even] in *; try lia; try lra.
  change (IntDef.Z.even K) with (Z.even K). rewrite Hev. lia.
Qed.

Lemma RND_at x r fe :
  RND x r -> is_cexp x fe ->
  exists m l,
    0 <= m /\ inbetween m l (x * bpow (- fe))%R /\
    ((nnf r /\ B2R r = (IZR (round_nearest_even m l) * bpow fe)%R) \/
     (r = S754_infinity false /\
      (bpow 128 <= IZR (round_nearest_even m l) * bpow fe)%R)).
Proof.
  intros Hr Hc. apply RND_inv in Hr as (fe' & m & l & Hc' & Hm & Hin & Hres).
  rewrite (is_cexp_unique _ _ _ Hc Hc'). exists m, l. auto.
Qed.

(** The error of a rounding is at most half a unit in the last place. *)
Lemma RND_error_up x r fe :
  RND x r -> is_cexp x fe -> nnf r -> (B2R r <= x + / 2 * bpow fe)%R.
Proof.
  intros Hr Hc Hn.
  destruct (RND_at _ _ _ Hr Hc) as (m & l & Hm & Hin & [[_ Hv]|[-> _]]);
    [|contradiction].
  rewrite Hv. pose proof (rne_error_up _ _ _ Hin) as He.
  pose proof (bpow_pos fe) as Hp.
  rewrite (unscale x fe) at 1.
  replace (x * bpow (- fe) * bpow fe + / 2 * bpow fe)%R
    with ((x * bpow (- fe) + / 2) * bpow fe)%R by ring.
  apply Rmult_le_compat_r; lra.
Qed.

(** A real at most half a unit above a float with an even significand
    rounds to that float or below. *)
Lemma RND_le_tie x r (M : positive) (E : Z) :
  RND x r -> bounded prec emax M E = true -> Z.even (Zpos M) = true ->
  (x <= (IZR (Zpos M) + / 2) * bpow E)%R ->
  nnf r /\ (B2R r <= B2R (S754_finite false M E))%R.
Proof.
  intros Hr Hb Hev Hx.
  pose proof (bounded_inv _ _ Hb) as (HE & HM & HMn).
  pose proof (B2R_finite_bounds _ _ Hb) as [[Hc0 Hc1] Hc2].
  pose proof Hr as Hr0.
  apply RND_inv in Hr as (fe & m & l & Hce & Hm & Hin & Hres).
  pose proof (is_cexp_bounds _ _ Hce) as (Hfe & [Hx0 Hx1] & Hx2).
  pose proof (bpow_pos E) as HpE. pose proof (bpow_pos (- E)) as HpnE.
  destruct (Z.lt_trichotomy fe E) as [Hlt|[Heq|Hgt]].
  - apply (RND_le x r (S754_finite false M E) Hr0 Hb).
    assert (bpow (fe + 24) <= bpow (E + 23))%R by (apply bpow_le; lia).
    assert (bpow (E + 23) <= B2R (S754_finite false M E))%R by (apply Hc2; lia).
    lra.
  - subst fe. cbv zeta in Hres.
    assert (Hm1 : round_nearest_even m l <= Zpos M).
    { apply (rne_tie m l (x * bpow (- E))%R); try assumption.
      replace (IZR (Zpos M) + / 2)%R
        with ((IZR (Zpos M) + / 2) * (bpow E * bpow (- E)))%R
        by (rewrite bpow_opp; ring).
      rewrite <- Rmult_assoc. apply Rmult_le_compat_r; lra. }
    apply IZR_le in Hm1.
    pose proof (nnf_lt_bpow128 (S754_finite false M E) Hb) as H128.
    cbn [B2R] in *.
    destruct Hres as [[Hn Hv]|[-> Hv]]; [split; [assumption|]|]; nra.
  - assert (bpow (E + 24) <= bpow (fe + 23))%R by (apply bpow_le; lia).
    assert (bpow (fe + 23) <= x)%R by (apply Hx2; lia).
    assert (IZR (Zpos M) + 1 <= bpow 24)%R.
    { rewrite <- plus_IZR, bpow_IZR by lia. apply IZR_le. lia. }
    rewrite (bpow_add E 24) in H. nra.
Qed.

End RoundingError.

(** * The collision test *)

Section Collision.

(** C1, as the code has it.  The four comparisons of [rects_intersect]
    are strict, so the test answers "intersecting" as soon as neither
    rectangle lies strictly beyond the other on an axis; rectangles that
    only share an edge (equality in one of the hypotheses) are among
    them. *)
Theorem rects_intersect_closed x1 y1 w1 h1 x2 y2 w2 h2 :
  fle x1 (fadd x2 w2) = true ->
  fle x2 (fadd x1 w1) = true ->
  fle y1 (fadd y2 h2) = true ->
  fle y2 (fadd y1 h1) = true ->
  rects_intersect x1 y1 w1 h1 x2 y2 w2 h2 = true.
Proof.
  intros Hx1 Hx2 Hy1 Hy2. unfold rects_intersect.
  rewrite (fle_true_fgt_false _ _ Hx1), (fle_true_fgt_false _ _ Hy1).
  apply fle_true_fgt_false in Hx2, Hy2. unfold fgt in Hx2, Hy2. unfold flt.
  rewrite Hx2, Hy2. reflexivity.
Qed.

(** The player's left edge on the right edge of an obstacle
    ([player.x == obstacle.x + obstacle.w]), the vertical extents
    overlapping. *)
Lemma rects_intersect_closed_witness :
  rects_intersect (of_int 150) (of_int 540) PLAYER_WIDTH PLAYER_HEIGHT
                  (of_int 100) (of_int 530) (of_int 50) OBSTACLE_HEIGHT = true.
Proof.
  apply rects_intersect_closed; vm_compute; reflexivity.
Defined.

(** C1, refuted as stated: two placements whose edges touch exactly,
    [player.x == obstacle.x + obstacle.w] in the first and
    [player.y + player.h == obstacle.y] in the second, and the test
    answers "intersecting" for both. *)
Lemma touching_edges_intersect :
  (SFeqb (of_int 150) (fadd (of_int 100) (of_int 50)) = true /\
   rects_intersect (of_int 150) (of_int 540) PLAYER_WIDTH PLAYER_HEIGHT
                   (of_int 100) (of_int 530) (of_int 50) OBSTACLE_HEIGHT = true) /\
  (SFeqb (fadd (of_int 540) PLAYER_HEIGHT) (of_int 560) = true /\
   rects_intersect (of_int 360) (of_int 540) PLAYER_WIDTH PLAYER_HEIGHT
                   (of_int 380) (of_int 560) (of_int 50) OBSTACLE_HEIGHT = true).
Proof. vm_compute. repeat split. Qed.

End Collision.

(** * The state machine of the key handler *)

Section StateMachine.

Lemma reset_obstacles_inactive obs :
  Forall (fun o => o_active o = 0) (reset_obstacles obs).
Proof. unfold reset_obstacles. induction obs; simpl; constructor; auto. Qed.

Lemma reset_gameplay_fresh ticks g : fresh_run ticks (reset_gameplay ticks g).
Proof.
  unfold fresh_run; cbn. repeat split. apply reset_obstacles_inactive.
Qed.

(** C2.  The state after a key press is the one the transition table
    gives; a confirm in MENU or GAME_OVER starts a freshly reset run; a
    pause in PLAYING or PAUSED changes the state and nothing else; every
    key that is neither a confirm nor a pause, and every confirm or pause
    outside these states, leaves the state as it is, and confirm in
    PLAYING or PAUSED and pause in MENU or GAME_OVER change nothing at
    all. *)
Theorem handle_key_down_fsm (ticks : Z) (g : Game) (key : SDL_Keycode) :
  let g' := handle_key_down ticks g key in
  state g' = fsm_next (state g) (intent_of key) /\
  (intent_of key = confirm ->
     (state g = GAME_STATE_MENU \/ state g = GAME_STATE_GAME_OVER ->
        state g' = GAME_STATE_PLAYING /\ fresh_run ticks g' /\
        highScore g' = highScore g) /\
     (state g = GAME_STATE_PLAYING \/ state g = GAME_STATE_PAUSED -> g' = g)) /\
  (intent_of key = pause ->
     (state g = GAME_STATE_PLAYING -> g' = set_state GAME_STATE_PAUSED g) /\
     (state g = GAME_STATE_PAUSED -> g' = set_state GAME_STATE_PLAYING g) /\
     (state g = GAME_STATE_MENU \/ state g = GAME_STATE_GAME_OVER -> g' = g)) /\
  (intent_of key = other_intent -> state g' = state g) /\
  (state g' <> state g ->
     (intent_of key = confirm /\
      (state g = GAME_STATE_MENU \/ state g = GAME_STATE_GAME_OVER) /\
      state g' = GAME_STATE_PLAYING) \/
     (intent_of key = pause /\
      ((state g = GAME_STATE_PLAYING /\ state g' = GAME_STATE_PAUSED) \/
       (state g = GAME_STATE_PAUSED /\ state g' = GAME_STATE_PLAYING)))).
Proof.
  cbv zeta. destruct g as [run st pl obs sc hi el last iv lp rp].
  destruct key, st; cbn;
    repeat match goal with
           | |- _ /\ _ => split
           | |- _ -> _ => intro
           | H : _ \/ _ |- _ => destruct H
           end;
    try discriminate; try congruence; try reflexivity;
    try (unfold fresh_run; cbn; repeat split; exact (reset_obstacles_inactive obs));
    try (left; repeat split; auto; fail);
    try (right; split; [reflexivity|]; auto; fail).
Qed.

(** Scenario 1: confirm in MENU. *)
Lemma handle_key_down_fsm_witness :
  let g := set_state GAME_STATE_MENU game_about_to_crash in
  state (handle_key_down 7 g SDLK_RETURN) = GAME_STATE_PLAYING /\
  fresh_run 7 (handle_key_down 7 g SDLK_RETURN) /\
  handle_key_down 7 (handle_key_down 7 g SDLK_RETURN) SDLK_RETURN
    = handle_key_down 7 g SDLK_RETURN.
Proof.
  cbv zeta.
  destruct (handle_key_down_fsm 7 (set_state GAME_STATE_MENU game_about_to_crash)
              SDLK_RETURN) as (_ & Hc & _).
  destruct (Hc eq_refl) as [Hstart _].
  destruct (Hstart (or_introl eq_refl)) as (Hst & Hfresh & _).
  split; [exact Hst|]. split; [exact Hfresh|].
  destruct (handle_key_down_fsm 7
              (handle_key_down 7 (set_state GAME_STATE_MENU game_about_to_crash)
                 SDLK_RETURN) SDLK_RETURN) as (_ & Hc2 & _).
  destruct (Hc2 eq_refl) as [_ Hnoop].
  apply Hnoop. left. exact Hst.
Defined.

End StateMachine.

(** * The obstacle pool and the tick *)

Section Wrap.

Lemma wrap_int_id z : is_int z -> wrap_int z = z.
Proof.
  unfold is_int, wrap_int, F32.INT_MIN, F32.INT_MAX. intros H.
  rewrite Z.mod_small; lia.
Qed.

Lemma wrap_int_add_l a b : wrap_int (wrap_int a + b) = wrap_int (a + b).
Proof.
  unfold wrap_int.
  replace ((a + 2 ^ 31) mod 2 ^ 32 - 2 ^ 31 + b + 2 ^ 31)
    with ((a + 2 ^ 31) mod 2 ^ 32 + b) by lia.
  rewrite Zplus_mod_idemp_l. f_equal. f_equal. lia.
Qed.

Lemma wrap_int_range z : is_int (wrap_int z).
Proof.
  unfold is_int, wrap_int, F32.INT_MIN, F32.INT_MAX.
  pose proof (Z.mod_pos_bound (z + 2 ^ 31) (2 ^ 32) ltac:(lia)). lia.
Qed.

End Wrap.

Section Pool.

Lemma find_free_slot_none obs : forall i,
  Forall (fun o => o_active o <> 0) obs -> find_free_slot obs i = None.
Proof.
  induction obs as [|o rest IH]; intros i H; [reflexivity|].
  inversion H as [|? ? Ho Hrest]; subst. cbn [find_free_slot].
  unfold is_free. destruct (Z.eqb_spec (o_active o) 0) as [E|_]; [contradiction|].
  apply IH; assumption.
Qed.

Lemma find_free_slot_some obs : forall i idx,
  find_free_slot obs i = Some idx ->
  (i <= idx)%nat /\
  exists o, obs !! (idx - i)%nat = Some o /\ o_active o = 0 /\
    forall j o', (j < idx - i)%nat -> obs !! j = Some o' -> o_active o' <> 0.
Proof.
  induction obs as [|o rest IH]; intros i idx H; [discriminate|].
  cbn [find_free_slot] in H. unfold is_free in H.
  destruct (Z.eqb_spec (o_active o) 0) as [E|E].
  - injection H as <-. split; [lia|]. exists o. rewrite Nat.sub_diag.
    repeat split; [assumption|]. intros j o' Hj; lia.
  - apply IH in H as (Hle & o1 & Hl & Ha & Hbefore). split; [lia|].
    exists o1. replace (idx - i)%nat with (S (idx - S i)) by lia.
    repeat split; try assumption.
    intros [|j] o' Hj Ho'; cbn in Ho'.
    + injection Ho' as <-. assumption.
    + apply (Hbefore j); [lia|assumption].
Qed.

(** C5.  With every slot of the pool active (the 64 of the game, or any
    other number) [spawn_obstacle] returns the game it was given: no slot,
    interval or time stamp changes, and it has no failure to report. *)
Theorem spawn_obstacle_full_pool (RAND_MAX : Z) (env : TickEnv) (g : Game) :
  Forall (fun o => o_active o <> 0) (obstacles g) ->
  spawn_obstacle RAND_MAX env g = g.
Proof.
  intros H. unfold spawn_obstacle.
  rewrite (find_free_slot_none (obstacles g) 0%nat H). reflexivity.
Qed.

End Pool.

(** Scenario 3: the pool at capacity. *)
Lemma spawn_obstacle_full_pool_witness :
  length (obstacles full_pool_game) = MAX_OBSTACLES /\
  spawn_obstacle RAND_MAX_glibc quiet_env full_pool_game = full_pool_game.
Proof.
  split; [reflexivity|].
  apply spawn_obstacle_full_pool.
  unfold full_pool_game; cbn [obstacles repeat].
  repeat (constructor; [discriminate|]). constructor.
Defined.

Section ObstacleLoop.

(** The score after the loop of [update_obstacles]: ten points for each
    obstacle that left. *)
Lemma update_obstacles_loop_score dt obs : forall sc,
  is_int sc ->
  snd (update_obstacles_loop dt obs sc) = wrap_int (sc + 10 * exits dt obs).
Proof.
  induction obs as [|o rest IH]; intros sc Hsc.
  - cbn [update_obstacles_loop snd exits]. rewrite Z.add_0_r.
    symmetry; apply wrap_int_id; assumption.
  - cbn [update_obstacles_loop exits]. unfold update_obstacle, leaves.
    destruct (is_free o); cbn [negb andb].
    + specialize (IH sc Hsc).
      destruct (update_obstacles_loop dt rest sc) as [rest' sc2].
      cbn [snd] in *. rewrite IH. f_equal.
    + destruct (fgt _ fWINDOW_HEIGHT).
      * specialize (IH (wrap_int (sc + 10)) (wrap_int_range _)).
        destruct (update_obstacles_loop dt rest (wrap_int (sc + 10))) as [rest' sc2].
        cbn [snd] in *. rewrite IH, wrap_int_add_l. f_equal. lia.
      * specialize (IH sc Hsc).
        destruct (update_obstacles_loop dt rest sc) as [rest' sc2].
        cbn [snd] in *. rewrite IH. f_equal.
Qed.

End ObstacleLoop.

Section TickFields.

Variable RAND_MAX : Z.

Lemma update_obstacles_frame dt g :
  state (update_obstacles dt g) = state g /\
  player (update_obstacles dt g) = player g /\
  highScore (update_obstacles dt g) = highScore g /\
  elapsedTime (update_obstacles dt g) = elapsedTime g /\
  lastSpawnTicks (update_obstacles dt g) = lastSpawnTicks g /\
  spawnIntervalMs (update_obstacles dt g) = spawnIntervalMs g /\
  obstacles (update_obstacles dt g)
    = fst (update_obstacles_loop dt (obstacles g) (score g)) /\
  score (update_obstacles dt g)
    = snd (update_obstacles_loop dt (obstacles g) (score g)).
Proof.
  unfold update_obstacles.
  destruct (update_obstacles_loop dt (obstacles g) (score g)) as [obs sc].
  cbn. repeat split.
Qed.

Lemma spawn_obstacle_frame env g :
  state (spawn_obstacle RAND_MAX env g) = state g /\
  player (spawn_obstacle RAND_MAX env g) = player g /\
  score (spawn_obstacle RAND_MAX env g) = score g /\
  highScore (spawn_obstacle RAND_MAX env g) = highScore g /\
  elapsedTime (spawn_obstacle RAND_MAX env g) = elapsedTime g.
Proof.
  unfold spawn_obstacle. destruct (find_free_slot (obstacles g) 0); cbn; repeat split.
Qed.

(** What [update_game] has done to the scalar fields when it reaches the
    collision check. *)
Lemma advance_frame env dt g :
  is_int (score g) ->
  state (advance RAND_MAX env dt g) = state g /\
  highScore (advance RAND_MAX env dt g) = highScore g /\
  score (advance RAND_MAX env dt g)
    = wrap_int (score g + time_points dt + 10 * exits dt (obstacles g)) /\
  elapsedTime (advance RAND_MAX env dt g) = fadd (elapsedTime g) dt.
Proof.
  intros Hsc. unfold advance.
  set (g1 := update_player dt (add_time dt g)).
  pose proof (update_obstacles_frame dt g1) as (Hst & Hpl & Hhi & Hel & _ & _ & _ & Hs).
  assert (Hs' : score (update_obstacles dt g1)
                = wrap_int (score g + time_points dt + 10 * exits dt (obstacles g))).
  { rewrite Hs. subst g1. cbn [update_player add_time score obstacles].
    rewrite update_obstacles_loop_score by apply wrap_int_range.
    rewrite wrap_int_add_l. reflexivity. }
  destruct (spawn_due env (update_obstacles dt g1)).
  - pose proof (spawn_obstacle_frame env (update_obstacles dt g1))
      as (Hst2 & _ & Hs2 & Hhi2 & Hel2).
    rewrite Hst2, Hs2, Hhi2, Hel2, Hst, Hhi, Hel, Hs'. subst g1. cbn. repeat split.
  - rewrite Hst, Hhi, Hel, Hs'. subst g1. cbn. repeat split.
Qed.

(** C3.  In the tick whose collision check finds a hit, the state becomes
    GAME_OVER; the high score becomes the score exactly when the score is
    strictly above it, and then [save_high_score] has been called once
    more, with the new high score; with a score not above the stored high
    score, the high score and the disk are as they were. *)
Theorem update_game_collision (env : TickEnv) (dt : float) (g : Game) (d : Disk) :
  state g = GAME_STATE_PLAYING ->
  check_collisions (advance RAND_MAX env dt g) = true ->
  let sc := score (advance RAND_MAX env dt g) in
  let g' := fst (update_game RAND_MAX env dt (g, d)) in
  let d' := snd (update_game RAND_MAX env dt (g, d)) in
  state g' = GAME_STATE_GAME_OVER /\
  score g' = sc /\
  highScore g' = Z.max (highScore g) sc /\
  (highScore g < sc ->
     highScore g' = sc /\
     saves d' = saves d ++ [sc] /\
     d' = save_high_score (fopen_ok env) (fwrite_ok env) (fclose_ok env)
                          d sc) /\
  (sc <= highScore g -> highScore g' = highScore g /\ d' = d).
Proof.
  intros Hst Hhit. cbv zeta. unfold update_game.
  rewrite Hst. cbn [GameState_eqb negb]. rewrite Hhit.
  assert (Hhi : highScore (advance RAND_MAX env dt g) = highScore g).
  { unfold advance.
    set (g1 := update_player dt (add_time dt g)).
    pose proof (update_obstacles_frame dt g1) as (_ & _ & Hhi & _).
    destruct (spawn_due env (update_obstacles dt g1));
      [pose proof (spawn_obstacle_frame env (update_obstacles dt g1)) as (_ & _ & _ & Hhi2 & _);
       rewrite Hhi2|]; rewrite Hhi; reflexivity. }
  set (a := advance RAND_MAX env dt g) in *.
  cbn [set_state highScore score]. rewrite Hhi.
  destruct (Z.ltb_spec (highScore g) (score a)) as [Hlt|Hge]; cbn.
  - repeat split; intros; try reflexivity; lia.
  - rewrite ?Hhi. repeat split; intros; try reflexivity; lia.
Qed.

End TickFields.

(** Scenario 5: an obstacle over the player, a score above the stored
    high score. *)
Lemma update_game_collision_witness :
  let g := game_about_to_crash in
  let d := mkDisk (Some 50) [] in
  let sc := score (advance RAND_MAX_glibc quiet_env f0_1 g) in
  let g' := fst (update_game RAND_MAX_glibc quiet_env f0_1 (g, d)) in
  let d' := snd (update_game RAND_MAX_glibc quiet_env f0_1 (g, d)) in
  state g' = GAME_STATE_GAME_OVER /\
  score g' = sc /\
  highScore g' = Z.max (highScore g) sc /\
  (highScore g < sc ->
     highScore g' = sc /\
     saves d' = saves d ++ [sc] /\
     d' = save_high_score (fopen_ok quiet_env) (fwrite_ok quiet_env)
                          (fclose_ok quiet_env) d sc) /\
  (sc <= highScore g -> highScore g' = highScore g /\ d' = d).
Proof.
  apply (update_game_collision RAND_MAX_glibc quiet_env f0_1 game_about_to_crash);
    vm_compute; reflexivity.
Defined.

Example crash_saves_102 :
  update_game RAND_MAX_glibc quiet_env f0_1 (game_about_to_crash, mkDisk (Some 50) [])
  = (set_highScore 102
       (set_state GAME_STATE_GAME_OVER
          (advance RAND_MAX_glibc quiet_env f0_1 game_about_to_crash)),
     mkDisk (Some 102) [102]).
Proof. vm_compute. reflexivity. Qed.

(** * The player *)

Section PlayerBounds.

Lemma between_finite v lo hi :
  is_finite lo = true -> is_finite hi = true ->
  fle lo v = true -> fle v hi = true -> is_finite v = true.
Proof.
  destruct v as [s|[|]| |s m e]; try reflexivity; intros Hlo Hhi H1 H2;
    destruct lo as [?|?| |[|] ? ?], hi as [?|?| |[|] ? ?];
    cbn in Hlo, Hhi, H1, H2; congruence.
Qed.

(** The step of the player, [dir * speed], for the four combinations of
    the two keys. *)
Lemma direction_speed_finite left right :
  is_finite (fmul (direction left right) PLAYER_SPEED) = true.
Proof.
  unfold direction.
  destruct (left =? 0), (right =? 0); vm_compute; reflexivity.
Qed.

Lemma update_player_bounds (dt : float) (g : Game) :
  player_ok (player g) -> is_finite dt = true ->
  fle f0 (p_x (player (update_player dt g))) = true /\
  fle (p_x (player (update_player dt g))) PLAYER_MAX_X = true /\
  player_ok (player (update_player dt g)).
Proof.
  intros (Hw & Hs & Hx) Hdt.
  cbn [update_player player p_x p_w p_speed]. unfold update_player_x.
  rewrite Hw, Hs. fold PLAYER_MAX_X.
  set (v := fadd (p_x (player g))
                 (fmul (fmul (direction (leftPressed g) (rightPressed g)) PLAYER_SPEED) dt)).
  assert (Hv : is_nan v = false).
  { apply fadd_not_nan; [assumption|].
    apply fmul_not_nan; [apply direction_speed_finite|assumption]. }
  destruct (clampf_range v f0 PLAYER_MAX_X Hv) as [Hlo Hhi]; try reflexivity.
  repeat split; try assumption.
  apply (between_finite _ f0 PLAYER_MAX_X); try assumption; reflexivity.
Qed.

(** C4.  After [update_player] the player's [x] is in
    [[0, screenWidth - playerWidth]], whatever the finite time step and
    whichever keys are held, and the player is again as the next tick
    needs it; in particular, at [x = 0] with the left key held, one second
    at speed 500 leaves [x] at 0. *)
Theorem update_player_in_bounds (dt : float) (g : Game) :
  player_ok (player g) ->
  is_finite dt = true ->
  let p' := player (update_player dt g) in
  fle f0 (p_x p') = true /\
  fle (p_x p') PLAYER_MAX_X = true /\
  PLAYER_MAX_X = of_int 720 /\
  player_ok p' /\
  update_player_x 1 0 (mkPlayer f0 (p_y (player g)) PLAYER_WIDTH PLAYER_HEIGHT PLAYER_SPEED) f1
    = f0.
Proof.
  intros Hok Hdt. cbv zeta.
  destruct (update_player_bounds dt g Hok Hdt) as (Hlo & Hhi & Hok').
  repeat split; try assumption; try apply Hok'; reflexivity.
Qed.

Lemma init_player_ok : player_ok init_player.
Proof. repeat split. Qed.

(** The same through a whole tick: nothing after [update_player] writes
    the player. *)
Lemma update_game_player_in_bounds RAND_MAX env dt g d :
  state g = GAME_STATE_PLAYING ->
  player_ok (player g) -> is_finite dt = true ->
  let p' := player (fst (update_game RAND_MAX env dt (g, d))) in
  fle f0 (p_x p') = true /\ fle (p_x p') PLAYER_MAX_X = true /\ player_ok p'.
Proof.
  intros Hst Hok Hdt. cbv zeta.
  assert (Hp : player (fst (update_game RAND_MAX env dt (g, d)))
               = player (update_player dt g)).
  { unfold update_game. rewrite Hst. cbn [GameState_eqb negb].
    assert (Ha : player (advance RAND_MAX env dt g) = player (update_player dt g)).
    { unfold advance. set (g1 := update_player dt (add_time dt g)).
      pose proof (update_obstacles_frame dt g1) as (_ & Hpl & _).
      destruct (spawn_due env (update_obstacles dt g1));
        [pose proof (spawn_obstacle_frame RAND_MAX env (update_obstacles dt g1))
           as (_ & Hpl2 & _); rewrite Hpl2|];
        rewrite Hpl; reflexivity. }
    destruct (check_collisions (advance RAND_MAX env dt g)); [|exact Ha].
    cbn [set_state highScore score].
    destruct (highScore (advance RAND_MAX env dt g) <? score (advance RAND_MAX env dt g));
      exact Ha. }
  rewrite Hp.
  destruct (update_player_bounds dt g Hok Hdt) as (H1 & H2 & H3).
  auto.
Qed.

(** Scenario 4 of the specification. *)
Lemma update_player_in_bounds_witness :
  let g := mkGame 1 GAME_STATE_PLAYING
                  (mkPlayer f0 (of_int 540) PLAYER_WIDTH PLAYER_HEIGHT PLAYER_SPEED)
                  [] 0 0 f0 0 OBSTACLE_BASE_INTERVAL 1 0 in
  let p' := player (update_player f1 g) in
  fle f0 (p_x p') = true /\
  fle (p_x p') PLAYER_MAX_X = true /\
  PLAYER_MAX_X = of_int 720 /\
  player_ok p' /\
  update_player_x 1 0 (mkPlayer f0 (p_y (player g)) PLAYER_WIDTH PLAYER_HEIGHT PLAYER_SPEED) f1
    = f0.
Proof.
  apply update_player_in_bounds; [repeat split|reflexivity].
Defined.

End PlayerBounds.

(** * The spawn interval *)

Section Interval.

Variable RAND_MAX : Z.

(** One decay step keeps a non-negative interval between the floor and
    its previous value: the product by [0.985f] rounds to a float that is
    not above the interval, and the test against the floor does the rest. *)
Lemma decay_interval_bounds i :
  nnf i -> fle OBSTACLE_MIN_INTERVAL i = true ->
  nnf (decay_interval i) /\
  fle OBSTACLE_MIN_INTERVAL (decay_interval i) = true /\
  fle (decay_interval i) i = true.
Proof.
  intros Hi Hmin. unfold decay_interval.
  assert (Hc : nnf OBSTACLE_INTERVAL_DECAY) by reflexivity.
  pose proof (fmul_RND i OBSTACLE_INTERVAL_DECAY Hi Hc) as Hr.
  pose proof (nnf_nonneg i Hi) as Hi0. pose proof B2R_decay as Hd.
  destruct (RND_le _ _ i Hr Hi) as [Hn Hle]; [nra|].
  destruct (flt (fmul i OBSTACLE_INTERVAL_DECAY) OBSTACLE_MIN_INTERVAL) eqn:Hlt.
  - repeat split; try reflexivity; assumption.
  - split; [assumption|]. split; [|apply fle_nnf; assumption].
    apply flt_false_fle; [apply nnf_not_nan; assumption|reflexivity|assumption].
Qed.

Lemma advance_interval env dt g :
  spawnIntervalMs (advance RAND_MAX env dt g) = spawnIntervalMs g \/
  (find_free_slot (obstacles (update_obstacles dt (update_player dt (add_time dt g)))) 0 <> None /\
   spawnIntervalMs (advance RAND_MAX env dt g) = decay_interval (spawnIntervalMs g)).
Proof.
  unfold advance. set (g1 := update_player dt (add_time dt g)).
  pose proof (update_obstacles_frame dt g1) as (_ & _ & _ & _ & _ & Hiv & _).
  destruct (spawn_due env (update_obstacles dt g1)); [|left; rewrite Hiv; reflexivity].
  unfold spawn_obstacle.
  destruct (find_free_slot (obstacles (update_obstacles dt g1)) 0) eqn:E.
  - right. split; [discriminate|]. cbn [spawnIntervalMs]. rewrite Hiv. reflexivity.
  - left. rewrite Hiv. reflexivity.
Qed.

Lemma update_game_interval env dt g d :
  spawnIntervalMs (fst (update_game RAND_MAX env dt (g, d))) = spawnIntervalMs g \/
  spawnIntervalMs (fst (update_game RAND_MAX env dt (g, d)))
    = decay_interval (spawnIntervalMs g).
Proof.
  unfold update_game.
  destruct (negb (GameState_eqb (state g) GAME_STATE_PLAYING)); [left; reflexivity|].
  assert (H : spawnIntervalMs (advance RAND_MAX env dt g) = spawnIntervalMs g \/
              spawnIntervalMs (advance RAND_MAX env dt g)
                = decay_interval (spawnIntervalMs g))
    by (destruct (advance_interval env dt g) as [H|[_ H]]; auto).
  destruct (check_collisions (advance RAND_MAX env dt g)); [|exact H].
  cbn [set_state highScore score].
  destruct (highScore (advance RAND_MAX env dt g) <? score (advance RAND_MAX env dt g));
    exact H.
Qed.

Lemma update_game_interval_bounds env dt g d :
  nnf (spawnIntervalMs g) ->
  fle OBSTACLE_MIN_INTERVAL (spawnIntervalMs g) = true ->
  nnf (spawnIntervalMs (fst (update_game RAND_MAX env dt (g, d)))) /\
  fle OBSTACLE_MIN_INTERVAL (spawnIntervalMs (fst (update_game RAND_MAX env dt (g, d))))
    = true /\
  fle (spawnIntervalMs (fst (update_game RAND_MAX env dt (g, d)))) (spawnIntervalMs g)
    = true.
Proof.
  intros Hn Hmin.
  destruct (decay_interval_bounds _ Hn Hmin) as (Dn & Dmin & Dle).
  destruct (update_game_interval env dt g d) as [-> | ->];
    repeat split; try assumption.
  apply fle_refl, nnf_not_nan; assumption.
Qed.

(** Over any number of ticks the interval only goes down, and not below
    the floor. *)
Lemma run_ticks_interval dt envs : forall g d,
  nnf (spawnIntervalMs g) ->
  fle OBSTACLE_MIN_INTERVAL (spawnIntervalMs g) = true ->
  nnf (spawnIntervalMs (fst (run_ticks RAND_MAX dt envs (g, d)))) /\
  fle OBSTACLE_MIN_INTERVAL (spawnIntervalMs (fst (run_ticks RAND_MAX dt envs (g, d))))
    = true /\
  fle (spawnIntervalMs (fst (run_ticks RAND_MAX dt envs (g, d)))) (spawnIntervalMs g)
    = true.
Proof.
  induction envs as [|env envs IH]; intros g d Hn Hmin.
  - cbn. repeat split; try assumption. apply fle_refl, nnf_not_nan; assumption.
  - cbn [run_ticks fold_left].
    destruct (update_game_interval_bounds env dt g d Hn Hmin) as (Hn1 & Hmin1 & Hle1).
    destruct (update_game RAND_MAX env dt (g, d)) as [g1 d1]. cbn [fst] in *.
    destruct (IH g1 d1 Hn1 Hmin1) as (Hn2 & Hmin2 & Hle2).
    fold (run_ticks RAND_MAX dt envs (g1, d1)).
    repeat split; try assumption.
    apply fle_nnf; try assumption.
    apply fle_nnf in Hle1, Hle2; try assumption. lra.
Qed.

(** C6.  A run starts with the interval at 700 ms; a spawn that finds a
    free slot replaces the interval by its product with [0.985f], or by
    140 ms when the product is below that; so after every spawn, and after
    any number of ticks of the run, the interval is at least
    [OBSTACLE_MIN_INTERVAL] and at most what it was. *)
Theorem spawn_interval_monotone
        (env : TickEnv) (dt : float) (envs : list TickEnv) (g : Game) (d : Disk) :
  nnf (spawnIntervalMs g) ->
  fle OBSTACLE_MIN_INTERVAL (spawnIntervalMs g) = true ->
  let s := spawn_obstacle RAND_MAX env g in
  let g' := fst (run_ticks RAND_MAX dt envs (g, d)) in
  (find_free_slot (obstacles g) 0 <> None ->
     spawnIntervalMs s = decay_interval (spawnIntervalMs g)) /\
  nnf (spawnIntervalMs s) /\
  fle OBSTACLE_MIN_INTERVAL (spawnIntervalMs s) = true /\
  fle (spawnIntervalMs s) (spawnIntervalMs g) = true /\
  nnf (spawnIntervalMs g') /\
  fle OBSTACLE_MIN_INTERVAL (spawnIntervalMs g') = true /\
  fle (spawnIntervalMs g') (spawnIntervalMs g) = true /\
  (forall ticks g0, spawnIntervalMs (reset_gameplay ticks g0) = OBSTACLE_BASE_INTERVAL) /\
  nnf OBSTACLE_BASE_INTERVAL /\
  fle OBSTACLE_MIN_INTERVAL OBSTACLE_BASE_INTERVAL = true.
Proof.
  intros Hn Hmin. cbv zeta.
  destruct (decay_interval_bounds _ Hn Hmin) as (Dn & Dmin & Dle).
  assert (Hrefl : fle (spawnIntervalMs g) (spawnIntervalMs g) = true)
    by (apply fle_refl, nnf_not_nan; assumption).
  split; [|split; [|split; [|split]]].
  - unfold spawn_obstacle.
    destruct (find_free_slot (obstacles g) 0); [reflexivity|congruence].
  - unfold spawn_obstacle. destruct (find_free_slot (obstacles g) 0); assumption.
  - unfold spawn_obstacle. destruct (find_free_slot (obstacles g) 0); assumption.
  - unfold spawn_obstacle. destruct (find_free_slot (obstacles g) 0); assumption.
  - destruct (run_ticks_interval dt envs g d Hn Hmin) as (H1 & H2 & H3).
    repeat split; try assumption; reflexivity.
Qed.

End Interval.

Lemma spawn_interval_monotone_witness :
  let g := fresh_game in
  let s := spawn_obstacle RAND_MAX_glibc quiet_env g in
  let g' := fst (run_ticks RAND_MAX_glibc f0_1 spawning_envs (g, mkDisk None [])) in
  (find_free_slot (obstacles g) 0 <> None ->
     spawnIntervalMs s = decay_interval (spawnIntervalMs g)) /\
  nnf (spawnIntervalMs s) /\
  fle OBSTACLE_MIN_INTERVAL (spawnIntervalMs s) = true /\
  fle (spawnIntervalMs s) (spawnIntervalMs g) = true /\
  nnf (spawnIntervalMs g') /\
  fle OBSTACLE_MIN_INTERVAL (spawnIntervalMs g') = true /\
  fle (spawnIntervalMs g') (spawnIntervalMs g) = true /\
  (forall ticks g0, spawnIntervalMs (reset_gameplay ticks g0) = OBSTACLE_BASE_INTERVAL) /\
  nnf OBSTACLE_BASE_INTERVAL /\
  fle OBSTACLE_MIN_INTERVAL OBSTACLE_BASE_INTERVAL = true.
Proof.
  apply (spawn_interval_monotone RAND_MAX_glibc quiet_env f0_1 spawning_envs fresh_game);
    reflexivity.
Defined.

(** In that run four spawns fall due (at 700, 1400, 2100 and 2800 ms);
    they bring the interval from 700 ms to [700 * 0.985^4], rounded at
    each step; the 107th spawn of a run reaches the floor. *)
Example four_spawns :
  spawnIntervalMs (fst (run_ticks RAND_MAX_glibc f0_1 spawning_envs
                          (fresh_game, mkDisk None [])))
  = interval_after 4 /\
  interval_after 4 = S754_finite false 10796001 (-14) /\
  interval_after 107 = OBSTACLE_MIN_INTERVAL /\
  interval_after 108 = OBSTACLE_MIN_INTERVAL.
Proof. vm_compute. repeat split. Qed.

(** * The speed of an obstacle *)

Section Speed.

Variable RAND_MAX : Z.

(** The later the spawn, the faster the obstacle: each of the three
    rounded operations of the formula is monotone. *)
Lemma spawn_speed_mono e e' :
  nnf e -> nnf e' -> fle e e' = true ->
  fle (spawn_speed e) (spawn_speed e') = true.
Proof.
  intros He He' Hle. unfold spawn_speed.
  assert (Hinc : nnf OBSTACLE_SPEED_INCREMENT) by reflexivity.
  assert (Hbase : nnf OBSTACLE_BASE_SPEED) by reflexivity.
  assert (Hbpos : (0 < B2R OBSTACLE_BASE_SPEED)%R) by (rewrite B2R_200; lra).
  destruct (fmul_mono_r OBSTACLE_SPEED_INCREMENT e e' Hinc B2R_increment)
    as (H1 & H1' & L1); [left; assumption|left; assumption|assumption|].
  destruct (fmul_mono_l OBSTACLE_BASE_SPEED _ _ Hbase Hbpos H1 H1' L1)
    as (H2 & H2' & L2).
  destruct (fadd_mono_r OBSTACLE_BASE_SPEED _ _ Hbase H2 H2' L2) as (_ & _ & L3).
  exact L3.
Qed.

(** The loop of [update_obstacles] moves a slot down and may retire it;
    it writes nothing else. *)
Lemma update_obstacles_loop_lookup dt obs : forall sc i o,
  obs !! i = Some o ->
  exists o', fst (update_obstacles_loop dt obs sc) !! i = Some o' /\
    o_speed o' = o_speed o /\ o_x o' = o_x o /\ o_w o' = o_w o /\ o_h o' = o_h o /\
    o_active o' = (if leaves dt o then 0 else o_active o).
Proof.
  induction obs as [|o0 rest IH]; intros sc i o Hl; [discriminate|].
  cbn [update_obstacles_loop].
  destruct (update_obstacle dt o0 sc) as [o0' sc1] eqn:E0.
  specialize (IH sc1).
  destruct (update_obstacles_loop dt rest sc1) as [rest' sc2]. cbn [fst] in *.
  destruct i as [|i]; cbn in Hl |- *.
  - injection Hl as ->. exists o0'. split; [reflexivity|].
    unfold update_obstacle, leaves in *.
    destruct (is_free o) eqn:Hf; cbn [negb andb].
    + injection E0 as <- _. repeat split.
    + destruct (fgt _ fWINDOW_HEIGHT); injection E0 as <- _; repeat split.
  - apply IH; assumption.
Qed.

Lemma spawn_obstacle_keeps_active env g i o :
  obstacles g !! i = Some o -> o_active o <> 0 ->
  obstacles (spawn_obstacle RAND_MAX env g) !! i = Some o.
Proof.
  intros Hl Ha. unfold spawn_obstacle.
  destruct (find_free_slot (obstacles g) 0) as [idx|] eqn:E; [|assumption].
  cbn [obstacles].
  apply find_free_slot_some in E as (_ & o1 & Hl1 & Ha1 & _).
  rewrite Nat.sub_0_r in Hl1.
  rewrite list_lookup_insert_ne; [assumption|].
  intros ->. congruence.
Qed.

Lemma spawn_obstacle_new env g idx :
  find_free_slot (obstacles g) 0 = Some idx ->
  obstacles (spawn_obstacle RAND_MAX env g) !! idx
  = Some (new_obstacle RAND_MAX (rand_w env) (rand_x env) (elapsedTime g)).
Proof.
  intros E. unfold spawn_obstacle. rewrite E. cbn [obstacles].
  apply find_free_slot_some in E as (_ & o1 & Hl1 & _).
  rewrite Nat.sub_0_r in Hl1.
  apply list_lookup_insert_eq. apply lookup_lt_Some in Hl1. exact Hl1.
Qed.

Lemma update_game_keeps_slot env dt g d i o :
  obstacles g !! i = Some o -> o_active o <> 0 -> leaves dt o = false ->
  exists o', obstacles (fst (update_game RAND_MAX env dt (g, d))) !! i = Some o' /\
    o_speed o' = o_speed o /\ o_active o' = o_active o.
Proof.
  intros Hl Ha Hlv. unfold update_game.
  destruct (negb (GameState_eqb (state g) GAME_STATE_PLAYING)); [exists o; auto|].
  assert (H : exists o', obstacles (advance RAND_MAX env dt g) !! i = Some o' /\
                o_speed o' = o_speed o /\ o_active o' = o_active o).
  { unfold advance. set (g1 := update_player dt (add_time dt g)).
    pose proof (update_obstacles_frame dt g1) as (_ & _ & _ & _ & _ & _ & Hobs & _).
    destruct (update_obstacles_loop_lookup dt (obstacles g1) (score g1) i o Hl)
      as (o' & Hl' & Hs & _ & _ & _ & Hact).
    rewrite Hlv in Hact. rewrite <- Hobs in Hl'.
    exists o'. split; [|split; assumption].
    destruct (spawn_due env (update_obstacles dt g1)); [|assumption].
    apply spawn_obstacle_keeps_active; [assumption|congruence]. }
  destruct (check_collisions (advance RAND_MAX env dt g)); [|exact H].
  cbn [set_state highScore score].
  destruct (highScore (advance RAND_MAX env dt g) <? score (advance RAND_MAX env dt g));
    exact H.
Qed.

Lemma reset_obstacles_lookup obs : forall i o,
  obs !! i = Some o -> reset_obstacles obs !! i = Some (set_active 0 o).
Proof.
  induction obs as [|o0 rest IH]; intros [|i] o Hl; try discriminate; cbn in *.
  - injection Hl as ->. reflexivity.
  - apply IH, Hl.
Qed.

Lemma handle_key_down_keeps_speed ticks g key i o :
  obstacles g !! i = Some o ->
  exists o', obstacles (handle_key_down ticks g key) !! i = Some o' /\
    o_speed o' = o_speed o.
Proof.
  intros Hl.
  assert (Hr : exists o', reset_obstacles (obstacles g) !! i = Some o' /\
                 o_speed o' = o_speed o).
  { exists (set_active 0 o). split; [|reflexivity].
    apply reset_obstacles_lookup, Hl. }
  destruct key; cbn [handle_key_down];
    try (exists o; split; [exact Hl|reflexivity]).
  - destruct (_ || _); [exact Hr|exists o; auto].
  - destruct (_ || _); [exact Hr|exists o; auto].
  - destruct (GameState_eqb (state g) GAME_STATE_PLAYING); [exists o; auto|].
    destruct (GameState_eqb (state g) GAME_STATE_PAUSED); exists o; auto.
Qed.

(** C7.  [spawn_obstacle] writes the speed
    [BASE + (INCREMENT * elapsedTime) * BASE], the products and the sum
    rounded to single precision, with the elapsed time of that moment; the
    value does not decrease when the elapsed time grows; and a tick leaves
    the speed of an obstacle that stays active as it was, as every key
    press does. *)
Theorem obstacle_speed_fixed_at_spawn
        (env : TickEnv) (dt : float) (g : Game) (d : Disk) :
  (forall idx, find_free_slot (obstacles g) 0 = Some idx ->
     exists o', obstacles (spawn_obstacle RAND_MAX env g) !! idx = Some o' /\
       o_active o' = 1 /\
       o_speed o' = spawn_speed (elapsedTime g)) /\
  (forall e, spawn_speed e
     = fadd OBSTACLE_BASE_SPEED
            (fmul (fmul OBSTACLE_SPEED_INCREMENT e) OBSTACLE_BASE_SPEED)) /\
  B2R OBSTACLE_BASE_SPEED = 200%R /\
  OBSTACLE_SPEED_INCREMENT = literal 3 100 /\
  spawn_speed f0 = OBSTACLE_BASE_SPEED /\
  (forall e e', nnf e -> nnf e' -> fle e e' = true ->
     fle (spawn_speed e) (spawn_speed e') = true) /\
  (forall i o, obstacles g !! i = Some o -> o_active o <> 0 -> leaves dt o = false ->
     exists o', obstacles (fst (update_game RAND_MAX env dt (g, d))) !! i = Some o' /\
       o_speed o' = o_speed o /\ o_active o' = o_active o) /\
  (forall ticks key i o, obstacles g !! i = Some o ->
     exists o', obstacles (handle_key_down ticks g key) !! i = Some o' /\
       o_speed o' = o_speed o).
Proof.
  split; [|split; [|split; [|split; [|split; [|split; [|split]]]]]].
  - intros idx E. eexists. split; [apply spawn_obstacle_new, E|].
    split; reflexivity.
  - reflexivity.
  - exact B2R_200.
  - reflexivity.
  - reflexivity.
  - exact spawn_speed_mono.
  - intros i o. apply update_game_keeps_slot.
  - intros ticks key i o. apply handle_key_down_keeps_speed.
Qed.

End Speed.

(** A first spawn in a fresh run, and the next tick of the spawned
    obstacle. *)
Lemma obstacle_speed_fixed_at_spawn_witness :
  (exists o', obstacles (spawn_obstacle RAND_MAX_glibc quiet_env fresh_game) !! 0%nat
              = Some o' /\
     o_active o' = 1 /\ o_speed o' = spawn_speed (elapsedTime fresh_game)) /\
  fle (spawn_speed f1) (spawn_speed f20) = true /\
  (exists o', obstacles (fst (update_game RAND_MAX_glibc quiet_env f0_1
                               (game_about_to_crash, mkDisk None []))) !! 0%nat
              = Some o' /\
     o_speed o' = o_speed obstacle_on_player /\
     o_active o' = o_active obstacle_on_player).
Proof.
  destruct (obstacle_speed_fixed_at_spawn RAND_MAX_glibc quiet_env f0_1
              game_about_to_crash (mkDisk None []))
    as (_ & _ & _ & _ & _ & Hmono & Hkeep & _).
  destruct (obstacle_speed_fixed_at_spawn RAND_MAX_glibc quiet_env f0_1
              fresh_game (mkDisk None []))
    as (Hnew & _).
  split; [apply Hnew; reflexivity|].
  split; [apply Hmono; reflexivity|].
  apply Hkeep; [reflexivity|discriminate|reflexivity].
Defined.

(** * The obstacle a spawn creates *)

Section SpawnGeometry.

Variable RAND_MAX : Z.

(** [RAND_MAX] is a positive [int]; the C standard asks for at least
    32767. *)
Hypothesis RAND_MAX_int : 0 < RAND_MAX <= F32.INT_MAX.

Lemma of_int_small n :
  0 <= n <= F32.INT_MAX -> nnf (of_int n) /\ (B2R (of_int n) <= 2147483648)%R.
Proof.
  intros Hn. set (c := S754_finite false 8388608 8).
  assert (Hc : nnf c) by reflexivity.
  assert (HcR : B2R c = 2147483648%R).
  { unfold c; cbn [B2R]. rewrite (bpow_IZR 8) by lia. rewrite <- !mult_IZR.
    reflexivity. }
  rewrite <- HcR. apply (RND_le (IZR n)); [apply of_int_RND; lia|assumption|].
  rewrite HcR. unfold F32.INT_MAX in Hn. apply IZR_le. lia.
Qed.

(** [(float)rand() / (float)RAND_MAX] is a number of [[0, 1]]. *)
Lemma rand_unit r :
  0 <= r <= RAND_MAX ->
  nnf (fdiv (of_int r) (of_int RAND_MAX)) /\
  (B2R (fdiv (of_int r) (of_int RAND_MAX)) <= 1)%R.
Proof.
  intros Hr.
  destruct (of_int_small r ltac:(lia)) as [HA _].
  destruct (of_int_small RAND_MAX ltac:(lia)) as [HB _].
  assert (H1 : (1 <= B2R (of_int RAND_MAX))%R).
  { destruct (RND_ge (IZR RAND_MAX) (of_int RAND_MAX) f1) as [E|[_ H]].
    - apply of_int_RND; lia.
    - reflexivity.
    - rewrite B2R_f1. apply IZR_le. lia.
    - rewrite E in HB. contradiction.
    - rewrite B2R_f1 in H. exact H. }
  assert (HAB : (B2R (of_int r) <= B2R (of_int RAND_MAX))%R).
  { apply fle_nnf; try assumption.
    apply (RND_mono (IZR r) _ (IZR RAND_MAX)); try (apply of_int_RND; lia).
    apply IZR_le. lia. }
  pose proof (nnf_nonneg _ HA) as HA0.
  rewrite <- B2R_f1.
  apply (RND_le (B2R (of_int r) / B2R (of_int RAND_MAX))%R).
  - apply fdiv_RND; try assumption. lra.
  - reflexivity.
  - rewrite B2R_f1. apply (Rmult_le_reg_r (B2R (of_int RAND_MAX))); [lra|].
    unfold Rdiv. rewrite Rmult_assoc, Rinv_l by lra. lra.
Qed.

(** [rand_range] stays in its range when the width of the range,
    [max - min], is computed exactly. *)
Lemma rand_range_bounds r lo hi :
  0 <= r <= RAND_MAX ->
  nnf lo -> nnf hi -> nnf (fsub hi lo) ->
  B2R (fsub hi lo) = (B2R hi - B2R lo)%R -> (B2R lo <= B2R hi)%R ->
  nnf (rand_range RAND_MAX r lo hi) /\
  (B2R lo <= B2R (rand_range RAND_MAX r lo hi) <= B2R hi)%R.
Proof.
  intros Hr Hlo Hhi Hd HdR Hle. unfold rand_range.
  destruct (rand_unit r Hr) as [Ht Ht1].
  set (t := fdiv (of_int r) (of_int RAND_MAX)) in *.
  pose proof (nnf_nonneg _ Ht) as Ht0.
  pose proof (nnf_nonneg _ Hd) as Hd0.
  pose proof (nnf_nonneg _ Hlo) as Hlo0.
  destruct (RND_le _ _ (fsub hi lo) (fmul_RND t (fsub hi lo) Ht Hd) Hd) as [Hp HpR];
    [nra|].
  pose proof (nnf_nonneg _ Hp) as Hp0.
  pose proof (fadd_RND lo _ Hlo Hp) as Hs.
  destruct (RND_le _ _ hi Hs Hhi) as [Hv HvR]; [lra|].
  split; [assumption|]. split; [|assumption].
  destruct (RND_ge _ _ lo Hs Hlo) as [E|[_ H]]; [lra| |assumption].
  rewrite E in Hv. contradiction.
Qed.

Lemma fsub_zero a : nnf a -> nnf (fsub a f0) /\ B2R (fsub a f0) = (B2R a - B2R f0)%R.
Proof.
  destruct a as [[|]|?| |[|] m e]; try contradiction; intros H;
    (split; [exact H|cbn; ring]).
Qed.

Lemma is_cexp_512 x : (512 <= x < 1024)%R -> is_cexp x (-14).
Proof.
  intros H. right. split; [lia|].
  change (-14 + 23) with 9. change (-14 + 24) with 10.
  rewrite !bpow_IZR by lia. exact H.
Qed.

(** The geometry of a spawned obstacle. *)
Lemma new_obstacle_geometry rw rx elapsed :
  0 <= rw <= RAND_MAX -> 0 <= rx <= RAND_MAX ->
  let o := new_obstacle RAND_MAX rw rx elapsed in
  nnf (o_w o) /\ nnf (o_x o) /\
  (40 <= B2R (o_w o) <= 140)%R /\
  (B2R (o_x o) + B2R (o_w o) <= 800 + / 2 * bpow (-14))%R /\
  nnf (fadd (o_x o) (o_w o)) /\
  (B2R (fadd (o_x o) (o_w o)) <= 800)%R.
Proof.
  intros Hrw Hrx. cbv zeta. cbn [new_obstacle o_w o_x].
  destruct (rand_range_bounds rw OBSTACLE_MIN_WIDTH OBSTACLE_MAX_WIDTH Hrw)
    as [Hw HwR]; try reflexivity.
  { rewrite B2R_140, B2R_40.
    change (fsub OBSTACLE_MAX_WIDTH OBSTACLE_MIN_WIDTH) with (of_int 100).
    rewrite B2R_100. lra. }
  { rewrite B2R_140, B2R_40. lra. }
  rewrite B2R_140, B2R_40 in HwR.
  set (w := rand_range RAND_MAX rw OBSTACLE_MIN_WIDTH OBSTACLE_MAX_WIDTH) in *.
  assert (H800 : nnf fWINDOW_WIDTH) by reflexivity.
  assert (Hmx : RND (B2R fWINDOW_WIDTH - B2R w) (fsub fWINDOW_WIDTH w))
    by (apply fsub_RND; try assumption; rewrite B2R_800; lra).
  rewrite B2R_800 in Hmx.
  set (maxX := fsub fWINDOW_WIDTH w) in *.
  assert (Hmax : nnf maxX).
  { apply (RND_le _ _ (of_int 760) Hmx); [reflexivity|rewrite B2R_760; lra]. }
  assert (HmaxR : (B2R maxX <= 800 - B2R w + / 2 * bpow (-14))%R).
  { apply RND_error_up; [assumption|apply is_cexp_512; lra|assumption]. }
  destruct (fsub_zero maxX Hmax) as [Hd HdR].
  destruct (rand_range_bounds rx f0 maxX Hrx I Hmax Hd HdR) as [Hx HxR].
  { apply nnf_nonneg in Hmax. exact Hmax. }
  set (x := rand_range RAND_MAX rx f0 maxX) in *.
  assert (Hsum : (B2R x + B2R w <= 800 + / 2 * bpow (-14))%R) by lra.
  assert (Htie : nnf (fadd x w) /\ (B2R (fadd x w) <= B2R fWINDOW_WIDTH)%R).
  { apply (RND_le_tie (B2R x + B2R w) (fadd x w) 13107200 (-14)).
    - apply fadd_RND; assumption.
    - reflexivity.
    - reflexivity.
    - assert (E : (IZR (Zpos 13107200) * bpow (-14) = 800)%R).
      { rewrite <- B2R_800. cbn [fWINDOW_WIDTH B2R]. ring. }
      lra. }
  rewrite B2R_800 in Htie. destruct Htie as [Hs HsR].
  repeat split; try assumption; lra.
Qed.

(** What holds of the obstacle [spawn_obstacle] writes for every pair of
    values of [rand()]: a width in
    [[OBSTACLE_MIN_WIDTH, OBSTACLE_MAX_WIDTH]], a left edge at or right of
    0, a start at [y = -height], and a right edge that is at or left of
    the window width only as the sum [o->x + o->w] in single precision
    gives it; [800 - w] is rounded, so the exact sum of the two floats
    can be beyond 800, by at most half a unit in the last place of
    [760], 2^-15. *)
Theorem spawn_obstacle_geometry (env : TickEnv) (g : Game) (idx : nat) :
  0 <= rand_w env <= RAND_MAX ->
  0 <= rand_x env <= RAND_MAX ->
  find_free_slot (obstacles g) 0 = Some idx ->
  exists o,
    obstacles (spawn_obstacle RAND_MAX env g) !! idx = Some o /\
    o_active o = 1 /\
    fle OBSTACLE_MIN_WIDTH (o_w o) = true /\
    fle (o_w o) OBSTACLE_MAX_WIDTH = true /\
    fle f0 (o_x o) = true /\
    fle (fadd (o_x o) (o_w o)) fWINDOW_WIDTH = true /\
    o_h o = OBSTACLE_HEIGHT /\
    o_y o = fneg (o_h o) /\
    B2R (o_y o) = (- 20)%R /\
    (40 <= B2R (o_w o) <= 140)%R /\
    (0 <= B2R (o_x o))%R /\
    (B2R (o_x o) + B2R (o_w o) <= 800 + bpow (-15))%R.
Proof.
  intros Hrw Hrx E.
  exists (new_obstacle RAND_MAX (rand_w env) (rand_x env) (elapsedTime g)).
  split; [apply spawn_obstacle_new, E|].
  destruct (new_obstacle_geometry (rand_w env) (rand_x env) (elapsedTime g) Hrw Hrx)
    as (Hw & Hx & HwR & Hsum & Hs & HsR).
  cbv zeta in *.
  set (o := new_obstacle RAND_MAX (rand_w env) (rand_x env) (elapsedTime g)) in *.
  split; [reflexivity|].
  split; [apply fle_nnf; [reflexivity|assumption|rewrite B2R_40; lra]|].
  split; [apply fle_nnf; [assumption|reflexivity|rewrite B2R_140; lra]|].
  split; [apply fle_nnf; [exact I|assumption|apply nnf_nonneg; assumption]|].
  split; [apply fle_nnf; [assumption|reflexivity|rewrite B2R_800; lra]|].
  split; [reflexivity|]. split; [reflexivity|].
  split; [|split; [assumption|split; [apply nnf_nonneg; assumption|]]].
  - unfold o. cbn [new_obstacle o_y]. unfold OBSTACLE_HEIGHT, fneg.
    cbn [SFopp negb B2R].
    assert (Eh : (IZR (Zpos 10485760) * bpow (-19) = 20)%R).
    { rewrite <- B2R_f20. cbn [f20 B2R]. ring. }
    lra.
  - replace (bpow (-15)) with (/ 2 * bpow (-14))%R; [assumption|].
    change (-14) with (-15 + 1). rewrite bpow_succ. lra.
Qed.

End SpawnGeometry.

(** The two draws [rand() = 82] and [rand() = RAND_MAX]. *)
Lemma spawn_obstacle_geometry_witness :
  exists o,
    obstacles (spawn_obstacle RAND_MAX_glibc edge_env fresh_game) !! 0%nat = Some o /\
    o_active o = 1 /\
    fle OBSTACLE_MIN_WIDTH (o_w o) = true /\
    fle (o_w o) OBSTACLE_MAX_WIDTH = true /\
    fle f0 (o_x o) = true /\
    fle (fadd (o_x o) (o_w o)) fWINDOW_WIDTH = true /\
    o_h o = OBSTACLE_HEIGHT /\
    o_y o = fneg (o_h o) /\
    B2R (o_y o) = (- 20)%R /\
    (40 <= B2R (o_w o) <= 140)%R /\
    (0 <= B2R (o_x o))%R /\
    (B2R (o_x o) + B2R (o_w o) <= 800 + bpow (-15))%R.
Proof.
  apply (spawn_obstacle_geometry RAND_MAX_glibc).
  - unfold RAND_MAX_glibc, F32.INT_MAX. lia.
  - cbn. unfold RAND_MAX_glibc. lia.
  - cbn. unfold RAND_MAX_glibc. lia.
  - reflexivity.
Defined.

(** With these two draws the width is 40 + 2^-18 and [800 - w] rounds up
    to 760; [x] is 760, and the sum [x + w] rounds back to 800. *)
Example right_edge_rounding :
  let o := new_obstacle RAND_MAX_glibc 82 RAND_MAX_glibc f0 in
  o_w o = S754_finite false 10485761 (-18) /\
  o_x o = of_int 760 /\
  fadd (o_x o) (o_w o) = fWINDOW_WIDTH /\
  (B2R (o_x o) + B2R (o_w o) = 800 + bpow (-18))%R.
Proof.
  cbv zeta.
  assert (Ew : o_w (new_obstacle RAND_MAX_glibc 82 RAND_MAX_glibc f0)
               = S754_finite false 10485761 (-18)) by (vm_compute; reflexivity).
  assert (Ex : o_x (new_obstacle RAND_MAX_glibc 82 RAND_MAX_glibc f0) = of_int 760)
    by (vm_compute; reflexivity).
  rewrite Ew, Ex. split; [reflexivity|]. split; [reflexivity|].
  split; [vm_compute; reflexivity|].
  rewrite B2R_760. cbn [B2R].
  change (Zpos 10485761) with (40 * 2 ^ 18 + 1).
  rewrite plus_IZR, mult_IZR, (IZR_pow2 18) by lia.
  assert (H : (bpow 18 * bpow (-18) = 1)%R) by exact (bpow_opp 18).
  transitivity (760 + 40 * (bpow 18 * bpow (-18)) + bpow (-18))%R;
    [ring|rewrite H; ring].
Qed.

(** C8.  A spawned obstacle whose right edge is beyond the window.  With
    the draws [rand() = 82] for the width and [rand() = RAND_MAX] for the
    position, [spawn_obstacle] writes into the free slot an obstacle of
    width 40 + 2^-18 at [x = 760]: its right edge [x + w] is
    800 + 2^-18, so [x + width <= screenWidth] fails, although the
    comment in [spawn_obstacle] asks for an obstacle fully inside the
    screen.  The sum the program itself would compute, in single
    precision, is 800. *)
Theorem spawn_right_edge_overshoot :
  exists o,
    obstacles (spawn_obstacle RAND_MAX_glibc edge_env fresh_game) !! 0%nat
      = Some o /\
    o_active o = 1 /\
    o_w o = S754_finite false 10485761 (-18) /\
    o_x o = of_int 760 /\
    (B2R (o_x o) + B2R (o_w o) = 800 + bpow (-18))%R /\
    ~ (B2R (o_x o) + B2R (o_w o) <= B2R fWINDOW_WIDTH)%R /\
    fle (fadd (o_x o) (o_w o)) fWINDOW_WIDTH = true.
Proof.
  exists (new_obstacle RAND_MAX_glibc 82 RAND_MAX_glibc f0).
  destruct right_edge_rounding as (Ew & Ex & Es & Er).
  split; [apply (spawn_obstacle_new RAND_MAX_glibc edge_env fresh_game);
          reflexivity|].
  split; [reflexivity|]. split; [exact Ew|]. split; [exact Ex|].
  split; [exact Er|]. split.
  - rewrite Er, B2R_800. pose proof (bpow_pos (-18)). lra.
  - rewrite Es. reflexivity.
Qed.

(** * The score of the time survived *)

Section Truncation.

(** [(int)x] is the floor of a non-negative [x] below 2^31. *)
Lemma to_int_floor r :
  nnf r -> (B2R r < 2147483648)%R ->
  (IZR (to_int r) <= B2R r < IZR (to_int r) + 1)%R.
Proof.
  destruct r as [s|s| |[|] m e]; try contradiction; intros Hn Hlt.
  - cbn. lra.
  - assert (Hrange : forall t, 0 <= t -> (IZR t <= B2R (S754_finite false m e))%R ->
              (if (F32.INT_MIN <=? t) && (t <=? F32.INT_MAX) then t else F32.INT_MIN) = t).
    { intros t Ht0 Ht.
      assert (IZR t < IZR 2147483648)%R by lra. apply lt_IZR in H.
      unfold F32.INT_MIN, F32.INT_MAX.
      destruct (Z.leb_spec (- 2 ^ 31) t); [|lia].
      destruct (Z.leb_spec t (2 ^ 31 - 1)); [reflexivity|lia]. }
    cbn [to_int]. destruct (Z.leb_spec 0 e) as [He|He].
    + assert (Hv : B2R (S754_finite false m e) = IZR (Zpos m * 2 ^ e)).
      { cbn [B2R]. rewrite mult_IZR, IZR_pow2 by assumption. ring. }
      rewrite Hrange; [rewrite Hv; lra| |rewrite Hv; lra].
      assert (0 < 2 ^ e) by (apply Z.pow_pos_nonneg; lia). nia.
    + set (k := - e). assert (Hk : 0 < k) by (subst k; lia).
      assert (H2k : 0 < 2 ^ k) by (apply Z.pow_pos_nonneg; lia).
      pose proof (Z_div_mod_eq_full (Zpos m) (2 ^ k)) as Hdm.
      pose proof (Z.mod_pos_bound (Zpos m) (2 ^ k) H2k) as Hmod.
      set (q := Zpos m / 2 ^ k) in *. set (r := Zpos m mod 2 ^ k) in *.
      assert (Hq0 : 0 <= q) by (subst q; apply Z.div_pos; lia).
      pose proof (B2R_scaled m k ltac:(lia)) as Hs.
      replace (- k) with e in Hs by (subst k; lia).
      rewrite Hdm, plus_IZR, mult_IZR in Hs.
      assert (HK : (0 < IZR (2 ^ k))%R) by (apply IZR_lt; assumption).
      assert (Hr0 : (0 <= IZR r)%R) by (apply IZR_le; lia).
      assert (Hr1 : (IZR r < IZR (2 ^ k))%R) by (apply IZR_lt; lia).
      assert (Hlo : (IZR q <= B2R (S754_finite false m e))%R) by nra.
      assert (Hhi : (B2R (S754_finite false m e) < IZR q + 1)%R) by nra.
      rewrite Hrange by assumption. lra.
Qed.

(** No float lies strictly between two floats of the same exponent whose
    significands follow each other. *)
Lemma flt_adjacent a (M : positive) (E : Z) :
  nnf a -> flt a (S754_finite false (Pos.succ M) E) = true ->
  fle a (S754_finite false M E) = true.
Proof.
  destruct a as [s|s| |[|] m e]; try contradiction; intros _; [reflexivity|].
  unfold flt, fle, SFltb, SFleb. cbn [SFcompare].
  destruct (Z.compare_spec e E) as [->|Hlt|Hgt]; try discriminate; [|reflexivity].
  change (Pos.compare_cont Eq m (Pos.succ M)) with (Pos.compare m (Pos.succ M)).
  change (Pos.compare_cont Eq m M) with (Pos.compare m M).
  destruct (Pos.compare_spec m (Pos.succ M)) as [?|Hlt|?]; try discriminate.
  intros _. destruct (Pos.compare_spec m M) as [?|?|Hgt]; try reflexivity. lia.
Qed.

(** A float below the real 0.05 is below the float [0.05f]. *)
Lemma below_0_05 dt : nnf dt -> (B2R dt < 5 / 100)%R -> flt dt f0_05 = true.
Proof.
  intros Hn H. apply flt_nnf; [assumption|reflexivity|].
  pose proof B2R_f0_05. lra.
Qed.

(** The points of a tick whose exact product [dt * 20] lies between two
    floats that enclose no integer but [k] from below. *)
Lemma time_points_between dt lo hi (k : Z) :
  nnf dt -> nnf lo -> nnf hi ->
  (B2R lo <= B2R dt * 20 <= B2R hi)%R ->
  (IZR k <= B2R lo)%R -> (B2R hi < IZR k + 1)%R -> (B2R hi < 2147483648)%R ->
  time_points dt = k.
Proof.
  intros Hn Hlo Hhi [Hl Hh] Hk Hk1 Hmax.
  assert (H20 : nnf f20) by reflexivity.
  pose proof (fmul_RND dt f20 Hn H20) as Hr. rewrite B2R_f20 in Hr.
  destruct (RND_le _ _ hi Hr Hhi Hh) as [Hp HpR].
  destruct (RND_ge _ _ lo Hr Hlo Hl) as [E|[_ HpL]];
    [rewrite E in Hp; contradiction|].
  destruct (to_int_floor (fmul dt f20) Hp) as [Hf0 Hf1]; [lra|].
  unfold time_points.
  assert (H1 : (IZR (k - 1) < IZR (to_int (fmul dt f20)))%R)
    by (rewrite minus_IZR; lra).
  assert (H2 : (IZR (to_int (fmul dt f20)) < IZR (k + 1))%R)
    by (rewrite plus_IZR; lra).
  apply lt_IZR in H1, H2. lia.
Qed.

(** Below [0.05f] the product [dt * 20.0f] is below 1 and truncates to 0. *)
Lemma time_points_zero dt : nnf dt -> flt dt f0_05 = true -> time_points dt = 0.
Proof.
  intros Hn Hlt.
  assert (Hle : (B2R dt <= B2R f0_05_pred)%R).
  { apply fle_nnf; [assumption|reflexivity|].
    apply (flt_adjacent dt 13421772 (-28)); assumption. }
  pose proof (nnf_nonneg _ Hn) as H0. pose proof B2R_f1_pred as H1.
  apply (time_points_between dt f0 f1_pred); try assumption; try reflexivity;
    try exact I; cbn [f0 B2R]; try lra.
  rewrite <- B2R_f0_05_pred. lra.
Qed.

(** Up to the 0.1 s at which the main loop caps [dt], the points of a
    tick are the floor of the exact product [dt * 20]: 0 below [0.05f],
    1 from there to below [0.1f], 2 at [0.1f]. *)
Lemma time_points_exact_floor dt :
  nnf dt -> fle dt f0_1 = true ->
  (IZR (time_points dt) <= B2R dt * 20 < IZR (time_points dt) + 1)%R.
Proof.
  intros Hn Hle. pose proof (nnf_nonneg _ Hn) as H0.
  pose proof B2R_f1_pred as H1. pose proof B2R_f2_pred as H2.
  pose proof B2R_f0_05_pred as P1. pose proof B2R_f0_1_pred as P2.
  pose proof B2R_f0_05_scaled as S1. pose proof B2R_f0_1 as S2.
  pose proof B2R_f2_5 as S3.
  assert (Hle' : (B2R dt <= B2R f0_1)%R) by (apply fle_nnf; [| |assumption]; easy).
  destruct (flt dt f0_05) eqn:E1.
  - rewrite (time_points_zero dt Hn E1).
    assert (B2R dt <= B2R f0_05_pred)%R.
    { apply fle_nnf; [assumption|reflexivity|].
      apply (flt_adjacent dt 13421772 (-28)); assumption. }
    simpl IZR. lra.
  - assert (G1 : (B2R f0_05 <= B2R dt)%R).
    { apply fle_nnf; [reflexivity|assumption|].
      apply flt_false_fle; [apply nnf_not_nan; assumption|reflexivity|assumption]. }
    destruct (flt dt f0_1) eqn:E2.
    + assert (G2 : (B2R dt <= B2R f0_1_pred)%R).
      { apply fle_nnf; [assumption|reflexivity|].
        apply (flt_adjacent dt 13421772 (-27)); assumption. }
      rewrite (time_points_between dt f1 f2_pred 1); try assumption;
        try reflexivity; rewrite ?B2R_f1; simpl IZR; lra.
    + assert (G2 : (B2R f0_1 <= B2R dt)%R).
      { apply fle_nnf; [reflexivity|assumption|].
        apply flt_false_fle; [apply nnf_not_nan; assumption|reflexivity|assumption]. }
      rewrite (time_points_between dt f2 f2_5 2); try assumption;
        try reflexivity; rewrite ?B2R_f2; simpl IZR; lra.
Qed.

(** The points of a tick are the floor of the product. *)
Lemma time_points_floor dt :
  nnf dt -> (B2R dt <= 100000000)%R ->
  (IZR (time_points dt) <= B2R (fmul dt f20) < IZR (time_points dt) + 1)%R.
Proof.
  intros Hn Hle. unfold time_points.
  assert (H20 : nnf f20) by reflexivity.
  assert (Hc : nnf (of_int 2000000000)) by reflexivity.
  assert (HcR : B2R (of_int 2000000000) = 2000000000%R)
    by (change (of_int 2000000000) with (S754_finite false 15625000 7); cbn [B2R];
        rewrite (bpow_IZR 7) by lia; rewrite <- !mult_IZR; reflexivity).
  destruct (RND_le _ _ _ (fmul_RND dt f20 Hn H20) Hc) as [Hp HpR];
    [rewrite B2R_f20, HcR; lra|].
  apply to_int_floor; [assumption|lra].
Qed.

(** The main loop hands [update_game] a non-negative time step of at
    most [0.1f]. *)
Lemma frame_dt_range ms : nnf (frame_dt ms) /\ fle (frame_dt ms) f0_1 = true.
Proof.
  unfold frame_dt. set (n := wrap_u32 ms).
  assert (Hn : 0 <= n < 2 ^ 32)
    by (subst n; unfold wrap_u32; apply Z.mod_pos_bound; lia).
  set (c := S754_finite false 8388608 9).
  assert (Hc : nnf c) by reflexivity.
  assert (HcR : B2R c = 4294967296%R).
  { unfold c; cbn [B2R]. rewrite (bpow_IZR 9) by lia. rewrite <- !mult_IZR.
    reflexivity. }
  assert (Hmax : (IZR n <= 4294967296)%R) by (apply IZR_le; lia).
  assert (Hn0 : (0 <= IZR n)%R) by (apply IZR_le; lia).
  destruct (RND_le _ _ c (of_int_RND n ltac:(lia)) Hc) as [Ha HaR]; [lra|].
  assert (H1000 : nnf f1000) by reflexivity.
  assert (R1000 : B2R f1000 = 1000%R)
    by (apply (B2R_int _ 14 1000); [lia|reflexivity]).
  pose proof (nnf_nonneg _ Ha) as Ha0.
  assert (Hq : RND (B2R (of_int n) / B2R f1000) (fdiv (of_int n) f1000))
    by (apply fdiv_RND; try assumption; lra).
  destruct (RND_le _ _ c Hq Hc) as [Hd HdR].
  { rewrite R1000. unfold Rdiv. lra. }
  destruct (fgt (fdiv (of_int n) f1000) f0_1) eqn:E.
  - split; reflexivity.
  - split; [assumption|].
    apply flt_false_fle; [reflexivity|apply nnf_not_nan; assumption|exact E].
Qed.

End Truncation.

Section QuietTicks.

Variable RAND_MAX : Z.

Lemma update_obstacles_loop_inactive dt obs : forall sc,
  Forall (fun o => o_active o = 0) obs ->
  update_obstacles_loop dt obs sc = (obs, sc).
Proof.
  induction obs as [|o rest IH]; intros sc H; [reflexivity|].
  inversion H as [|? ? Ho Hrest]; subst. cbn [update_obstacles_loop].
  unfold update_obstacle, is_free. rewrite Ho. cbn. rewrite IH by assumption.
  reflexivity.
Qed.

Lemma no_hit_inactive p obs :
  Forall (fun o => o_active o = 0) obs -> existsb (hits p) obs = false.
Proof.
  induction 1 as [|o rest Ho _ IH]; [reflexivity|].
  cbn [existsb]. unfold hits at 1, is_free. rewrite Ho. cbn. exact IH.
Qed.

(** The score after a tick in PLAYING, whatever the obstacles do. *)
Lemma update_game_score env dt g d :
  state g = GAME_STATE_PLAYING -> is_int (score g) ->
  score (fst (update_game RAND_MAX env dt (g, d)))
  = wrap_int (score g + time_points dt + 10 * exits dt (obstacles g)).
Proof.
  intros Hst Hsc. unfold update_game. rewrite Hst. cbn [GameState_eqb negb].
  pose proof (advance_frame RAND_MAX env dt g Hsc) as (_ & _ & Hs & _).
  destruct (check_collisions (advance RAND_MAX env dt g)); [|exact Hs].
  cbn [set_state highScore score].
  destruct (highScore (advance RAND_MAX env dt g) <? score (advance RAND_MAX env dt g));
    exact Hs.
Qed.

(** A tick with an empty pool and no spawn due. *)
Lemma quiet_tick env dt g d :
  state g = GAME_STATE_PLAYING ->
  Forall (fun o => o_active o = 0) (obstacles g) ->
  spawn_due env g = false ->
  let w' := update_game RAND_MAX env dt (g, d) in
  state (fst w') = GAME_STATE_PLAYING /\
  obstacles (fst w') = obstacles g /\
  lastSpawnTicks (fst w') = lastSpawnTicks g /\
  spawnIntervalMs (fst w') = spawnIntervalMs g /\
  score (fst w') = wrap_int (score g + time_points dt) /\
  snd w' = d.
Proof.
  intros Hst Hin Hdue. cbv zeta. unfold update_game.
  rewrite Hst. cbn [GameState_eqb negb]. unfold advance.
  set (g1 := update_player dt (add_time dt g)).
  assert (Hu : update_obstacles dt g1
               = mkGame (running g1) (state g1) (player g1) (obstacles g) (score g1)
                        (highScore g1) (elapsedTime g1) (lastSpawnTicks g)
                        (spawnIntervalMs g) (leftPressed g1) (rightPressed g1)).
  { unfold update_obstacles.
    change (obstacles g1) with (obstacles g).
    rewrite update_obstacles_loop_inactive by assumption. reflexivity. }
  rewrite Hu.
  assert (Hd : spawn_due env
                 (mkGame (running g1) (state g1) (player g1) (obstacles g) (score g1)
                    (highScore g1) (elapsedTime g1) (lastSpawnTicks g)
                    (spawnIntervalMs g) (leftPressed g1) (rightPressed g1)) = false)
    by exact Hdue.
  rewrite Hd. unfold check_collisions. cbn [obstacles player].
  rewrite no_hit_inactive by assumption. cbn [fst snd state obstacles lastSpawnTicks
    spawnIntervalMs score]. subst g1. cbn. rewrite Hst. repeat split.
Qed.

Lemma quiet_ticks dt envs : forall g d,
  state g = GAME_STATE_PLAYING ->
  Forall (fun o => o_active o = 0) (obstacles g) ->
  Forall (fun env => spawn_due env g = false) envs ->
  is_int (score g + Z.of_nat (length envs) * time_points dt) ->
  0 <= time_points dt ->
  is_int (score g) ->
  state (fst (run_ticks RAND_MAX dt envs (g, d))) = GAME_STATE_PLAYING /\
  score (fst (run_ticks RAND_MAX dt envs (g, d)))
  = score g + Z.of_nat (length envs) * time_points dt.
Proof.
  induction envs as [|env envs IH]; intros g d Hst Hin Hdue Hsum Htp Hsc.
  - cbn. split; [assumption|lia].
  - inversion Hdue as [|? ? Hd0 Hrest]; subst.
    destruct (quiet_tick env dt g d Hst Hin Hd0) as (Hst' & Hobs & Hlast & Hiv & Hs & Hd').
    cbn [run_ticks fold_left].
    destruct (update_game RAND_MAX env dt (g, d)) as [g' d'] eqn:E.
    cbn [fst snd] in *.
    assert (Hs' : score g' = score g + time_points dt).
    { rewrite Hs. apply wrap_int_id. unfold is_int in *.
      cbn [length] in Hsum. rewrite Nat2Z.inj_succ in Hsum. nia. }
    destruct (IH g' d') as [IH1 IH2]; try assumption.
    + rewrite Hobs. assumption.
    + eapply Forall_impl; [exact Hrest|]. cbn. intros e He.
      unfold spawn_due in *. rewrite Hlast, Hiv. exact He.
    + rewrite Hs'. cbn [length] in Hsum. rewrite Nat2Z.inj_succ in Hsum.
      replace (score g + time_points dt + Z.of_nat (length envs) * time_points dt)
        with (score g + Z.succ (Z.of_nat (length envs)) * time_points dt) by lia.
      assumption.
    + rewrite Hs'. unfold is_int in *. cbn [length] in Hsum.
      rewrite Nat2Z.inj_succ in Hsum. nia.
    + fold (run_ticks RAND_MAX dt envs (g', d')). split; [assumption|].
      rewrite IH2, Hs'. cbn [length]. lia.
Qed.

End QuietTicks.

Section ScoreClaims.

Variable RAND_MAX : Z.

(** C9.  A tick in PLAYING adds [(int)(dt * 20.0f)] to the score, next to
    the ten points of each obstacle that left; the amount is the floor of
    the single-precision product, and for every non-negative [dt] up to
    the [0.1f] the main loop caps it at (which every [dt] of the main
    loop is) it is the floor of the exact product [dt * 20]; with
    [dt = 0.1f] that is 2 per tick, and ten such ticks with no obstacle
    in the pool and no spawn due take the score from 0 to 20. *)
Theorem playing_ticks_score
        (env : TickEnv) (dt : float) (envs : list TickEnv) (g : Game) (d : Disk) :
  state g = GAME_STATE_PLAYING ->
  is_int (score g) ->
  score (fst (update_game RAND_MAX env dt (g, d)))
    = wrap_int (score g + time_points dt + 10 * exits dt (obstacles g)) /\
  (nnf dt -> fle dt f0_1 = true ->
     (IZR (time_points dt) <= B2R dt * 20 < IZR (time_points dt) + 1)%R) /\
  (forall ms, nnf (frame_dt ms) /\ fle (frame_dt ms) f0_1 = true) /\
  (nnf dt -> (B2R dt <= 100000000)%R ->
     (IZR (time_points dt) <= B2R (fmul dt f20) < IZR (time_points dt) + 1)%R) /\
  time_points f0_1 = 2 /\
  (score g = 0 ->
   Forall (fun o => o_active o = 0) (obstacles g) ->
   Forall (fun env => spawn_due env g = false) envs ->
   length envs = 10%nat ->
   state (fst (run_ticks RAND_MAX f0_1 envs (g, d))) = GAME_STATE_PLAYING /\
   score (fst (run_ticks RAND_MAX f0_1 envs (g, d))) = 20).
Proof.
  intros Hst Hsc.
  split; [apply update_game_score; assumption|].
  split; [apply time_points_exact_floor|].
  split; [apply frame_dt_range|].
  split; [apply time_points_floor|].
  split; [reflexivity|].
  intros H0 Hin Hdue Hlen.
  assert (Htp : time_points f0_1 = 2) by reflexivity.
  destruct (quiet_ticks RAND_MAX f0_1 envs g d Hst Hin Hdue) as [H1 H2].
  - rewrite H0, Hlen, Htp. unfold is_int, F32.INT_MIN, F32.INT_MAX. lia.
  - rewrite Htp. lia.
  - assumption.
  - split; [assumption|]. rewrite H2, H0, Hlen, Htp. reflexivity.
Qed.

Lemma below_50 (f : Z -> bool) :
  forallb (fun n => f (Z.of_nat n)) (seq 0 50) = true ->
  forall ms, 0 <= ms < 50 -> f ms = true.
Proof.
  intros H ms Hms. rewrite forallb_forall in H.
  specialize (H (Z.to_nat ms)). rewrite Z2Nat.id in H by lia.
  apply H. apply in_seq. lia.
Qed.

(** C10.  With [dt] below 0.05 the time-based points of the tick are 0,
    so the score moves by the ten points per obstacle that left and by
    nothing else; the main loop's [dt] is below 0.05 for every frame
    shorter than 50 ms, the 16 ms of [FRAME_TIME_MS] among them, and the
    first frame time that scores a point is 50 ms. *)
Theorem slow_tick_scores_nothing (env : TickEnv) (dt : float) (g : Game) (d : Disk) :
  nnf dt ->
  flt dt f0_05 = true \/ (B2R dt < 5 / 100)%R ->
  time_points dt = 0 /\
  (state g = GAME_STATE_PLAYING -> is_int (score g) ->
     score (fst (update_game RAND_MAX env dt (g, d)))
     = wrap_int (score g + 10 * exits dt (obstacles g))) /\
  (forall ms, 0 <= ms < 50 -> time_points (frame_dt ms) = 0) /\
  FRAME_TIME_MS = 16 /\
  time_points (frame_dt FRAME_TIME_MS) = 0 /\
  time_points (frame_dt 50) = 1.
Proof.
  intros Hn Hlt.
  assert (Hz : time_points dt = 0).
  { apply time_points_zero; [assumption|].
    destruct Hlt as [H|H]; [assumption|apply below_0_05; assumption]. }
  split; [assumption|].
  split.
  { intros Hst Hsc. rewrite update_game_score by assumption.
    rewrite Hz, Z.add_0_r. reflexivity. }
  split.
  { intros ms Hms. apply Z.eqb_eq.
    apply (below_50 (fun ms => time_points (frame_dt ms) =? 0)); [|assumption].
    vm_compute. reflexivity. }
  repeat split.
Qed.

End ScoreClaims.

(** Scenario 2: ten ticks of 0.1 s from a fresh run, nothing held, no
    obstacle, no spawn due. *)
Lemma playing_ticks_score_witness :
  state (fst (run_ticks RAND_MAX_glibc f0_1 (repeat quiet_env 10)
                (fresh_game, mkDisk None []))) = GAME_STATE_PLAYING /\
  score (fst (run_ticks RAND_MAX_glibc f0_1 (repeat quiet_env 10)
                (fresh_game, mkDisk None []))) = 20.
Proof.
  assert (Hst : state fresh_game = GAME_STATE_PLAYING) by reflexivity.
  assert (Hsc : is_int (score fresh_game)) by (vm_compute; split; discriminate).
  destruct (playing_ticks_score RAND_MAX_glibc quiet_env f0_1 (repeat quiet_env 10)
              fresh_game (mkDisk None []) Hst Hsc) as (_ & _ & _ & _ & _ & H).
  apply H.
  - reflexivity.
  - apply reset_obstacles_inactive.
  - cbn [repeat]. repeat (constructor; [reflexivity|]). constructor.
  - reflexivity.
Defined.

(** A 16 ms frame: [dt = 0.016f]. *)
Lemma slow_tick_scores_nothing_witness :
  time_points (frame_dt 16) = 0 /\
  score (fst (update_game RAND_MAX_glibc quiet_env (frame_dt 16)
                (fresh_game, mkDisk None []))) = 0.
Proof.
  assert (Hn : nnf (frame_dt 16)) by reflexivity.
  assert (Hlt : flt (frame_dt 16) f0_05 = true \/ (B2R (frame_dt 16) < 5 / 100)%R)
    by (left; reflexivity).
  destruct (slow_tick_scores_nothing RAND_MAX_glibc quiet_env (frame_dt 16)
              fresh_game (mkDisk None []) Hn Hlt) as (Hz & Hs & _).
  split; [exact Hz|].
  rewrite Hs; [reflexivity|reflexivity|vm_compute; split; discriminate].
Defined.

(** * The rest of the program *)

(** ** Negative floats *)

Section Signed.

Lemma bra_neg m e l :
  binary_round_aux prec emax true m e l =
  fneg (binary_round_aux prec emax false m e l).
Proof.
  unfold binary_round_aux, fneg.
  destruct (shr_fexp prec emax m e l) as [mrs' e'].
  destruct (shr_fexp prec emax _ e' loc_Exact) as [mrs'' e''].
  destruct (shr_m mrs''); [reflexivity| |reflexivity].
  destruct (e'' <=? emax - prec); reflexivity.
Qed.

Lemma binary_round_neg m e :
  binary_round prec emax true m e = fneg (binary_round prec emax false m e).
Proof.
  unfold binary_round.
  destruct (shl_align m e _) as [mz ez]. apply bra_neg.
Qed.

Lemma binary_normalize_opp n e :
  n <> 0 ->
  binary_normalize prec emax (- n) e false =
  fneg (binary_normalize prec emax n e false).
Proof.
  destruct n as [|p|p]; intros Hn; [congruence| |].
  - change (- Z.pos p) with (Z.neg p). cbn [binary_normalize].
    apply binary_round_neg.
  - change (- Z.neg p) with (Z.pos p). cbn [binary_normalize].
    rewrite binary_round_neg.
    generalize (binary_round prec emax false p e).
    intros [[]|[]| |[] ? ?]; reflexivity.
Qed.

Lemma fadd_neg_r mx ex my ey :
  fadd (S754_finite false mx ex) (S754_finite true my ey) =
  fsub (S754_finite false mx ex) (S754_finite false my ey).
Proof. reflexivity. Qed.

Lemma fadd_neg_l mx ex my ey :
  fadd (S754_finite true mx ex) (S754_finite false my ey) =
  fsub (S754_finite false my ey) (S754_finite false mx ex).
Proof.
  unfold fadd, fsub, SFadd, SFsub. cbv zeta. rewrite (Z.min_comm ey ex).
  reflexivity.
Qed.

Lemma fneg_invol a : fneg (fneg a) = a.
Proof. destruct a as [[]|[]| |[] ? ?]; reflexivity. Qed.

Lemma fsub_swap ma ea mb eb :
  B2R (S754_finite false ma ea) <> B2R (S754_finite false mb eb) ->
  fsub (S754_finite false ma ea) (S754_finite false mb eb) =
  fneg (fsub (S754_finite false mb eb) (S754_finite false ma ea)).
Proof.
  intros Hne. unfold fsub, SFsub. cbv zeta. rewrite (Z.min_comm eb ea).
  set (ez := Z.min ea eb). unfold cond_Zopp.
  set (A := Z.pos (fst (shl_align ma ea ez))).
  set (B := Z.pos (fst (shl_align mb eb ez))).
  replace (A - B) with (- (B - A)) by lia.
  apply binary_normalize_opp. intros HAB. apply Hne. cbn [B2R].
  rewrite !Rmult_1_l.
  pose proof (aligned_value ma ea ez ltac:(unfold ez; lia)) as Ea.
  pose proof (aligned_value mb eb ez ltac:(unfold ez; lia)) as Eb.
  fold A in Ea. fold B in Eb.
  replace A with B in Ea by lia. rewrite <- Ea, <- Eb. reflexivity.
Qed.

Lemma fsub_fadd_neg a b : fsub a b = fadd a (fneg b).
Proof.
  destruct a as [[]|[]| |[] ma ea], b as [[]|[]| |[] mb eb]; reflexivity.
Qed.

Lemma SFcompare_fneg a b :
  SFcompare (fneg a) (fneg b) = option_map CompOpp (SFcompare a b).
Proof.
  destruct a as [[]|[]| |[] ma ea], b as [[]|[]| |[] mb eb];
    try reflexivity; cbn; destruct (ea ?= eb); try reflexivity;
    destruct (Pos.compare_cont Eq ma mb); reflexivity.
Qed.

Lemma fin32_cases a :
  fin32 a -> nnf a \/ (exists m e, a = S754_finite true m e /\
                               bounded prec emax m e = true).
Proof.
  destruct a as [s|s| |[] m e]; cbn; intros H; try tauto; eauto.
Qed.

Lemma fin32_fneg a : fin32 a -> fin32 (fneg a).
Proof. destruct a as [s|s| |s m e]; cbn; tauto. Qed.

Lemma nnf_fin32 a : nnf a -> fin32 a.
Proof. destruct a as [s|s| |[] m e]; cbn; tauto. Qed.

Lemma B2R_fneg a : B2R (fneg a) = (- B2R a)%R.
Proof. destruct a as [s|s| |[] m e]; cbn [fneg SFopp B2R negb]; ring. Qed.

Lemma fin32_neg_cases a :
  fin32 a -> nnf a \/ (nnf (fneg a) /\ (B2R a < 0)%R).
Proof.
  intros H. destruct (fin32_cases a H) as [Hn|(m & e & -> & Hb)]; [tauto|].
  right. split; [exact Hb|].
  pose proof (B2R_finite_bounds m e Hb) as [[H0 _] _].
  cbn [B2R] in *. lra.
Qed.

Lemma compare_fin32 a b :
  fin32 a -> fin32 b ->
  (SFcompare a b = Some Lt /\ (B2R a < B2R b)%R) \/
  (SFcompare a b = Some Eq /\ B2R a = B2R b) \/
  (SFcompare a b = Some Gt /\ (B2R b < B2R a)%R).
Proof.
  intros Ha Hb.
  destruct (fin32_neg_cases a Ha) as [Hna|[Hna Hla]],
           (fin32_neg_cases b Hb) as [Hnb|[Hnb Hlb]].
  - apply compare_nnf; assumption.
  - right; right. pose proof (nnf_nonneg a Hna). split; [|lra].
    destruct a as [s|s| |[] m e], b as [s'|s'| |[] m' e']; cbn in *;
      try tauto; try reflexivity; lra.
  - left. pose proof (nnf_nonneg b Hnb). split; [|lra].
    destruct a as [s|s| |[] m e], b as [s'|s'| |[] m' e']; cbn in *;
      try tauto; try reflexivity; lra.
  - pose proof (SFcompare_fneg a b) as Hc.
    destruct (compare_nnf (fneg a) (fneg b) Hna Hnb)
      as [[Hx Hr]|[[Hx Hr]|[Hx Hr]]]; rewrite Hx in Hc;
      rewrite !B2R_fneg in Hr;
      destruct (SFcompare a b) as [[]|]; cbn in Hc; try discriminate.
    + right; right. split; [reflexivity|lra].
    + right; left. split; [reflexivity|lra].
    + left. split; [reflexivity|lra].
Qed.

Lemma fle_fin32 a b :
  fin32 a -> fin32 b -> (fle a b = true <-> (B2R a <= B2R b)%R).
Proof.
  intros Ha Hb. unfold fle, SFleb.
  destruct (compare_fin32 a b Ha Hb) as [[-> Hr]|[[-> Hr]|[-> Hr]]];
    split; intros H; try reflexivity; try discriminate; lra.
Qed.

Lemma flt_fin32 a b :
  fin32 a -> fin32 b -> (flt a b = true <-> (B2R a < B2R b)%R).
Proof.
  intros Ha Hb. unfold flt, SFltb.
  destruct (compare_fin32 a b Ha Hb) as [[-> Hr]|[[-> Hr]|[-> Hr]]];
    split; intros H; try reflexivity; try discriminate; lra.
Qed.

End Signed.

(** ** Rounding of reals of either sign *)

Section SignedRounding.

Lemma RND_zero_inv r : RND 0 r -> exists s, r = S754_zero s.
Proof.
  intros H.
  destruct (RND_le 0 r (S754_zero false) H I) as [Hn Hr];
    [cbn [B2R]; lra|cbn [B2R] in Hr].
  destruct r as [s|s| |[] m e]; cbn in Hn; try tauto; [eauto|].
  pose proof (B2R_finite_bounds m e Hn) as [[H0 _] _]. cbn [B2R] in *. lra.
Qed.

Lemma RNDs_cases x r :
  RNDs x r ->
  ((0 < x)%R /\ RND x r) \/ (x = 0%R /\ exists s, r = S754_zero s) \/
  ((x < 0)%R /\ RND (- x) (fneg r)).
Proof.
  intros [[H0 H]|[H0 H]].
  - destruct (Rle_lt_or_eq_dec 0 x H0) as [Hp | <-]; [tauto|].
    right; left. split; [reflexivity|]. apply RND_zero_inv, H.
  - destruct (Rle_lt_or_eq_dec x 0 H0) as [Hp | ->]; [tauto|].
    right; left. split; [reflexivity|].
    rewrite Ropp_0 in H. destruct (RND_zero_inv _ H) as [s Hs].
    exists (negb s). rewrite <- (fneg_invol r), Hs. reflexivity.
Qed.

Lemma RNDs_pos x r : (0 <= x)%R -> RND x r -> RNDs x r.
Proof. left; tauto. Qed.

Lemma RNDs_neg x r : (0 <= x)%R -> RND x r -> RNDs (- x) (fneg r).
Proof.
  intros H0 H. right. split; [lra|]. rewrite Ropp_involutive, fneg_invol.
  exact H.
Qed.

Lemma RNDs_id c : fin32 c -> RNDs (B2R c) c.
Proof.
  intros Hc. destruct (fin32_neg_cases c Hc) as [Hn|[Hn Hl]].
  - left. split; [apply nnf_nonneg, Hn|apply RND_id, Hn].
  - right. split; [lra|]. rewrite <- B2R_fneg. apply RND_id, Hn.
Qed.

Lemma fle_np_nn q r : nni q -> nni r -> fle (fneg q) r = true.
Proof.
  intros [Hq| ->] [Hr| ->].
  - destruct q as [s|s| |[] m e], r as [s'|s'| |[] m' e']; cbn in *;
      try tauto; reflexivity.
  - destruct q as [s|s| |[] m e]; cbn in *; try tauto; reflexivity.
  - destruct r as [s'|s'| |[] m' e']; cbn in *; try tauto; reflexivity.
  - reflexivity.
Qed.

Lemma fle_fneg a b : fle (fneg a) (fneg b) = fle b a.
Proof.
  unfold fle, SFleb. rewrite SFcompare_fneg, (SFcompare_antisym a b).
  reflexivity.
Qed.

Lemma RNDs_mono x r x' r' :
  RNDs x r -> RNDs x' r' -> (x <= x')%R -> fle r r' = true.
Proof.
  intros H H' Hle.
  destruct (RNDs_cases x r H) as [[Hx Hr]|[[Hx [s ->]]|[Hx Hr]]];
    destruct (RNDs_cases x' r' H') as [[Hx' Hr']|[[Hx' [s' ->]]|[Hx' Hr']]];
    try lra.
  - apply (RND_mono x r x' r'); assumption.
  - apply (RND_mono 0 (S754_zero s) x' r'); [apply RND_zero|exact Hr'|lra].
  - reflexivity.
  - rewrite <- (fneg_invol r). apply fle_np_nn; eapply RND_nni; eassumption.
  - rewrite <- (fneg_invol r).
    apply fle_np_nn; [eapply RND_nni; eassumption|left; exact I].
  - rewrite <- fle_fneg. apply (RND_mono (- x') _ (- x) _); try assumption.
    lra.
Qed.

Lemma fin32_pos_nnf c : fin32 c -> (0 <= B2R c)%R -> nnf c.
Proof.
  intros Hc H0. destruct (fin32_neg_cases c Hc) as [Hn|[_ Hl]]; [exact Hn|lra].
Qed.

Lemma RND_between x r lo hi :
  RND x r -> fin32 lo -> nnf hi -> (B2R lo <= x <= B2R hi)%R ->
  nnf r /\ (B2R lo <= B2R r <= B2R hi)%R.
Proof.
  intros H Hlo Hhi [Hl Hh].
  destruct (RND_le x r hi H Hhi Hh) as [Hn Hrh]. split; [exact Hn|].
  split; [|exact Hrh].
  destruct (fin32_neg_cases lo Hlo) as [Hnl|[_ Hneg]].
  - destruct (RND_ge x r lo H Hnl Hl) as [->|[_ Hg]]; [destruct Hn|exact Hg].
  - pose proof (nnf_nonneg r Hn). lra.
Qed.

(** Rounding does not step over a float. *)
Lemma RNDs_between x r lo hi :
  RNDs x r -> fin32 lo -> fin32 hi -> (B2R lo <= x <= B2R hi)%R ->
  fin32 r /\ (B2R lo <= B2R r <= B2R hi)%R.
Proof.
  intros H Hlo Hhi [Hl Hh].
  destruct (RNDs_cases x r H) as [[Hx Hr]|[[Hx [s ->]]|[Hx Hr]]].
  - destruct (RND_between x r lo hi Hr Hlo) as [Hn Hb];
      [apply fin32_pos_nnf; [exact Hhi|lra]|lra|].
    split; [apply nnf_fin32, Hn|exact Hb].
  - split; [exact I|]. cbn [B2R]. lra.
  - destruct (RND_between (- x) (fneg r) (fneg hi) (fneg lo) Hr)
      as [Hn Hb].
    + apply fin32_fneg, Hhi.
    + apply fin32_pos_nnf; [apply fin32_fneg, Hlo|rewrite B2R_fneg; lra].
    + rewrite !B2R_fneg. lra.
    + rewrite !B2R_fneg in Hb. split; [|lra].
      rewrite <- (fneg_invol r). apply fin32_fneg, nnf_fin32, Hn.
Qed.

Lemma fmul_fneg_l a b : fmul (fneg a) b = fneg (fmul a b).
Proof.
  destruct a as [[]|[]| |[] ma ea], b as [[]|[]| |[] mb eb];
    try reflexivity; unfold fmul, SFmul; cbn [fneg SFopp negb xorb];
    rewrite ?bra_neg, ?fneg_invol; reflexivity.
Qed.

Lemma fmul_fneg_r a b : fmul a (fneg b) = fneg (fmul a b).
Proof.
  destruct a as [[]|[]| |[] ma ea], b as [[]|[]| |[] mb eb];
    try reflexivity; unfold fmul, SFmul; cbn [fneg SFopp negb xorb];
    rewrite ?bra_neg, ?fneg_invol; reflexivity.
Qed.

Lemma fmul_RNDs a b :
  fin32 a -> fin32 b -> RNDs (B2R a * B2R b) (fmul a b).
Proof.
  intros Ha Hb.
  destruct (fin32_neg_cases a Ha) as [Hna|[Hna Hla]],
           (fin32_neg_cases b Hb) as [Hnb|[Hnb Hlb]].
  - pose proof (nnf_nonneg a Hna). pose proof (nnf_nonneg b Hnb).
    apply RNDs_pos; [nra|apply fmul_RND; assumption].
  - pose proof (nnf_nonneg a Hna).
    rewrite <- (fneg_invol b), fmul_fneg_r, (B2R_fneg (fneg b)).
    replace (B2R a * - B2R (fneg b))%R with (- (B2R a * B2R (fneg b)))%R
      by ring.
    pose proof (nnf_nonneg _ Hnb).
    apply RNDs_neg; [nra|apply fmul_RND; assumption].
  - pose proof (nnf_nonneg b Hnb).
    rewrite <- (fneg_invol a), fmul_fneg_l, (B2R_fneg (fneg a)).
    replace (- B2R (fneg a) * B2R b)%R with (- (B2R (fneg a) * B2R b))%R
      by ring.
    pose proof (nnf_nonneg _ Hna).
    apply RNDs_neg; [nra|apply fmul_RND; assumption].
  - rewrite <- (fneg_invol a), <- (fneg_invol b), fmul_fneg_l, fmul_fneg_r,
      (fneg_invol (fmul _ _)), (B2R_fneg (fneg a)), (B2R_fneg (fneg b)).
    replace (- B2R (fneg a) * - B2R (fneg b))%R
      with (B2R (fneg a) * B2R (fneg b))%R by ring.
    pose proof (nnf_nonneg _ Hna). pose proof (nnf_nonneg _ Hnb).
    apply RNDs_pos; [nra|apply fmul_RND; assumption].
Qed.

Lemma fadd_neg_neg ma ea mb eb :
  fadd (S754_finite true ma ea) (S754_finite true mb eb) =
  fneg (fadd (S754_finite false ma ea) (S754_finite false mb eb)).
Proof.
  unfold fadd, SFadd. cbv zeta.
  set (ez := Z.min ea eb). unfold cond_Zopp.
  set (A := Z.pos (fst (shl_align ma ea ez))).
  set (B := Z.pos (fst (shl_align mb eb ez))).
  rewrite <- binary_normalize_opp by (unfold A, B; lia).
  f_equal; lia.
Qed.

Lemma fadd_RNDs_mixed a b :
  nnf a -> nnf b -> RNDs (B2R a - B2R b) (fadd a (fneg b)).
Proof.
  intros Ha Hb.
  destruct b as [sb|sb| |[] mb eb]; try (exfalso; exact Hb).
  - cbn [B2R]. rewrite Rminus_0_r.
    destruct a as [sa|sa| |[] ma ea]; try (exfalso; exact Ha).
    + left. split; [cbn [B2R]; lra|]. destruct sa, sb; apply RND_zero.
    + apply (RNDs_id (S754_finite false ma ea)). exact Ha.
  - destruct a as [sa|sa| |[] ma ea]; try (exfalso; exact Ha).
    + replace (fadd (S754_zero sa) (fneg (S754_finite false mb eb)))
        with (fneg (S754_finite false mb eb)) by reflexivity.
      replace (B2R (S754_zero sa) - B2R (S754_finite false mb eb))%R
        with (- B2R (S754_finite false mb eb))%R by (cbn [B2R]; ring).
      apply RNDs_neg; [apply (nnf_nonneg _ Hb)|apply RND_id, Hb].
    + change (fneg (S754_finite false mb eb)) with (S754_finite true mb eb).
      rewrite fadd_neg_r.
      destruct (Rle_lt_dec (B2R (S754_finite false mb eb))
                           (B2R (S754_finite false ma ea))) as [Hle|Hlt].
      * apply RNDs_pos; [lra|]. apply fsub_RND; assumption.
      * rewrite fsub_swap by lra.
        replace (B2R (S754_finite false ma ea) - B2R (S754_finite false mb eb))%R
          with (- (B2R (S754_finite false mb eb) - B2R (S754_finite false ma ea)))%R
          by ring.
        apply RNDs_neg; [lra|]. apply fsub_RND; [assumption..|lra].
Qed.

Lemma fadd_comm a b : fadd a b = fadd b a.
Proof.
  destruct a as [[]|[]| |sa ma ea], b as [[]|[]| |sb mb eb];
    try reflexivity.
  unfold fadd, SFadd. cbv zeta. rewrite (Z.min_comm eb ea), Z.add_comm.
  reflexivity.
Qed.

(** The sum of two finite floats is the rounding of the exact sum. *)
Lemma fadd_RNDs a b :
  fin32 a -> fin32 b -> RNDs (B2R a + B2R b) (fadd a b).
Proof.
  intros Ha Hb.
  destruct (fin32_neg_cases a Ha) as [Hna|[Hna Hla]],
           (fin32_neg_cases b Hb) as [Hnb|[Hnb Hlb]].
  - pose proof (nnf_nonneg a Hna). pose proof (nnf_nonneg b Hnb).
    apply RNDs_pos; [lra|apply fadd_RND; assumption].
  - rewrite <- (fneg_invol b), (B2R_fneg (fneg b)).
    apply (fadd_RNDs_mixed a (fneg b)); assumption.
  - rewrite fadd_comm, Rplus_comm, <- (fneg_invol a), (B2R_fneg (fneg a)).
    apply (fadd_RNDs_mixed b (fneg a)); assumption.
  - destruct a as [sa|sa| |[] ma ea]; try (exfalso; exact Hna);
      try (cbn [B2R] in Hla; lra).
    destruct b as [sb|sb| |[] mb eb]; try (exfalso; exact Hnb);
      try (cbn [B2R] in Hlb; lra).
    rewrite fadd_neg_neg.
    replace (B2R (S754_finite true ma ea) + B2R (S754_finite true mb eb))%R
      with (- (B2R (S754_finite false ma ea) + B2R (S754_finite false mb eb)))%R
      by (cbn [B2R]; ring).
    pose proof (nnf_nonneg (S754_finite false ma ea) Hna).
    pose proof (nnf_nonneg (S754_finite false mb eb) Hnb).
    apply RNDs_neg; [lra|apply fadd_RND; assumption].
Qed.

Lemma fsub_RNDs a b :
  fin32 a -> fin32 b -> RNDs (B2R a - B2R b) (fsub a b).
Proof.
  intros Ha Hb. rewrite fsub_fadd_neg.
  replace (B2R a - B2R b)%R with (B2R a + B2R (fneg b))%R
    by (rewrite B2R_fneg; ring).
  apply fadd_RNDs; [exact Ha|apply fin32_fneg, Hb].
Qed.

End SignedRounding.

(** ** [clampf] and [rects_intersect] on every input *)

Section Utilities.

Lemma fgt_negb_fle a b :
  is_nan a = false -> is_nan b = false -> fgt a b = negb (fle a b).
Proof.
  intros Ha Hb. unfold fgt, fle, SFltb, SFleb.
  rewrite (SFcompare_antisym a b).
  destruct (SFcompare_not_nan a b Ha Hb) as [c ->].
  destruct c; reflexivity.
Qed.

Lemma flt_irrefl a : flt a a = false.
Proof.
  unfold flt, SFltb. destruct (is_nan a) eqn:E.
  - destruct a; try discriminate. reflexivity.
  - rewrite SFcompare_refl by exact E. reflexivity.
Qed.

Lemma clampf_inside u lo hi :
  fle lo u = true -> fle u hi = true -> clampf u lo hi = u.
Proof.
  intros Hl Hh. unfold clampf.
  assert (E1 : flt u lo = false) by (apply (fle_true_fgt_false lo u), Hl).
  assert (E2 : fgt u hi = false) by (apply fle_true_fgt_false, Hh).
  rewrite E1, E2. reflexivity.
Qed.

(** X1.  [clampf] returns a value between the bounds; it is [v] itself
    as soon as [v] lies between them, [min] when [v] is below [min];
    clamping twice changes nothing.  A NaN is not clamped: it is
    returned as it came. *)
Theorem clampf_spec (v lo hi : float) :
  is_nan v = false -> is_nan lo = false -> is_nan hi = false ->
  fle lo hi = true ->
  fle lo (clampf v lo hi) = true /\
  fle (clampf v lo hi) hi = true /\
  (fle lo v = true -> fle v hi = true -> clampf v lo hi = v) /\
  (flt v lo = true -> clampf v lo hi = lo) /\
  clampf (clampf v lo hi) lo hi = clampf v lo hi /\
  clampf S754_nan lo hi = S754_nan.
Proof.
  intros Hv Hlo Hhi Hle.
  destruct (clampf_range v lo hi Hv Hlo Hhi Hle) as [H1 H2].
  split; [exact H1|]. split; [exact H2|].
  split; [apply clampf_inside|].
  split; [intros Hlt; unfold clampf; rewrite Hlt; reflexivity|].
  split; [apply clampf_inside; assumption|].
  destruct lo, hi; reflexivity.
Qed.

Lemma clampf_spec_witness :
  clampf (of_int 900) f0 PLAYER_MAX_X = PLAYER_MAX_X /\
  clampf (clampf (of_int 900) f0 PLAYER_MAX_X) f0 PLAYER_MAX_X =
  clampf (of_int 900) f0 PLAYER_MAX_X.
Proof.
  split; [reflexivity|].
  exact (proj1 (proj2 (proj2 (proj2 (proj2
    (clampf_spec (of_int 900) f0 PLAYER_MAX_X
       eq_refl eq_refl eq_refl eq_refl)))))).
Defined.

(** X2.  When no coordinate and no sum is a NaN, [rects_intersect]
    is exactly the conjunction of the four closed comparisons: the
    rectangles are apart only if one lies strictly beyond the other on
    an axis.  Swapping the two rectangles does not change the answer. *)
Theorem rects_intersect_exact (x1 y1 w1 h1 x2 y2 w2 h2 : float) :
  is_nan x1 = false -> is_nan y1 = false ->
  is_nan x2 = false -> is_nan y2 = false ->
  is_nan (fadd x1 w1) = false -> is_nan (fadd y1 h1) = false ->
  is_nan (fadd x2 w2) = false -> is_nan (fadd y2 h2) = false ->
  rects_intersect x1 y1 w1 h1 x2 y2 w2 h2 =
    fle x1 (fadd x2 w2) && fle x2 (fadd x1 w1) &&
    fle y1 (fadd y2 h2) && fle y2 (fadd y1 h1) /\
  rects_intersect x2 y2 w2 h2 x1 y1 w1 h1 =
    rects_intersect x1 y1 w1 h1 x2 y2 w2 h2.
Proof.
  intros Hx1 Hy1 Hx2 Hy2 Hs1 Ht1 Hs2 Ht2.
  assert (E : rects_intersect x1 y1 w1 h1 x2 y2 w2 h2 =
    fle x1 (fadd x2 w2) && fle x2 (fadd x1 w1) &&
    fle y1 (fadd y2 h2) && fle y2 (fadd y1 h1)).
  { unfold rects_intersect.
    change (flt (fadd x1 w1) x2) with (fgt x2 (fadd x1 w1)).
    change (flt (fadd y1 h1) y2) with (fgt y2 (fadd y1 h1)).
    rewrite !fgt_negb_fle by assumption.
    destruct (fle x1 _), (fle x2 _), (fle y1 _), (fle y2 _); reflexivity. }
  split; [exact E|].
  unfold rects_intersect, fgt, flt.
  destruct (SFltb (fadd x2 w2) x1), (SFltb (fadd x1 w1) x2),
    (SFltb (fadd y2 h2) y1), (SFltb (fadd y1 h1) y2); reflexivity.
Qed.

Lemma rects_intersect_exact_witness :
  rects_intersect (of_int 360) (of_int 540) PLAYER_WIDTH PLAYER_HEIGHT
                  (of_int 500) (of_int 530) (of_int 50) OBSTACLE_HEIGHT = false /\
  fle (of_int 500) (fadd (of_int 360) PLAYER_WIDTH) = false.
Proof.
  split; [|reflexivity].
  rewrite (proj1 (rects_intersect_exact
    (of_int 360) (of_int 540) PLAYER_WIDTH PLAYER_HEIGHT
    (of_int 500) (of_int 530) (of_int 50) OBSTACLE_HEIGHT
    eq_refl eq_refl eq_refl eq_refl eq_refl eq_refl eq_refl eq_refl)).
  reflexivity.
Defined.

End Utilities.

(** ** The player's movement *)

Section PlayerMoves.

Lemma direction_cases left right :
  direction left right =
    if left =? 0
    then (if right =? 0 then f0 else f1)
    else (if right =? 0 then fneg f1 else f0).
Proof.
  unfold direction. destruct (left =? 0), (right =? 0); reflexivity.
Qed.

Lemma nnf_is_finite a : nnf a -> is_finite a = true.
Proof. destruct a as [s|s| |[] m e]; cbn; tauto. Qed.

Lemma fin32_is_finite a : fin32 a -> is_finite a = true.
Proof. destruct a as [s|s| |s m e]; cbn; tauto. Qed.

Lemma fin32_not_nan a : fin32 a -> is_nan a = false.
Proof. destruct a as [s|s| |s m e]; cbn; tauto. Qed.

(** X3.  With neither movement key held, or with both, [update_player]
    leaves the player where it is: the new [x] compares equal to the old
    one, and the whole player is unchanged unless [x] was the negative
    zero (which the addition turns into [+0]). *)
Theorem update_player_idle (dt : float) (g : Game) :
  player_ok (player g) -> is_finite dt = true ->
  fle f0 (p_x (player g)) = true ->
  fle (p_x (player g)) PLAYER_MAX_X = true ->
  (leftPressed g = 0 <-> rightPressed g = 0) ->
  SFeqb (p_x (player (update_player dt g))) (p_x (player g)) = true /\
  (p_x (player g) <> S754_zero true ->
   player (update_player dt g) = player g).
Proof.
  intros (Hw & Hs & Hx) Hdt H0 Hmax Hkeys.
  unfold update_player; cbn [player p_x]. unfold update_player_x.
  rewrite Hw, Hs, direction_cases. fold PLAYER_MAX_X.
  assert (Hd : (if leftPressed g =? 0
                then if rightPressed g =? 0 then f0 else f1
                else if rightPressed g =? 0 then fneg f1 else f0) = f0).
  { destruct (Z.eqb_spec (leftPressed g) 0) as [E|E],
             (Z.eqb_spec (rightPressed g) 0) as [E'|E'];
      try reflexivity; tauto. }
  rewrite Hd.
  assert (Hz : exists s, fmul (fmul f0 PLAYER_SPEED) dt = S754_zero s).
  { destruct dt as [s|s| |s m e]; try discriminate; eexists; reflexivity. }
  destruct Hz as [s ->].
  destruct (player g) as [x y w h sp]; cbn [p_x p_y p_w p_h p_speed] in *.
  subst w sp.
  destruct x as [sx|sx| |sx m e]; try discriminate.
  - assert (Hc : forall s', clampf (S754_zero s') f0 PLAYER_MAX_X = S754_zero s')
      by (intros []; reflexivity).
    destruct sx, s; cbn [fadd SFadd]; rewrite Hc; (split; [reflexivity|]);
      intros Hne; try reflexivity; congruence.
  - replace (fadd (S754_finite sx m e) (S754_zero s)) with (S754_finite sx m e)
      by reflexivity.
    rewrite clampf_inside by assumption.
    split; [|reflexivity].
    unfold SFeqb. rewrite SFcompare_refl; reflexivity.
Qed.

Lemma update_player_idle_witness :
  player (update_player f0_1
            (mkGame 1 GAME_STATE_PLAYING init_player [] 0 0 f0 0
                    OBSTACLE_BASE_INTERVAL 1 1)) = init_player.
Proof.
  refine (proj2 (update_player_idle f0_1
            (mkGame 1 GAME_STATE_PLAYING init_player [] 0 0 f0 0
                    OBSTACLE_BASE_INTERVAL 1 1) _ eq_refl eq_refl eq_refl _) _).
  - repeat split.
  - cbn; split; intros; discriminate.
  - cbn. discriminate.
Defined.

Lemma B2R_720 : B2R PLAYER_MAX_X = 720%R.
Proof. apply (B2R_int _ 14 720); [lia|reflexivity]. Qed.

Lemma RNDs_range x r :
  RNDs x r -> fin32 r \/ r = S754_infinity false \/ r = S754_infinity true.
Proof.
  intros [[_ H]|[_ H]].
  - destruct (RND_nni _ _ H) as [Hn| ->]; [left; apply nnf_fin32, Hn|tauto].
  - destruct (RND_nni _ _ H) as [Hn|E].
    + left. rewrite <- (fneg_invol r). apply fin32_fneg, nnf_fin32, Hn.
    + right; right. rewrite <- (fneg_invol r), E. reflexivity.
Qed.

(** Whatever the sum, clamping puts the player on its line. *)
Lemma clampf_on_line v :
  fin32 v \/ v = S754_infinity false \/ v = S754_infinity true ->
  nnf (clampf v f0 PLAYER_MAX_X) /\
  fle (clampf v f0 PLAYER_MAX_X) PLAYER_MAX_X = true.
Proof.
  intros [Hv|[->| ->]]; [|split; reflexivity..].
  unfold clampf. destruct (flt v f0) eqn:E1; [split; reflexivity|].
  destruct (fgt v PLAYER_MAX_X) eqn:E2; [split; reflexivity|].
  assert (Hnn : is_nan v = false) by (apply fin32_not_nan, Hv).
  split.
  - apply fin32_pos_nnf; [exact Hv|].
    destruct (Rle_lt_dec 0 (B2R v)) as [H|H]; [exact H|].
    apply (flt_fin32 v f0 Hv I) in H. congruence.
  - apply flt_false_fle; [reflexivity|exact Hnn|exact E2].
Qed.

Lemma update_player_on_line (dt : float) (g : Game) :
  player_on_line (player g) -> fin32 dt ->
  player_on_line (player (update_player dt g)).
Proof.
  intros (Hw & Hs & Hx & Hmax) Hdt.
  unfold update_player, player_on_line; cbn [player p_x p_w p_speed].
  split; [exact Hw|]. split; [exact Hs|].
  unfold update_player_x. rewrite Hw, Hs. fold PLAYER_MAX_X.
  apply clampf_on_line.
  set (c := fmul (direction (leftPressed g) (rightPressed g)) PLAYER_SPEED).
  assert (Hc : fin32 c).
  { unfold c. rewrite direction_cases.
    destruct (leftPressed g =? 0), (rightPressed g =? 0); reflexivity. }
  destruct (RNDs_range _ _ (fmul_RNDs c dt Hc Hdt)) as [Hd|[->| ->]].
  - apply (RNDs_range (B2R (p_x (player g)) + B2R (fmul c dt))).
    apply fadd_RNDs; [apply nnf_fin32, Hx|exact Hd].
  - right; left. destruct (p_x (player g)) as [s|s| |[] m e];
      try (exfalso; exact Hx); reflexivity.
  - right; right. destruct (p_x (player g)) as [s|s| |[] m e];
      try (exfalso; exact Hx); reflexivity.
Qed.

(** X4.  The player moves the way the key says: with only the right
    key held the new [x] is not below the old one, with only the left key
    held it is not above it, and in every case the player stays on its
    line, [x] a finite number in [0, 720]. *)
Theorem update_player_direction (dt : float) (g : Game) :
  player_on_line (player g) -> nnf dt ->
  let x := p_x (player g) in
  let x' := p_x (player (update_player dt g)) in
  player_on_line (player (update_player dt g)) /\
  (0 <= B2R x' <= 720)%R /\
  (leftPressed g = 0 -> rightPressed g <> 0 -> fle x x' = true) /\
  (leftPressed g <> 0 -> rightPressed g = 0 -> fle x' x = true).
Proof.
  intros Hp Hdt x x'.
  pose proof (update_player_on_line dt g Hp (nnf_fin32 _ Hdt)) as Hp'.
  split; [exact Hp'|].
  destruct Hp as (Hw & Hs & Hx & Hmax).
  destruct Hp' as (_ & _ & Hx' & Hmax'). fold x in Hx, Hmax. fold x' in Hx', Hmax'.
  assert (HM : nnf PLAYER_MAX_X) by reflexivity.
  pose proof (proj1 (fle_nnf x PLAYER_MAX_X Hx HM) Hmax) as HxR.
  rewrite B2R_720 in HxR.
  split.
  { pose proof (nnf_nonneg _ Hx').
    pose proof (proj1 (fle_nnf x' PLAYER_MAX_X Hx' HM) Hmax') as H'.
    rewrite B2R_720 in H'. lra. }
  assert (Hsp : nnf PLAYER_SPEED) by reflexivity.
  assert (Ex' : x' = clampf (fadd x (fmul (fmul (direction (leftPressed g)
                  (rightPressed g)) PLAYER_SPEED) dt)) f0 PLAYER_MAX_X).
  { unfold x', update_player; cbn [player p_x]. unfold update_player_x.
    rewrite Hw, Hs. reflexivity. }
  split.
  - intros Hl Hr. rewrite direction_cases in Ex'.
    apply Z.eqb_eq in Hl. apply Z.eqb_neq in Hr. rewrite Hl, Hr in Ex'.
    change (fmul f1 PLAYER_SPEED) with PLAYER_SPEED in Ex'.
    set (d := fmul PLAYER_SPEED dt) in Ex'.
    assert (Hd : nni d) by (eapply RND_nni, fmul_RND; assumption).
    destruct Hd as [Hd|Hd].
    + pose proof (fadd_RND x d Hx Hd) as Hv.
      pose proof (nnf_nonneg _ Hd) as Hd0.
      destruct (RND_ge _ _ x Hv Hx) as [E|[Hvn Hge]]; [lra| |].
      * rewrite E in Ex'. rewrite Ex'. exact Hmax.
      * rewrite Ex'. unfold clampf.
        assert (E1 : flt (fadd x d) f0 = false).
        { destruct (flt (fadd x d) f0) eqn:E; [|reflexivity].
          apply (flt_nnf _ f0 Hvn I) in E. pose proof (nnf_nonneg _ Hvn).
          cbn [B2R f0] in E. lra. }
        rewrite E1. destruct (fgt (fadd x d) PLAYER_MAX_X); [exact Hmax|].
        apply fle_nnf; assumption.
    + rewrite Hd in Ex'. rewrite Ex'.
      replace (fadd x (S754_infinity false)) with (S754_infinity false)
        by (destruct x as [s|s| |[] m e]; try (exfalso; exact Hx); reflexivity).
      exact Hmax.
  - intros Hl Hr. rewrite direction_cases in Ex'.
    apply Z.eqb_neq in Hl. apply Z.eqb_eq in Hr. rewrite Hl, Hr in Ex'.
    change (fmul (fneg f1) PLAYER_SPEED) with (fneg PLAYER_SPEED) in Ex'.
    rewrite fmul_fneg_l in Ex'.
    set (d := fmul PLAYER_SPEED dt) in Ex'.
    assert (H0x : fle f0 x = true)
      by (apply fle_nnf; [exact I|exact Hx|apply nnf_nonneg, Hx]).
    assert (Hd : nni d) by (eapply RND_nni, fmul_RND; assumption).
    destruct Hd as [Hd|Hd].
    + pose proof (fadd_RNDs_mixed x d Hx Hd) as Hv.
      pose proof (nnf_nonneg _ Hd) as Hd0.
      destruct (RNDs_between _ _ (fneg d) x Hv) as [Hvf Hvb].
      { apply fin32_fneg, nnf_fin32, Hd. }
      { apply nnf_fin32, Hx. }
      { rewrite B2R_fneg. pose proof (nnf_nonneg _ Hx). lra. }
      rewrite Ex'. unfold clampf.
      destruct (flt (fadd x (fneg d)) f0); [exact H0x|].
      assert (E2 : fgt (fadd x (fneg d)) PLAYER_MAX_X = false).
      { destruct (fgt (fadd x (fneg d)) PLAYER_MAX_X) eqn:E; [|reflexivity].
        apply (flt_fin32 PLAYER_MAX_X _ (nnf_fin32 _ HM) Hvf) in E.
        rewrite B2R_720 in E. lra. }
      rewrite E2. apply fle_fin32; [exact Hvf|apply nnf_fin32, Hx|lra].
    + rewrite Hd in Ex'. rewrite Ex'.
      replace (fadd x (fneg (S754_infinity false))) with (S754_infinity true)
        by (destruct x as [s|s| |[] m e]; try (exfalso; exact Hx); reflexivity).
      exact H0x.
Qed.

Lemma update_player_direction_witness :
  fle (p_x init_player)
      (p_x (player (update_player f0_1
         (mkGame 1 GAME_STATE_PLAYING init_player [] 0 0 f0 0
                 OBSTACLE_BASE_INTERVAL 0 1)))) = true.
Proof.
  refine (proj1 (proj2 (proj2 (update_player_direction f0_1
            (mkGame 1 GAME_STATE_PLAYING init_player [] 0 0 f0 0
                    OBSTACLE_BASE_INTERVAL 0 1) _ _))) eq_refl _).
  - repeat split.
  - reflexivity.
  - cbn. discriminate.
Defined.

End PlayerMoves.

(** ** The obstacle pool *)

Section PoolMoves.

Variable RAND_MAX : Z.

Lemma update_obstacles_loop_map dt obs : forall sc,
  fst (update_obstacles_loop dt obs sc) = map (moved dt) obs.
Proof.
  induction obs as [|o rest IH]; intros sc; [reflexivity|].
  cbn [update_obstacles_loop map].
  destruct (update_obstacle dt o sc) as [o' sc1] eqn:E.
  specialize (IH sc1).
  destruct (update_obstacles_loop dt rest sc1) as [rest' sc2].
  cbn [fst] in *. rewrite IH. f_equal.
  unfold moved. unfold update_obstacle in *.
  destruct (is_free o); [injection E as <- _; reflexivity|].
  destruct (fgt _ fWINDOW_HEIGHT); injection E as <- _; reflexivity.
Qed.

Lemma update_obstacles_map dt g :
  obstacles (update_obstacles dt g) = map (moved dt) (obstacles g).
Proof.
  destruct (update_obstacles_frame dt g) as (_ & _ & _ & _ & _ & _ & -> & _).
  apply update_obstacles_loop_map.
Qed.

Lemma moved_spec dt o :
  o_x (moved dt o) = o_x o /\ o_w (moved dt o) = o_w o /\
  o_h (moved dt o) = o_h o /\ o_speed (moved dt o) = o_speed o /\
  (o_active o = 0 -> moved dt o = o) /\
  (o_active o <> 0 ->
   o_y (moved dt o) = fadd (o_y o) (fmul (o_speed o) dt)) /\
  (o_active (moved dt o) <> 0 ->
   o_active (moved dt o) = o_active o /\
   fgt (o_y (moved dt o)) fWINDOW_HEIGHT = false) /\
  o_active (moved dt o) = (if leaves dt o then 0 else o_active o).
Proof.
  unfold moved, update_obstacle, leaves, is_free.
  destruct (Z.eqb_spec (o_active o) 0) as [E|E]; cbn [fst negb andb].
  - repeat split; try reflexivity; try congruence.
  - destruct (fgt (fadd (o_y o) (fmul (o_speed o) dt)) fWINDOW_HEIGHT) eqn:F;
      cbn [fst o_x o_y o_w o_h o_speed o_active];
      repeat split; try reflexivity; try congruence; try assumption.
Qed.

Lemma active_count_moved dt obs :
  Z.of_nat (active_count (map (moved dt) obs)) =
  Z.of_nat (active_count obs) - exits dt obs.
Proof.
  induction obs as [|o rest IH]; [reflexivity|].
  cbn [map active_count exits]. rewrite !Nat2Z.inj_add, IH.
  unfold is_free at 1 2.
  destruct (moved_spec dt o) as (_ & _ & _ & _ & _ & _ & _ & ->).
  unfold leaves, is_free.
  destruct (Z.eqb_spec (o_active o) 0) as [E|E]; cbn [negb andb].
  - rewrite E. cbn. lia.
  - destruct (fgt _ fWINDOW_HEIGHT); cbn [Z.eqb].
    + cbn. lia.
    + destruct (Z.eqb_spec (o_active o) 0); [contradiction|]. cbn. lia.
Qed.

(** X5.  [update_obstacles] writes only the [y] and the [active] flag
    of active slots: an inactive slot is left as it is, no slot is
    activated, an active one moves by [speed * dt], and no slot that is
    still active afterwards lies below the window ([y > 600]).  The
    number of active slots drops by the number of obstacles retired. *)
Theorem update_obstacles_slots (dt : float) (g : Game) (i : nat) (o : Obstacle) :
  obstacles g !! i = Some o ->
  exists o', obstacles (update_obstacles dt g) !! i = Some o' /\
    o_x o' = o_x o /\ o_w o' = o_w o /\ o_h o' = o_h o /\
    o_speed o' = o_speed o /\
    (o_active o = 0 -> o' = o) /\
    (o_active o <> 0 -> o_y o' = fadd (o_y o) (fmul (o_speed o) dt)) /\
    (o_active o' <> 0 ->
     o_active o' = o_active o /\ fgt (o_y o') fWINDOW_HEIGHT = false) /\
    length (obstacles (update_obstacles dt g)) = length (obstacles g) /\
    Z.of_nat (active_count (obstacles (update_obstacles dt g))) =
    Z.of_nat (active_count (obstacles g)) - exits dt (obstacles g).
Proof.
  intros Hl. rewrite update_obstacles_map. exists (moved dt o).
  split; [rewrite list_lookup_fmap, Hl; reflexivity|].
  destruct (moved_spec dt o) as (H1 & H2 & H3 & H4 & H5 & H6 & H7 & _).
  repeat (split; [assumption|]).
  split; [apply length_map|apply active_count_moved].
Qed.

Lemma update_obstacles_slots_witness :
  exists o', obstacles (update_obstacles f0_1 game_about_to_crash) !! 0%nat
             = Some o' /\
    o_y o' = fadd (of_int 535) (fmul OBSTACLE_BASE_SPEED f0_1) /\
    o_active o' = 1.
Proof.
  destruct (update_obstacles_slots f0_1 game_about_to_crash 0
              obstacle_on_player eq_refl)
    as (o' & Hl & _ & _ & _ & _ & _ & Hy & _).
  exists o'. split; [exact Hl|]. split; [apply Hy; discriminate|].
  cbn in Hl. injection Hl as <-. reflexivity.
Defined.

Lemma fle_finite_inf a : is_finite a = true -> fle a (S754_infinity false) = true.
Proof. destruct a as [s|s| |s m e]; try discriminate; reflexivity. Qed.

Lemma fadd_finite_inf a :
  is_finite a = true -> fadd a (S754_infinity false) = S754_infinity false.
Proof. destruct a as [s|s| |s m e]; try discriminate; reflexivity. Qed.

(** An obstacle only moves down. *)
Lemma moved_falls dt o :
  fin32 (o_y o) -> nnf (o_speed o) -> nnf dt ->
  fle (o_y o) (o_y (moved dt o)) = true.
Proof.
  intros Hy Hs Hdt.
  destruct (moved_spec dt o) as (_ & _ & _ & _ & H5 & H6 & _).
  destruct (Z.eq_dec (o_active o) 0) as [E|E].
  - rewrite (H5 E). apply fle_refl, fin32_not_nan, Hy.
  - rewrite (H6 E).
    destruct (RND_nni _ _ (fmul_RND _ _ Hs Hdt)) as [Hd|Hd].
    + apply (RNDs_mono (B2R (o_y o)) _
               (B2R (o_y o) + B2R (fmul (o_speed o) dt))).
      * apply RNDs_id, Hy.
      * apply fadd_RNDs; [exact Hy|apply nnf_fin32, Hd].
      * pose proof (nnf_nonneg _ Hd). lra.
    + rewrite Hd, fadd_finite_inf by (apply fin32_is_finite, Hy).
      apply fle_finite_inf, fin32_is_finite, Hy.
Qed.

(** X6.  Obstacles only fall: for a time step [dt >= 0] and a slot with
    a finite [y] and a speed [>= 0], the [y] after [update_obstacles] is
    not above the [y] before. *)
Theorem update_obstacles_falls (dt : float) (g : Game) (i : nat) (o : Obstacle) :
  obstacles g !! i = Some o ->
  fin32 (o_y o) -> nnf (o_speed o) -> nnf dt ->
  exists o', obstacles (update_obstacles dt g) !! i = Some o' /\
    fle (o_y o) (o_y o') = true.
Proof.
  intros Hl Hy Hs Hdt. rewrite update_obstacles_map. exists (moved dt o).
  split; [rewrite list_lookup_fmap, Hl; reflexivity|].
  apply moved_falls; assumption.
Qed.

Lemma update_obstacles_falls_witness :
  exists o', obstacles (update_obstacles f0_1 game_about_to_crash) !! 0%nat
             = Some o' /\
    fle (of_int 535) (o_y o') = true.
Proof.
  exact (update_obstacles_falls f0_1 game_about_to_crash 0 obstacle_on_player
           eq_refl eq_refl eq_refl eq_refl).
Defined.

End PoolMoves.

(** ** Spawning into the pool *)

Section SpawnSlot.

Variable RAND_MAX : Z.

Lemma active_count_insert obs : forall i o n,
  obs !! i = Some o -> o_active o = 0 -> o_active n <> 0 ->
  active_count (<[i := n]> obs) = S (active_count obs).
Proof.
  induction obs as [|o0 rest IH]; intros i o n Hl Ho Hn; [discriminate|].
  destruct i as [|i]; simpl in Hl |- *.
  - injection Hl as ->. unfold is_free.
    destruct (Z.eqb_spec (o_active n) 0); [contradiction|].
    rewrite Ho. reflexivity.
  - rewrite (IH i o n Hl Ho Hn). lia.
Qed.

Lemma existsb_insert {A} (f : A -> bool) l : forall i x y,
  l !! i = Some y -> f y = false -> f x = false ->
  existsb f (<[i := x]> l) = existsb f l.
Proof.
  induction l as [|a rest IH]; intros i x y Hl Hy Hx; [discriminate|].
  destruct i as [|i]; simpl in Hl |- *.
  - injection Hl as ->. rewrite Hx, Hy. reflexivity.
  - rewrite (IH i x y Hl Hy Hx). reflexivity.
Qed.

(** The obstacle [spawn_obstacle] writes starts above the window: its
    lower edge [y + h] is the top row, so it meets no rectangle whose
    [y] is positive. *)
Lemma new_obstacle_no_hit p rw rx elapsed :
  fgt (p_y p) f0 = true ->
  hits p (new_obstacle RAND_MAX rw rx elapsed) = false.
Proof.
  intros Hy. unfold hits, rects_intersect, new_obstacle.
  cbn [o_x o_y o_w o_h o_active].
  change (fadd (fneg OBSTACLE_HEIGHT) OBSTACLE_HEIGHT) with f0.
  rewrite Hy. rewrite !orb_true_r, orb_true_l. apply andb_false_r.
Qed.

Lemma spawn_no_hit env g :
  fgt (p_y (player g)) f0 = true ->
  check_collisions (spawn_obstacle RAND_MAX env g) = check_collisions g.
Proof.
  intros Hy. unfold spawn_obstacle, check_collisions.
  destruct (find_free_slot (obstacles g) 0) as [idx|] eqn:E; [|reflexivity].
  cbn [obstacles player].
  destruct (find_free_slot_some _ _ _ E) as (_ & o & Hl & Ho & _).
  rewrite Nat.sub_0_r in Hl.
  apply (existsb_insert _ _ _ _ o Hl).
  - unfold hits, is_free. rewrite Ho. reflexivity.
  - apply new_obstacle_no_hit, Hy.
Qed.

(** X7.  A spawn that finds room writes exactly one slot: the free slot
    of lowest index.  Every other slot is left as it is, the pool keeps
    its size, one more slot is active, and the time of the spawn is
    recorded. *)
Theorem spawn_obstacle_one_slot (env : TickEnv) (g : Game) (idx : nat) :
  find_free_slot (obstacles g) 0 = Some idx ->
  let g' := spawn_obstacle RAND_MAX env g in
  (exists o, obstacles g !! idx = Some o /\ o_active o = 0) /\
  (forall j o, (j < idx)%nat -> obstacles g !! j = Some o -> o_active o <> 0) /\
  obstacles g' !! idx =
    Some (new_obstacle RAND_MAX (rand_w env) (rand_x env) (elapsedTime g)) /\
  (forall j, j <> idx -> obstacles g' !! j = obstacles g !! j) /\
  length (obstacles g') = length (obstacles g) /\
  active_count (obstacles g') = S (active_count (obstacles g)) /\
  lastSpawnTicks g' = wrap_u32 (spawn_now env).
Proof.
  intros E g'.
  destruct (find_free_slot_some _ _ _ E) as (_ & o & Hl & Ho & Hbefore).
  rewrite Nat.sub_0_r in Hl, Hbefore.
  split; [exists o; tauto|]. split; [exact Hbefore|].
  split; [apply spawn_obstacle_new, E|].
  unfold g', spawn_obstacle. rewrite E. cbn [obstacles lastSpawnTicks].
  split; [intros j Hj; apply list_lookup_insert_ne; congruence|].
  split; [apply length_insert|].
  split; [|reflexivity].
  apply (active_count_insert _ _ o); [exact Hl|exact Ho|discriminate].
Qed.

(** X8.  A spawn never causes a collision: the new obstacle lies above
    the window, so with the player on a row below the top ([y > 0]) the
    collision check gives the same answer after [spawn_obstacle] as
    before, whatever the draws of [rand]. *)
Theorem spawn_obstacle_no_collision (env : TickEnv) (g : Game) :
  fgt (p_y (player g)) f0 = true ->
  check_collisions (spawn_obstacle RAND_MAX env g) = check_collisions g /\
  forall rw rx elapsed,
    hits (player g) (new_obstacle RAND_MAX rw rx elapsed) = false.
Proof.
  intros Hy. split; [apply spawn_no_hit, Hy|].
  intros rw rx elapsed. apply new_obstacle_no_hit, Hy.
Qed.

End SpawnSlot.

Lemma spawn_obstacle_one_slot_witness :
  obstacles (spawn_obstacle RAND_MAX_glibc quiet_env game_about_to_crash)
    !! 1%nat =
  Some (new_obstacle RAND_MAX_glibc 0 0 f0) /\
  obstacles (spawn_obstacle RAND_MAX_glibc quiet_env game_about_to_crash)
    !! 0%nat = Some obstacle_on_player.
Proof.
  pose proof (spawn_obstacle_one_slot RAND_MAX_glibc quiet_env
                game_about_to_crash 1 eq_refl) as (_ & _ & H & Hother & _).
  split; [exact H|]. rewrite (Hother 0%nat); [reflexivity|discriminate].
Defined.

Lemma spawn_obstacle_no_collision_witness :
  check_collisions (spawn_obstacle RAND_MAX_glibc edge_env fresh_game) =
  check_collisions fresh_game.
Proof.
  exact (proj1 (spawn_obstacle_no_collision RAND_MAX_glibc edge_env
                  fresh_game eq_refl)).
Defined.


Section FirstTick.

Variable RAND_MAX : Z.

Lemma advance_no_hit_inactive env dt g :
  Forall (fun o => o_active o = 0) (obstacles g) ->
  fgt (p_y (player g)) f0 = true ->
  check_collisions (advance RAND_MAX env dt g) = false.
Proof.
  intros Hfree Hy. unfold advance.
  set (g2 := update_obstacles dt (update_player dt (add_time dt g))).
  assert (Hobs : obstacles g2 = obstacles g).
  { unfold g2. rewrite update_obstacles_map. cbn [update_player add_time obstacles].
    clear -Hfree. induction Hfree as [|o rest Ho _ IH]; [reflexivity|].
    cbn [map]. rewrite IH. f_equal.
    apply (proj1 (proj2 (proj2 (proj2 (proj2 (moved_spec dt o)))))), Ho. }
  assert (Hpy : p_y (player g2) = p_y (player g)).
  { unfold g2.
    destruct (update_obstacles_frame dt (update_player dt (add_time dt g)))
      as (_ & -> & _). reflexivity. }
  assert (H2 : check_collisions g2 = false)
    by (unfold check_collisions; rewrite Hobs; apply no_hit_inactive, Hfree).
  destruct (spawn_due env g2); [|exact H2].
  rewrite spawn_no_hit; [exact H2|]. rewrite Hpy. exact Hy.
Qed.

(** X9.  The tick after a start or restart never ends the run: once the
    confirm key has taken MENU or GAME_OVER to PLAYING, the next
    [update_game] leaves the state PLAYING and the high score and its
    file untouched, for every time step, clock and draw of [rand]. *)
Theorem restart_first_tick (ticks : Z) (g0 : Game) (key : SDL_Keycode)
        (env : TickEnv) (dt : float) (d : Disk) :
  state g0 = GAME_STATE_MENU \/ state g0 = GAME_STATE_GAME_OVER ->
  key = SDLK_RETURN \/ key = SDLK_KP_ENTER ->
  let g := handle_key_down ticks g0 key in
  let w := update_game RAND_MAX env dt (g, d) in
  state g = GAME_STATE_PLAYING /\
  state (fst w) = GAME_STATE_PLAYING /\
  highScore (fst w) = highScore g0 /\
  snd w = d.
Proof.
  intros Hst Hkey g w.
  assert (Eg : g = set_state GAME_STATE_PLAYING (reset_gameplay ticks g0)).
  { unfold g, handle_key_down.
    destruct Hkey as [-> | ->], Hst as [-> | ->]; reflexivity. }
  assert (Hs : state g = GAME_STATE_PLAYING) by (rewrite Eg; reflexivity).
  split; [exact Hs|].
  assert (Hc : check_collisions (advance RAND_MAX env dt g) = false).
  { apply advance_no_hit_inactive; rewrite Eg; [|reflexivity].
    apply reset_obstacles_inactive. }
  unfold w, update_game. rewrite Hs. cbn [GameState_eqb negb]. rewrite Hc.
  cbn [fst snd].
  assert (Hadv : state (advance RAND_MAX env dt g) = state g /\
                 highScore (advance RAND_MAX env dt g) = highScore g).
  { unfold advance.
    destruct (update_obstacles_frame dt (update_player dt (add_time dt g)))
      as (S1 & _ & S2 & _).
    destruct (spawn_due env _).
    - destruct (spawn_obstacle_frame RAND_MAX env
                  (update_obstacles dt (update_player dt (add_time dt g))))
        as (T1 & _ & _ & T2 & _).
      rewrite T1, T2, S1, S2. split; reflexivity.
    - rewrite S1, S2. split; reflexivity. }
  destruct Hadv as [-> ->]. rewrite Hs.
  repeat split. rewrite Eg. reflexivity.
Qed.

End FirstTick.

Lemma restart_first_tick_witness :
  state (fst (update_game RAND_MAX_glibc edge_env f0_1
           (handle_key_down 0
              (set_state GAME_STATE_GAME_OVER game_about_to_crash)
              SDLK_RETURN, mkDisk None []))) = GAME_STATE_PLAYING.
Proof.
  exact (proj1 (proj2 (restart_first_tick RAND_MAX_glibc 0
           (set_state GAME_STATE_GAME_OVER game_about_to_crash) SDLK_RETURN
           edge_env f0_1 (mkDisk None [])
           (or_intror eq_refl) (or_introl eq_refl)))).
Defined.

(** ** Events, frames and the high score *)

Section Frames.

Variable RAND_MAX : Z.

(** What every event handler preserves, [process_events] preserves. *)
Lemma process_events_invariant (P : Game -> Prop) :
  (forall t g k, P g -> P (handle_key_down t g k)) ->
  (forall g k, P g -> P (handle_key_up g k)) ->
  (forall g, P g -> P (set_running 0 g)) ->
  forall evs g, P g -> P (process_events evs g).
Proof.
  intros Hd Hu Hq evs. unfold process_events.
  induction evs as [|[t e] rest IH]; intros g Hg; [exact Hg|].
  cbn [fold_left]. apply IH. unfold process_event; cbn [fst snd].
  destruct e as [|rep sym|sym|]; auto.
  destruct (rep =? 0); auto.
Qed.

(** What every frame preserves, the loop preserves; [Q] restricts the
    frames looked at. *)
Lemma main_loop_invariant (Q : FrameInput -> Prop) (P : Game * Disk -> Prop) :
  (forall inp t w, Q inp -> P w -> P (snd (frame RAND_MAX inp (t, w)))) ->
  forall inputs st, Forall Q inputs -> P (snd st) ->
    P (snd (main_loop RAND_MAX inputs st)).
Proof.
  intros Hf inputs.
  induction inputs as [|inp rest IH]; intros [t w] HQ Hst; [exact Hst|].
  inversion HQ as [|? ? Hq Hrest]; subst. cbn [main_loop].
  destruct (running (fst (snd (t, w))) =? 0); [exact Hst|].
  apply IH; [exact Hrest|].
  pose proof (Hf inp t w Hq Hst) as H.
  destruct (frame RAND_MAX inp (t, w)) as [t' w']. exact H.
Qed.

Lemma frame_snd inp t g d :
  snd (frame RAND_MAX inp (t, (g, d))) =
  update_game RAND_MAX (tick_env inp)
    (frame_dt (currentTicks inp - t)) (process_events (polled inp) g, d).
Proof. reflexivity. Qed.

Lemma advance_high_score env dt g :
  state (advance RAND_MAX env dt g) = state g /\
  highScore (advance RAND_MAX env dt g) = highScore g.
Proof.
  unfold advance.
  destruct (update_obstacles_frame dt (update_player dt (add_time dt g)))
    as (S1 & _ & S2 & _).
  destruct (spawn_due env _).
  - destruct (spawn_obstacle_frame RAND_MAX env
                (update_obstacles dt (update_player dt (add_time dt g))))
      as (T1 & _ & _ & T2 & _).
    rewrite T1, T2, S1, S2. split; reflexivity.
  - rewrite S1, S2. split; reflexivity.
Qed.

(** The outcomes of one tick, as far as the state, the high score and
    its file go. *)
Lemma update_game_cases env dt g d :
  let w := update_game RAND_MAX env dt (g, d) in
  (state g <> GAME_STATE_PLAYING /\ w = (g, d)) \/
  (state g = GAME_STATE_PLAYING /\ state (fst w) = GAME_STATE_PLAYING /\
   highScore (fst w) = highScore g /\ snd w = d) \/
  (state g = GAME_STATE_PLAYING /\ state (fst w) = GAME_STATE_GAME_OVER /\
   score (fst w) <= highScore g /\
   highScore (fst w) = highScore g /\ snd w = d) \/
  (state g = GAME_STATE_PLAYING /\ state (fst w) = GAME_STATE_GAME_OVER /\
   highScore g < score (fst w) /\
   highScore (fst w) = score (fst w) /\
   snd w = save_high_score (fopen_ok env) (fwrite_ok env) (fclose_ok env) d (score (fst w))).
Proof.
  cbv zeta. unfold update_game.
  destruct (state g) eqn:Hs; cbn [GameState_eqb negb];
    try (left; split; [discriminate|reflexivity]).
  right. destruct (advance_high_score env dt g) as [As Ah].
  rewrite Hs in As.
  destruct (check_collisions (advance RAND_MAX env dt g)).
  - cbn [set_state highScore score].
    destruct (Z.ltb_spec (highScore (advance RAND_MAX env dt g))
                         (score (advance RAND_MAX env dt g))) as [L|L];
      cbn [fst snd set_state set_highScore state highScore score].
    + right; right. rewrite <- Ah. repeat split; assumption.
    + right; left. rewrite <- Ah at 1. repeat split; try assumption.
  - left. cbn [fst snd]. repeat split; assumption.
Qed.

Lemma handle_key_down_high_score t g k :
  highScore (handle_key_down t g k) = highScore g.
Proof.
  destruct k; cbn; try reflexivity;
    destruct (state g); reflexivity.
Qed.

Lemma handle_key_up_fields g k :
  state (handle_key_up g k) = state g /\
  score (handle_key_up g k) = score g /\
  highScore (handle_key_up g k) = highScore g.
Proof. destruct k; repeat split. Qed.

Lemma process_events_high_score evs g :
  highScore (process_events evs g) = highScore g.
Proof.
  apply (process_events_invariant (fun g' => highScore g' = highScore g)).
  - intros t g1 k <-. apply handle_key_down_high_score.
  - intros g1 k <-. apply (handle_key_up_fields g1 k).
  - intros g1 <-. reflexivity.
  - reflexivity.
Qed.

(** Once the game is over the score is final and not above the high
    score. *)
Lemma process_events_over evs g :
  (state g = GAME_STATE_GAME_OVER -> score g <= highScore g) ->
  state (process_events evs g) = GAME_STATE_GAME_OVER ->
  score (process_events evs g) <= highScore (process_events evs g).
Proof.
  apply (process_events_invariant
           (fun g' => state g' = GAME_STATE_GAME_OVER ->
                      score g' <= highScore g')).
  - intros t g1 k H. destruct k; cbn; try exact H;
      destruct (state g1) eqn:Es; cbn; try exact H; intros E;
      first [discriminate E | congruence | apply H; reflexivity].
  - intros g1 k H. destruct k; exact H.
  - intros g1 H. exact H.
Qed.

(** X10.  The high score never drops, and whenever the game is over the
    high score is at least the score: both hold after every frame of the
    main loop, whatever keys, clocks and draws the frames bring. *)
Theorem high_score_never_drops (inputs : list FrameInput) (t : Z)
        (g : Game) (d : Disk) :
  (state g = GAME_STATE_GAME_OVER -> score g <= highScore g) ->
  let g' := fst (snd (main_loop RAND_MAX inputs (t, (g, d)))) in
  highScore g <= highScore g' /\
  (state g' = GAME_STATE_GAME_OVER -> score g' <= highScore g').
Proof.
  intros H0. cbv zeta.
  apply (main_loop_invariant (fun _ => True)
    (fun w => highScore g <= highScore (fst w) /\
              (state (fst w) = GAME_STATE_GAME_OVER ->
               score (fst w) <= highScore (fst w)))).
  - intros inp t1 [g1 d1] _ [Hh Ho]. rewrite frame_snd. cbn [fst] in Hh, Ho.
    pose proof (process_events_high_score (polled inp) g1) as Eh.
    pose proof (process_events_over (polled inp) g1 Ho) as Eo.
    set (g2 := process_events (polled inp) g1) in *.
    destruct (update_game_cases (tick_env inp)
                (frame_dt (currentTicks inp - t1)) g2 d1)
      as [[_ ->]|[(_ & S & H & _)|[(_ & S & L & H & _)|(_ & S & L & H & _)]]];
      cbn [fst]; try rewrite H; try rewrite S; split; try lia;
      try discriminate; try (intros _; lia); try assumption.
  - apply Forall_forall. intros; exact I.
  - cbn [fst snd]. split; [lia|exact H0].
Qed.

(** A tick keeps the file and the high score in step when its write
    reaches the file. *)
Lemma update_game_agrees env dt g d :
  fopen_ok env = true -> fwrite_ok env = true -> fclose_ok env = true ->
  load_high_score d = highScore g ->
  load_high_score (snd (update_game RAND_MAX env dt (g, d))) =
  highScore (fst (update_game RAND_MAX env dt (g, d))).
Proof.
  intros Ho Hw Hc Hd.
  destruct (update_game_cases env dt g d)
    as [[_ ->]|[(_ & _ & H & ->)|[(_ & _ & _ & H & ->)|(_ & _ & _ & H & ->)]]];
    cbn [fst snd]; try congruence.
  rewrite H, Ho, Hw, Hc. reflexivity.
Qed.

(** X11.  The file follows the high score: if the file and the game
    agree on the high score and in every frame [fopen] and [fwrite]
    succeed and the flush in [fclose] puts the bytes in the file, they
    agree after every frame of the main loop.  A tick leaves the file as
    it is unless it raises the high score. *)
Theorem high_score_file_agrees (inputs : list FrameInput) (t : Z)
        (g : Game) (d : Disk) :
  Forall (fun inp => fopen_ok (tick_env inp) = true /\
                     fwrite_ok (tick_env inp) = true /\
                     fclose_ok (tick_env inp) = true) inputs ->
  load_high_score d = highScore g ->
  let w := snd (main_loop RAND_MAX inputs (t, (g, d))) in
  load_high_score (snd w) = highScore (fst w) /\
  forall env dt,
    snd (update_game RAND_MAX env dt (g, d)) = d \/
    highScore g < highScore (fst (update_game RAND_MAX env dt (g, d))).
Proof.
  intros Hin Hd. cbv zeta. split.
  - apply (main_loop_invariant
      (fun inp => fopen_ok (tick_env inp) = true /\
                  fwrite_ok (tick_env inp) = true /\
                  fclose_ok (tick_env inp) = true)
      (fun w => load_high_score (snd w) = highScore (fst w)));
      [|exact Hin|exact Hd].
    intros inp t1 [g1 d1] (Ho & Hw & Hc) H. rewrite frame_snd.
    cbn [fst snd] in H.
    apply update_game_agrees; [exact Ho|exact Hw|exact Hc|].
    rewrite process_events_high_score. exact H.
  - intros env dt.
    destruct (update_game_cases env dt g d)
      as [[_ ->]|[(_ & _ & _ & ->)|[(_ & _ & _ & _ & ->)|(_ & _ & L & H & _)]]];
      try (left; reflexivity).
    right. rewrite H. exact L.
Qed.

Lemma init_game_some e ticks d g h calls :
  init_game e ticks d = (Some g, h, calls) ->
  g = reset_gameplay ticks
        (set_highScore (load_high_score d)
           (set_rightPressed 0 (set_leftPressed 0
              (set_state GAME_STATE_MENU (set_running 1 zero_game))))).
Proof.
  unfold init_game. destruct (init_sdl e zero_handles) as [[ok h'] c'].
  destruct ok; cbn [negb]; intros H; [|discriminate].
  injection H as <- _ _. reflexivity.
Qed.


End Frames.

(** A session: the menu, Enter, a crash into the obstacle lying over
    the start position. *)
Lemma high_score_never_drops_witness :
  50 <= highScore (fst (snd (main_loop RAND_MAX_glibc
                               [mkFrameInput 100 [] quiet_env]
                               (0, (game_about_to_crash, mkDisk (Some 50) []))))).
Proof.
  refine (proj1 (high_score_never_drops RAND_MAX_glibc
                   [mkFrameInput 100 [] quiet_env] 0
                   game_about_to_crash (mkDisk (Some 50) []) _)).
  cbn. discriminate.
Defined.

Lemma high_score_file_agrees_witness :
  load_high_score (snd (snd (main_loop RAND_MAX_glibc
                               [mkFrameInput 100 [] quiet_env]
                               (0, (game_about_to_crash, mkDisk (Some 50) []))))) =
  highScore (fst (snd (main_loop RAND_MAX_glibc
                               [mkFrameInput 100 [] quiet_env]
                               (0, (game_about_to_crash, mkDisk (Some 50) []))))).
Proof.
  refine (proj1 (high_score_file_agrees RAND_MAX_glibc
                   [mkFrameInput 100 [] quiet_env] 0
                   game_about_to_crash (mkDisk (Some 50) []) _ eq_refl)).
  repeat constructor.
Defined.


(** The session ends on the 35th frame: the first obstacle, spawned in
    the 8th, reaches the player's row; the score 70 beats the 50 of the
    file and is written to it; the frames after it change nothing. *)
Example session_replay :
  let run n := snd (main_loop RAND_MAX_glibc (firstn n session_inputs)
                      (0, (session_start, mkDisk (Some 50) []))) in
  state (fst (run 34%nat)) = GAME_STATE_PLAYING /\
  score (fst (run 34%nat)) = 68 /\
  snd (run 34%nat) = mkDisk (Some 50) [] /\
  state (fst (run 35%nat)) = GAME_STATE_GAME_OVER /\
  score (fst (run 35%nat)) = 70 /\
  snd (run 35%nat) = mkDisk (Some 70) [70] /\
  run 41%nat = run 35%nat.
Proof. vm_compute. repeat split. Qed.

(** ** Pause, keys and quitting *)

Section Events.

Variable RAND_MAX : Z.

Lemma run_ticks_frozen dt envs g d :
  state g <> GAME_STATE_PLAYING -> run_ticks RAND_MAX dt envs (g, d) = (g, d).
Proof.
  intros Hs. unfold run_ticks.
  induction envs as [|env rest IH]; [reflexivity|].
  cbn [fold_left]. unfold update_game at 2.
  destruct (state g); try contradiction; cbn [GameState_eqb negb]; exact IH.
Qed.

Lemma set_state_twice s g : set_state (state g) (set_state s g) = g.
Proof. destruct g; reflexivity. Qed.

(** X13.  Pausing freezes the game and resuming restores it: after the
    pause key in PLAYING, any number of ticks changes neither the game
    nor the file, and the pause key then gives back the very game that
    was paused.  In MENU and in GAME_OVER too, ticks change nothing. *)
Theorem pause_freezes (t1 t2 : Z) (dt : float) (envs : list TickEnv)
        (g : Game) (d : Disk) :
  state g = GAME_STATE_PLAYING ->
  let paused := handle_key_down t1 g SDLK_p in
  state paused = GAME_STATE_PAUSED /\
  run_ticks RAND_MAX dt envs (paused, d) = (paused, d) /\
  handle_key_down t2 (fst (run_ticks RAND_MAX dt envs (paused, d))) SDLK_p = g /\
  forall g0 d0, state g0 <> GAME_STATE_PLAYING ->
    run_ticks RAND_MAX dt envs (g0, d0) = (g0, d0).
Proof.
  intros Hs paused.
  assert (Ep : paused = set_state GAME_STATE_PAUSED g)
    by (unfold paused, handle_key_down; rewrite Hs; reflexivity).
  assert (Sp : state paused = GAME_STATE_PAUSED) by (rewrite Ep; reflexivity).
  split; [exact Sp|].
  assert (Fr : run_ticks RAND_MAX dt envs (paused, d) = (paused, d))
    by (apply run_ticks_frozen; rewrite Sp; discriminate).
  split; [exact Fr|]. split.
  - rewrite Fr. cbn [fst]. unfold handle_key_down. rewrite Sp.
    cbn [GameState_eqb]. rewrite Ep, <- Hs. apply set_state_twice.
  - intros g0 d0. apply run_ticks_frozen.
Qed.

Lemma process_events_app evs1 evs2 g :
  process_events (evs1 ++ evs2) g = process_events evs2 (process_events evs1 g).
Proof. unfold process_events. apply fold_left_app. Qed.

Lemma process_event_repeat g te :
  is_repeat te = true -> process_event g te = g.
Proof.
  unfold is_repeat, process_event. destruct (snd te) as [|rep sym|sym|];
    try discriminate.
  destruct (rep =? 0); [discriminate|reflexivity].
Qed.

(** X14.  Key repeats are ignored: the presses the keyboard repeats
    while a key is held change nothing, so [process_events] gives the
    same game on a queue and on the queue without its repeats.  Holding
    Enter or P does not restart or toggle again. *)
Theorem process_events_ignores_repeats (evs : list (Z * SDL_Event)) (g : Game) :
  process_events evs g =
  process_events (List.filter (fun te => negb (is_repeat te)) evs) g /\
  (Forall (fun te => is_repeat te = true) evs -> process_events evs g = g).
Proof.
  split.
  - revert g. induction evs as [|te rest IH]; intros g; [reflexivity|].
    cbn [List.filter]. unfold process_events in *. cbn [fold_left].
    destruct (is_repeat te) eqn:E; cbn [negb].
    + rewrite (process_event_repeat g te E). apply IH.
    + cbn [fold_left]. apply IH.
  - intros H. revert g. induction H as [|te rest Hr _ IH]; intros g;
      [reflexivity|].
    unfold process_events in *. cbn [fold_left].
    rewrite (process_event_repeat g te Hr). apply IH.
Qed.

Lemma process_events_ignores_repeats_witness :
  process_events [(5, SDL_KEYDOWN 1 SDLK_p); (6, SDL_KEYDOWN 1 SDLK_RETURN);
                  (7, SDL_KEYDOWN 1 SDLK_ESCAPE)]
                 game_about_to_crash = game_about_to_crash.
Proof.
  apply (proj2 (process_events_ignores_repeats
                  [(5, SDL_KEYDOWN 1 SDLK_p); (6, SDL_KEYDOWN 1 SDLK_RETURN);
                   (7, SDL_KEYDOWN 1 SDLK_ESCAPE)] game_about_to_crash)).
  repeat constructor.
Defined.

Lemma handle_key_down_running t g k :
  running (handle_key_down t g k) =
  match k with SDLK_ESCAPE => 0 | _ => running g end.
Proof. destruct k; cbn; try reflexivity; destruct (state g); reflexivity. Qed.

Lemma process_event_running g te :
  running (process_event g te) = if is_quit te then 0 else running g.
Proof.
  unfold process_event, is_quit. destruct (snd te) as [|rep sym|sym|].
  - reflexivity.
  - destruct (rep =? 0) eqn:E.
    + rewrite handle_key_down_running. destruct sym; rewrite ?E; reflexivity.
    + destruct sym; rewrite ?E; reflexivity.
  - destruct sym; reflexivity.
  - reflexivity.
Qed.

Lemma process_events_running evs : forall g,
  running (process_events evs g) = if existsb is_quit evs then 0 else running g.
Proof.
  unfold process_events.
  induction evs as [|te rest IH]; intros g; [reflexivity|].
  cbn [fold_left existsb]. rewrite IH, process_event_running.
  destruct (is_quit te), (existsb is_quit rest); reflexivity.
Qed.

Lemma update_game_running env dt g d :
  running (fst (update_game RAND_MAX env dt (g, d))) = running g.
Proof.
  unfold update_game.
  destruct (negb _); [reflexivity|].
  assert (Ha : running (advance RAND_MAX env dt g) = running g).
  { unfold advance, update_obstacles, spawn_obstacle.
    destruct (update_obstacles_loop _ _ _) as [obs sc].
    destruct (spawn_due _ _); [|reflexivity].
    cbn [obstacles]. destruct (find_free_slot _ _); reflexivity. }
  destruct (check_collisions _); [|exact Ha].
  cbn [set_state highScore score].
  destruct (_ <? _); cbn [fst]; exact Ha.
Qed.

Lemma frame_running inp t g d :
  running (fst (snd (frame RAND_MAX inp (t, (g, d))))) =
  if quits inp then 0 else running g.
Proof.
  rewrite frame_snd, update_game_running, process_events_running.
  reflexivity.
Qed.

(** X15.  Only a quit request stops the game: after [process_events]
    the [running] flag is 0 exactly if it was 0 before or the queue holds
    the quit event or a first press of Escape; a tick never changes it.
    Nothing sets the flag again once it is 0. *)
Theorem running_cleared_by_quit (evs : list (Z * SDL_Event)) (g : Game)
        (env : TickEnv) (dt : float) (d : Disk) :
  running (process_events evs g) =
    (if existsb is_quit evs then 0 else running g) /\
  running (fst (update_game RAND_MAX env dt (g, d))) = running g /\
  (running g = 0 -> running (process_events evs g) = 0).
Proof.
  split; [apply process_events_running|].
  split; [apply update_game_running|].
  intros H. rewrite process_events_running, H.
  destruct (existsb is_quit evs); reflexivity.
Qed.

End Events.

Lemma pause_freezes_witness :
  handle_key_down 9
    (fst (run_ticks RAND_MAX_glibc f0_1 spawning_envs
            (handle_key_down 3 game_about_to_crash SDLK_p, mkDisk None [])))
    SDLK_p = game_about_to_crash.
Proof.
  exact (proj1 (proj2 (proj2 (pause_freezes RAND_MAX_glibc 3 9 f0_1
           spawning_envs game_about_to_crash (mkDisk None []) eq_refl)))).
Defined.

(** ** Set-up, the main loop and tear-down *)

Section Main.

Variable RAND_MAX : Z.

Lemma init_sdl_ok e :
  fst (fst (init_sdl e zero_handles)) =
  sdl_init_ok e && create_window_ok e && create_renderer_ok e.
Proof. destruct e as [[] [] []]; reflexivity. Qed.

Lemma init_game_cases e ticks d :
  (sdl_init_ok e && create_window_ok e && create_renderer_ok e = true /\
   init_game e ticks d =
   (Some (reset_gameplay ticks
            (set_highScore (load_high_score d)
               (set_rightPressed 0 (set_leftPressed 0
                  (set_state GAME_STATE_MENU (set_running 1 zero_game)))))),
    mkHandles true true,
    [SDL_Init true; SDL_CreateWindow true; SDL_CreateRenderer true;
     SDL_SetRenderDrawBlendMode])) \/
  (sdl_init_ok e && create_window_ok e && create_renderer_ok e = false /\
   exists h calls, init_game e ticks d = (None, h, calls) /\
     sdl_run nothing_held calls = Some nothing_held).
Proof.
  destruct e as [[] [] []]; cbn;
    try (left; split; reflexivity);
    right; (split; [reflexivity|]); eexists _, _; split; reflexivity.
Qed.

(** X16.  [init_game] either fails, exactly when one of the three SDL
    calls fails, or leaves the game at the menu: running, score 0, a
    fresh run, 64 free slots, no key held, no collision, and as high
    score the integer of the file, 0 when there is no readable one. *)
Theorem init_game_start (e : SdlEnv) (ticks : Z) (d : Disk) :
  (sdl_init_ok e && create_window_ok e && create_renderer_ok e = false ->
   fst (fst (init_game e ticks d)) = None) /\
  (sdl_init_ok e && create_window_ok e && create_renderer_ok e = true ->
   exists g, fst (fst (init_game e ticks d)) = Some g /\
     running g = 1 /\ state g = GAME_STATE_MENU /\
     fresh_run ticks g /\
     length (obstacles g) = MAX_OBSTACLES /\
     leftPressed g = 0 /\ rightPressed g = 0 /\
     check_collisions g = false /\
     highScore g = load_high_score d /\
     (file d = None -> highScore g = 0)).
Proof.
  destruct (init_game_cases e ticks d) as [[Hok E]|[Hok (h & calls & E & _)]];
    rewrite Hok, E; cbn [fst]; (split; [intros; try discriminate; reflexivity|]);
    intros H; [|discriminate].
  eexists. split; [reflexivity|].
  split; [reflexivity|]. split; [reflexivity|].
  split; [apply reset_gameplay_fresh|].
  split; [reflexivity|]. split; [reflexivity|]. split; [reflexivity|].
  split; [reflexivity|]. split; [reflexivity|].
  intros Hf. cbn. unfold load_high_score. rewrite Hf. reflexivity.
Qed.

Lemma main_loop_stopped inputs t g d :
  running g = 0 -> main_loop RAND_MAX inputs (t, (g, d)) = (t, (g, d)).
Proof.
  intros H. destruct inputs as [|inp rest]; [reflexivity|].
  cbn [main_loop fst snd]. rewrite H. reflexivity.
Qed.

Lemma main_loop_no_quit inputs : forall t g d,
  Forall (fun inp => quits inp = false) inputs ->
  running (fst (snd (main_loop RAND_MAX inputs (t, (g, d))))) = running g.
Proof.
  induction inputs as [|inp rest IH]; intros t g d H; [reflexivity|].
  inversion H as [|? ? Hq Hrest]; subst. cbn [main_loop fst snd].
  destruct (running g =? 0) eqn:E; [reflexivity|].
  pose proof (frame_running RAND_MAX inp t g d) as Hr. rewrite Hq in Hr.
  destruct (frame RAND_MAX inp (t, (g, d))) as [t' [g' d']].
  cbn [fst snd] in Hr. rewrite IH by exact Hrest. exact Hr.
Qed.

Lemma main_loop_app inputs1 inputs2 st :
  main_loop RAND_MAX (inputs1 ++ inputs2) st =
  main_loop RAND_MAX inputs2 (main_loop RAND_MAX inputs1 st).
Proof.
  revert st. induction inputs1 as [|inp rest IH]; intros st; [reflexivity|].
  cbn [app main_loop]. destruct st as [t [g d]]. cbn [fst snd].
  destruct (running g =? 0) eqn:E; [|apply IH].
  apply Z.eqb_eq in E. rewrite main_loop_stopped by exact E. reflexivity.
Qed.

(** The loop runs the frames up to the first one that asks to quit,
    that one included, and no frame after it. *)
Lemma main_loop_quit pre q post t g d :
  running g <> 0 ->
  Forall (fun inp => quits inp = false) pre -> quits q = true ->
  main_loop RAND_MAX (pre ++ q :: post) (t, (g, d)) =
  main_loop RAND_MAX (pre ++ [q]) (t, (g, d)) /\
  running (fst (snd (main_loop RAND_MAX (pre ++ [q]) (t, (g, d))))) = 0 /\
  main_loop RAND_MAX (pre ++ [q]) (t, (g, d)) =
  frame RAND_MAX q (main_loop RAND_MAX pre (t, (g, d))).
Proof.
  intros Hr Hpre Hq.
  pose proof (main_loop_no_quit pre t g d Hpre) as Hrun.
  rewrite !main_loop_app.
  destruct (main_loop RAND_MAX pre (t, (g, d))) as [t1 [g1 d1]].
  cbn [fst snd] in Hrun. cbn [main_loop fst snd].
  assert (E : (running g1 =? 0) = false) by (apply Z.eqb_neq; congruence).
  rewrite E.
  pose proof (frame_running RAND_MAX q t1 g1 d1) as Hf. rewrite Hq in Hf.
  destruct (frame RAND_MAX q (t1, (g1, d1))) as [t2 [g2 d2]].
  cbn [fst snd] in Hf. rewrite main_loop_stopped by exact Hf.
  repeat split. exact Hf.
Qed.

(** X17.  [main] leaves the loop with the frame that asks to quit: the
    frames before it and that frame itself are run in full (the tick of
    the quitting frame included), no later frame is, the renderer and
    the window are destroyed, and the exit status is [EXIT_SUCCESS].
    While no frame asks to quit the loop goes on. *)
Theorem main_exits_on_quit (e : SdlEnv) (ticks lastTicks : Z) (d : Disk)
        (pre post : list FrameInput) (q : FrameInput) :
  sdl_init_ok e && create_window_ok e && create_renderer_ok e = true ->
  Forall (fun inp => quits inp = false) pre -> quits q = true ->
  exists g,
    fst (fst (init_game e ticks d)) = Some g /\
    main RAND_MAX e ticks lastTicks d (pre ++ q :: post) =
      Some (EXIT_SUCCESS,
            snd (snd (frame RAND_MAX q
                        (main_loop RAND_MAX pre (lastTicks, (g, d))))),
            [SDL_Init true; SDL_CreateWindow true; SDL_CreateRenderer true;
             SDL_SetRenderDrawBlendMode;
             SDL_DestroyRenderer; SDL_DestroyWindow; SDL_Quit]) /\
    main RAND_MAX e ticks lastTicks d pre = None.
Proof.
  intros Hok Hpre Hq.
  destruct (init_game_cases e ticks d) as [[_ E]|[Hno _]]; [|congruence].
  eexists. split; [rewrite E; reflexivity|].
  unfold main. rewrite E.
  set (g := reset_gameplay ticks _).
  assert (Hr : running g <> 0) by (cbn; discriminate).
  destruct (main_loop_quit pre q post lastTicks g d Hr Hpre Hq)
    as (E1 & E2 & E3).
  rewrite E1. rewrite E3 in *.
  pose proof (main_loop_no_quit pre lastTicks g d Hpre) as Hrun.
  destruct (main_loop RAND_MAX pre (lastTicks, (g, d))) as [t1 [g1 d1]].
  destruct (frame RAND_MAX q (t1, (g1, d1))) as [t2 [g2 d2]].
  cbn [fst snd] in *. rewrite E2. cbn [Z.eqb].
  split; [reflexivity|].
  assert (E0 : (running g1 =? 0) = false) by (apply Z.eqb_neq; congruence).
  rewrite E0. reflexivity.
Qed.

(** X18.  [main] never leaks and never releases twice.  However SDL's
    set-up goes and whatever the frames bring, when [main] returns its
    calls are a legal sequence that leaves nothing held: the window is
    created only after [SDL_Init], destroyed only if it was created, the
    renderer before the window, [SDL_Quit] last and only if [SDL_Init]
    succeeded.  The exit status is [EXIT_FAILURE] exactly when the set-up
    failed, and then the high score file is untouched. *)
Theorem main_releases_everything (e : SdlEnv) (ticks lastTicks : Z) (d : Disk)
        (inputs : list FrameInput) (code : Z) (d' : Disk)
        (calls : list SDL_Call) :
  main RAND_MAX e ticks lastTicks d inputs = Some (code, d', calls) ->
  sdl_run nothing_held calls = Some nothing_held /\
  (code = EXIT_FAILURE <->
   sdl_init_ok e && create_window_ok e && create_renderer_ok e = false) /\
  (code = EXIT_SUCCESS \/ code = EXIT_FAILURE) /\
  (code = EXIT_FAILURE -> d' = d).
Proof.
  unfold main. intros H.
  destruct (init_game_cases e ticks d) as [[Hok E]|[Hok (h & c & E & Hc)]];
    rewrite E in H.
  - destruct (main_loop RAND_MAX inputs _) as [t1 [g1 d1]].
    destruct (running g1 =? 0); [|discriminate].
    injection H as <- <- <-. rewrite Hok.
    split; [reflexivity|]. split; [split; discriminate|].
    split; [left; reflexivity|discriminate].
  - injection H as <- <- <-. rewrite Hok.
    split; [exact Hc|]. split; [split; reflexivity|].
    split; [right; reflexivity|reflexivity].
Qed.

End Main.

Lemma main_exits_on_quit_witness :
  exists d' calls,
    main RAND_MAX_glibc sdl_all_ok 0 0 (mkDisk (Some 50) [])
         (session_inputs ++
          mkFrameInput 4200 [(4200, SDL_QUIT)] quiet_env :: session_inputs) =
    Some (EXIT_SUCCESS, d', calls).
Proof.
  destruct (main_exits_on_quit RAND_MAX_glibc sdl_all_ok 0 0
              (mkDisk (Some 50) []) session_inputs session_inputs
              (mkFrameInput 4200 [(4200, SDL_QUIT)] quiet_env))
    as (g & _ & E & _).
  - reflexivity.
  - unfold session_inputs. repeat constructor.
  - reflexivity.
  - eexists _, _. exact E.
Defined.

Lemma main_releases_everything_witness :
  sdl_run nothing_held
    [SDL_Init true; SDL_CreateWindow true; SDL_CreateRenderer false;
     SDL_DestroyWindow; SDL_Quit] = Some nothing_held.
Proof.
  exact (proj1 (main_releases_everything RAND_MAX_glibc
           (mkSdlEnv true true false) 0 0 (mkDisk None []) session_inputs
           EXIT_FAILURE (mkDisk None [])
           [SDL_Init true; SDL_CreateWindow true; SDL_CreateRenderer false;
            SDL_DestroyWindow; SDL_Quit] eq_refl)).
Defined.

(** ** Timing: the spawn interval, the spawn test and the frame time *)

Section Timing.

Variable RAND_MAX : Z.

Lemma below_bound (k : nat) (f : nat -> bool) :
  forallb f (seq 0 k) = true -> forall n, (n < k)%nat -> f n = true.
Proof.
  intros H n Hn. rewrite forallb_forall in H. apply H, in_seq. lia.
Qed.

Lemma interval_after_floor n :
  (107 <= n)%nat -> interval_after n = OBSTACLE_MIN_INTERVAL.
Proof.
  intros Hn. replace n with ((n - 107) + 107)%nat by lia.
  induction (n - 107)%nat as [|k IH].
  - vm_compute. reflexivity.
  - cbn [Nat.add interval_after]. rewrite IH. vm_compute. reflexivity.
Qed.

(** X19.  The spawn interval of a run goes down with every spawn for
    the first 107 spawns and then stays at 140 ms: after [n] spawns it is
    [interval_after n], strictly below the one before while [n < 107],
    and exactly the floor from the 107th spawn on. *)
Theorem spawn_interval_floor (env : TickEnv) (g : Game) (n : nat) :
  spawnIntervalMs g = interval_after n ->
  find_free_slot (obstacles g) 0 <> None ->
  spawnIntervalMs (spawn_obstacle RAND_MAX env g) = interval_after (S n) /\
  ((n < 107)%nat ->
   flt (interval_after (S n)) (interval_after n) = true /\
   ((n < 106)%nat ->
    flt OBSTACLE_MIN_INTERVAL (interval_after (S n)) = true)) /\
  ((107 <= n)%nat ->
   spawnIntervalMs g = OBSTACLE_MIN_INTERVAL /\
   spawnIntervalMs (spawn_obstacle RAND_MAX env g) = OBSTACLE_MIN_INTERVAL) /\
  (forall ticks g0, spawnIntervalMs (reset_gameplay ticks g0) = interval_after 0).
Proof.
  intros Hi Hfree.
  assert (E : spawnIntervalMs (spawn_obstacle RAND_MAX env g) =
              interval_after (S n)).
  { unfold spawn_obstacle.
    destruct (find_free_slot (obstacles g) 0); [|congruence].
    cbn [spawnIntervalMs interval_after]. rewrite Hi. reflexivity. }
  split; [exact E|]. split; [|split].
  - intros Hn.
    pose proof (below_bound 107
      (fun k => flt (interval_after (S k)) (interval_after k)
                && (if (k <? 106)%nat
                    then flt OBSTACLE_MIN_INTERVAL (interval_after (S k))
                    else true))
      ltac:(vm_compute; reflexivity) n Hn) as H.
    apply andb_true_iff in H as [H1 H2]. split; [exact H1|].
    intros Hn'. apply Nat.ltb_lt in Hn'. rewrite Hn' in H2. exact H2.
  - intros Hn. rewrite E, Hi.
    split; apply interval_after_floor; lia.
  - reflexivity.
Qed.

Lemma RND_exact c r : nnf c -> RND (B2R c) r -> nnf r /\ B2R r = B2R c.
Proof.
  intros Hc H.
  destruct (RND_le _ _ c H Hc) as [Hn Hle]; [lra|].
  destruct (RND_ge _ _ c H Hc) as [->|[_ Hge]]; [lra|destruct Hn|].
  split; [exact Hn|lra].
Qed.

(** Integers up to 2^24 are binary32 numbers. *)
Lemma int_float n :
  0 < n <= 2 ^ 24 -> exists c, nnf c /\ B2R c = IZR n.
Proof.
  intros Hn.
  set (k := 23 - Z.log2 n).
  pose proof (Z.log2_spec n ltac:(lia)) as [Hlo Hhi].
  assert (Hl24 : Z.log2 n <= 24).
  { destruct (Z_le_gt_dec (Z.log2 n) 24) as [H|H]; [exact H|].
    assert (2 ^ 25 <= 2 ^ Z.log2 n) by (apply Z.pow_le_mono_r; lia). lia. }
  assert (Hl0 : 0 <= Z.log2 n) by apply Z.log2_nonneg.
  destruct (Z.eq_dec (Z.log2 n) 24) as [E24|N24].
  - assert (n = 2 ^ 24) by (rewrite E24 in Hlo; lia). subst n.
    exists (S754_finite false 8388608 1). split; [reflexivity|].
    cbn [B2R]. rewrite bpow_1, <- !mult_IZR. reflexivity.
  - assert (Hk : 0 <= k) by (unfold k; lia).
    assert (Hm : 2 ^ 23 <= n * 2 ^ k < 2 ^ 24).
    { replace (2 ^ 23) with (2 ^ Z.log2 n * 2 ^ k)
        by (rewrite <- Z.pow_add_r by lia; f_equal; unfold k; lia).
      replace (2 ^ 24) with (2 ^ Z.succ (Z.log2 n) * 2 ^ k)
        by (rewrite <- Z.pow_add_r by lia; f_equal; unfold k; lia).
      assert (0 < 2 ^ k) by (apply Z.pow_pos_nonneg; lia). nia. }
    destruct (n * 2 ^ k) as [|p|p] eqn:Ep; try lia.
    exists (S754_finite false p (- k)). split.
    + apply bounded_intro; [unfold k; lia|lia|lia].
    + apply (B2R_int p k n Hk). lia.
Qed.

Lemma of_int_exact n :
  0 <= n <= 2 ^ 24 -> nnf (of_int n) /\ B2R (of_int n) = IZR n.
Proof.
  intros Hn. destruct (Z.eq_dec n 0) as [->|N0]; [split; reflexivity|].
  destruct (int_float n ltac:(lia)) as (c & Hc & Ec).
  rewrite <- Ec. apply RND_exact; [exact Hc|].
  rewrite Ec. apply of_int_RND. lia.
Qed.

Lemma of_int_u32 n :
  0 <= n < 2 ^ 32 -> nnf (of_int n) /\ (B2R (of_int n) <= 4294967296)%R.
Proof.
  intros Hn.
  set (c := S754_finite false 8388608 9).
  assert (Hc : nnf c) by reflexivity.
  assert (HcR : B2R c = 4294967296%R).
  { unfold c; cbn [B2R]. rewrite (bpow_IZR 9) by lia. rewrite <- !mult_IZR.
    reflexivity. }
  rewrite <- HcR. apply (RND_le (IZR n)); [apply of_int_RND; lia|exact Hc|].
  rewrite HcR. apply IZR_le. lia.
Qed.

(** X20.  The spawn test is exact: converting the elapsed milliseconds
    to [float] loses nothing that matters, so a spawn is due exactly when
    the milliseconds since the last spawn, taken modulo 2^32 as the tick
    counter wraps, are at least the spawn interval. *)
Theorem spawn_due_exact (env : TickEnv) (g : Game) :
  nnf (spawnIntervalMs g) ->
  (B2R (spawnIntervalMs g) <= 16777216)%R ->
  spawn_due env g = true <->
  (B2R (spawnIntervalMs g) <=
   IZR (wrap_u32 (now env - lastSpawnTicks g)))%R.
Proof.
  intros Hi Hmax. unfold spawn_due, fge.
  set (n := wrap_u32 (now env - lastSpawnTicks g)).
  assert (Hn : 0 <= n < 2 ^ 32)
    by (subst n; unfold wrap_u32; apply Z.mod_pos_bound; lia).
  destruct (of_int_u32 n Hn) as [Hf _].
  rewrite (fle_nnf _ _ Hi Hf).
  destruct (Z_le_gt_dec n (2 ^ 24)) as [Hs|Hb].
  - destruct (of_int_exact n ltac:(lia)) as [_ ->]. reflexivity.
  - assert (H24 : (16777216 <= IZR n)%R) by (apply IZR_le; lia).
    destruct (of_int_exact (2 ^ 24) ltac:(lia)) as [Hc Ec].
    destruct (RND_ge _ _ (of_int (2 ^ 24)) (of_int_RND n ltac:(lia)) Hc)
      as [E|[_ Hge]].
    + rewrite Ec. exact H24.
    + rewrite E in Hf. destruct Hf.
    + rewrite Ec in Hge. change (IZR (2 ^ 24)) with 16777216%R in Hge.
      split; intros _; lra.
Qed.

Lemma SFcompare_Eq_nnf a b :
  nnf a -> nnf b -> (0 < B2R a)%R -> B2R a = B2R b -> a = b.
Proof.
  intros Ha Hb Hpos Heq.
  destruct (nnf_pos_finite a Ha Hpos) as (ma & ea & ->).
  destruct (nnf_pos_finite b Hb ltac:(lra)) as (mb & eb & ->).
  destruct (compare_nnf _ _ Ha Hb) as [[_ H]|[[Hc _]|[_ H]]]; try lra.
  cbn in Hc. destruct (Z.compare_spec ea eb) as [E|E|E]; try discriminate.
  injection Hc as Hc. apply Pos.compare_eq in Hc. congruence.
Qed.

(** X21.  The time step of the main loop is capped: every frame of
    100 ms or more counts as exactly [0.1f] and earns 2 points of time
    score; a frame of 50 to 99 ms earns 1 point; a frame of length 0
    passes no time at all. *)
Theorem frame_dt_capped (ms : Z) :
  0 <= ms < 2 ^ 32 ->
  (100 <= ms -> frame_dt ms = f0_1 /\ time_points (frame_dt ms) = 2) /\
  (50 <= ms < 100 -> time_points (frame_dt ms) = 1) /\
  frame_dt 0 = f0 /\ time_points (frame_dt 0) = 0.
Proof.
  intros Hms. split; [|split; [|split; reflexivity]].
  - intros H100.
    assert (E : frame_dt ms = f0_1); [|rewrite E; split; reflexivity].
    unfold frame_dt, wrap_u32. rewrite Z.mod_small by lia.
    destruct (fgt (fdiv (of_int ms) f1000) f0_1) eqn:Eg; [reflexivity|].
    destruct (of_int_u32 ms Hms) as [Hf Hle].
    assert (H1000 : nnf f1000) by reflexivity.
    assert (R1000 : B2R f1000 = 1000%R)
      by (apply (B2R_int _ 14 1000); [lia|reflexivity]).
    assert (Hq : RND (B2R (of_int ms) / B2R f1000) (fdiv (of_int ms) f1000))
      by (apply fdiv_RND; try assumption; lra).
    assert (H01 : RND (B2R (of_int 100) / B2R f1000) f0_1).
    { change f0_1 with (fdiv (of_int 100) f1000).
      apply fdiv_RND; [reflexivity|reflexivity|lra]. }
    assert (Hge : (B2R (of_int 100) <= B2R (of_int ms))%R).
    { destruct (RND_ge _ _ (of_int 100) (of_int_RND ms ltac:(lia)))
        as [E|[_ H]]; [reflexivity| | |exact H].
      - rewrite B2R_100. apply IZR_le. lia.
      - rewrite E in Hf. destruct Hf. }
    assert (Hmono : fle f0_1 (fdiv (of_int ms) f1000) = true).
    { apply (RND_mono _ _ _ _ H01 Hq). rewrite R1000.
      unfold Rdiv. apply Rmult_le_compat_r; [lra|exact Hge]. }
    assert (Hd : nnf (fdiv (of_int ms) f1000)).
    { set (c := S754_finite false 8388608 9).
      assert (HcR : B2R c = 4294967296%R).
      { unfold c; cbn [B2R]. rewrite (bpow_IZR 9) by lia.
        rewrite <- !mult_IZR. reflexivity. }
      apply (RND_le _ _ c Hq); [reflexivity|].
      rewrite R1000, HcR. pose proof (nnf_nonneg _ Hf). unfold Rdiv. lra. }
    assert (Hle' : fle (fdiv (of_int ms) f1000) f0_1 = true).
    { apply flt_false_fle; [reflexivity|apply nnf_not_nan, Hd|exact Eg]. }
    assert (H01n : nnf f0_1) by reflexivity.
    apply (fle_nnf _ _ H01n Hd) in Hmono. apply (fle_nnf _ _ Hd H01n) in Hle'.
    apply SFcompare_Eq_nnf; try assumption; [|lra].
    pose proof B2R_f0_1. lra.
  - intros H.
    pose proof (below_bound 50
      (fun k => time_points (frame_dt (50 + Z.of_nat k)) =? 1)
      ltac:(vm_compute; reflexivity) (Z.to_nat (ms - 50)) ltac:(lia)) as E.
    cbv beta in E. rewrite Z2Nat.id in E by lia.
    replace (50 + (ms - 50)) with ms in E by lia.
    apply Z.eqb_eq, E.
Qed.

End Timing.

Lemma spawn_interval_floor_witness :
  spawnIntervalMs (spawn_obstacle RAND_MAX_glibc quiet_env fresh_game) =
  interval_after 1 /\
  flt (interval_after 1) (interval_after 0) = true.
Proof.
  assert (Hfree : find_free_slot (obstacles fresh_game) 0 <> None)
    by discriminate.
  destruct (spawn_interval_floor RAND_MAX_glibc quiet_env fresh_game 0
              eq_refl Hfree) as (H1 & H2 & _).
  split; [exact H1|]. exact (proj1 (H2 ltac:(lia))).
Defined.

Lemma spawn_due_exact_witness :
  spawn_due (mkTickEnv 700 700 0 0 true true true) fresh_game = true.
Proof.
  apply (spawn_due_exact (mkTickEnv 700 700 0 0 true true true) fresh_game).
  - reflexivity.
  - change (spawnIntervalMs fresh_game) with (of_int 700).
    rewrite (proj2 (of_int_exact 700 ltac:(lia))). lra.
  - change (spawnIntervalMs fresh_game) with (of_int 700).
    rewrite (proj2 (of_int_exact 700 ltac:(lia))).
    change (wrap_u32 _) with 700. lra.
Defined.

Lemma frame_dt_capped_witness :
  frame_dt 250 = f0_1 /\ time_points (frame_dt 250) = 2.
Proof.
  apply (frame_dt_capped 250); lia.
Defined.

(** ** Every game the program reaches is well formed *)

Section Bounds.

Lemma B2R_ELAPSED_MAX : B2R ELAPSED_MAX = 2097152%R.
Proof. apply (B2R_int _ 2 2097152); [lia|reflexivity]. Qed.

Lemma B2R_SPEED_MAX : B2R SPEED_MAX = 12583112%R.
Proof. cbn [SPEED_MAX B2R]. rewrite bpow_0. lra. Qed.

Lemma B2R_600 : B2R fWINDOW_HEIGHT = 600%R.
Proof. apply (B2R_int _ 14 600); [lia|reflexivity]. Qed.

Lemma B2R_700 : B2R OBSTACLE_BASE_INTERVAL = 700%R.
Proof. apply (B2R_int _ 14 700); [lia|reflexivity]. Qed.

Lemma B2R_min_interval : B2R OBSTACLE_MIN_INTERVAL = 140%R.
Proof. apply (B2R_int _ 16 140); [lia|reflexivity]. Qed.

Lemma B2R_h20 : B2R OBSTACLE_HEIGHT = 20%R.
Proof. apply (B2R_int _ 19 20); [lia|reflexivity]. Qed.

Lemma f0_1_le : (B2R f0_1 <= 1 / 8)%R.
Proof. pose proof B2R_f0_1. lra. Qed.

(** The elapsed time stays at or below 2^21 s. *)
Lemma elapsed_step e dt :
  nnf e -> fle e ELAPSED_MAX = true -> nnf dt -> fle dt f0_1 = true ->
  nnf (fadd e dt) /\ fle (fadd e dt) ELAPSED_MAX = true.
Proof.
  intros He Hle Hdt Hdle.
  assert (HM : nnf ELAPSED_MAX) by reflexivity.
  apply (proj1 (fle_nnf _ _ He HM)) in Hle. rewrite B2R_ELAPSED_MAX in Hle.
  assert (H01 : nnf f0_1) by reflexivity.
  apply (proj1 (fle_nnf _ _ Hdt H01)) in Hdle.
  pose proof (nnf_nonneg _ He) as He0. pose proof (nnf_nonneg _ Hdt) as Hd0.
  pose proof f0_1_le as H18.
  destruct (RND_le_tie _ _ 8388608 (-2) (fadd_RND e dt He Hdt))
    as [Hn Hb]; [reflexivity|reflexivity| |].
  - change (-2) with (- (2)). 
    assert (E : (bpow (- (2)) = / 4)%R).
    { pose proof (bpow_opp 2) as H. rewrite (bpow_IZR 2) in H by lia.
      change (IZR (2 ^ 2)) with 4%R in H. 
      apply (Rmult_eq_reg_l 4); [|lra]. rewrite H. lra. }
    rewrite E. lra.
  - split; [exact Hn|].
    apply fle_nnf; [exact Hn|exact HM|]. exact Hb.
Qed.

(** At 2^21 s the elapsed time stands still. *)
Lemma elapsed_stuck dt :
  nnf dt -> fle dt f0_1 = true -> fadd ELAPSED_MAX dt = ELAPSED_MAX.
Proof.
  intros Hdt Hdle.
  assert (HM : nnf ELAPSED_MAX) by reflexivity.
  destruct (elapsed_step ELAPSED_MAX dt HM eq_refl Hdt Hdle) as [Hn Hle].
  apply (proj1 (fle_nnf _ _ Hn HM)) in Hle.
  pose proof (nnf_nonneg _ Hdt) as Hd0.
  destruct (RND_ge _ _ ELAPSED_MAX (fadd_RND ELAPSED_MAX dt HM Hdt) HM)
    as [E|[_ Hge]]; [lra|rewrite E in Hn; destruct Hn|].
  apply SFcompare_Eq_nnf; [exact Hn|exact HM| |lra].
  rewrite B2R_ELAPSED_MAX in Hge. lra.
Qed.

Lemma nni_fle_nnf a c : nni a -> nnf c -> fle a c = true -> nnf a.
Proof.
  intros Ha Hc Hle.
  destruct (fle_nni_cases a c Ha (or_introl Hc) Hle) as [E|(H & _)];
    [|exact H].
  rewrite E in Hc. destruct Hc.
Qed.

(** The speed of a spawn is finite, between 200 and [SPEED_MAX]. *)
Lemma spawn_speed_range e :
  nnf e -> fle e ELAPSED_MAX = true ->
  nnf (spawn_speed e) /\
  fle OBSTACLE_BASE_SPEED (spawn_speed e) = true /\
  fle (spawn_speed e) SPEED_MAX = true.
Proof.
  intros He Hle.
  assert (HM : nnf ELAPSED_MAX) by reflexivity.
  assert (H0 : nnf f0) by exact I.
  assert (H0e : fle f0 e = true)
    by (apply fle_nnf; [exact I|exact He|apply nnf_nonneg, He]).
  pose proof (spawn_speed_mono f0 e H0 He H0e) as Hlo.
  pose proof (spawn_speed_mono e ELAPSED_MAX He HM Hle) as Hhi.
  change (spawn_speed f0) with OBSTACLE_BASE_SPEED in Hlo.
  change (spawn_speed ELAPSED_MAX) with SPEED_MAX in Hhi.
  assert (Hnni : nni (spawn_speed e)).
  { unfold spawn_speed.
    assert (Hinc : nnf OBSTACLE_SPEED_INCREMENT) by reflexivity.
    assert (Hbase : nnf OBSTACLE_BASE_SPEED) by reflexivity.
    assert (Hbpos : (0 < B2R OBSTACLE_BASE_SPEED)%R) by (rewrite B2R_200; lra).
    destruct (fmul_mono_r OBSTACLE_SPEED_INCREMENT e e Hinc B2R_increment)
      as (H1 & _ & L1);
      [left; assumption|left; assumption|
       apply fle_refl, nnf_not_nan, He|].
    destruct (fmul_mono_l OBSTACLE_BASE_SPEED _ _ Hbase Hbpos H1 H1 L1)
      as (H2 & _ & L2).
    destruct (fadd_mono_r OBSTACLE_BASE_SPEED _ _ Hbase H2 H2 L2)
      as (H3 & _). exact H3. }
  split; [|split; assumption].
  apply (nni_fle_nnf _ SPEED_MAX Hnni); [reflexivity|exact Hhi].
Qed.

Lemma moved_ok dt o :
  nnf dt -> fle dt f0_1 = true -> obstacle_ok o -> obstacle_ok (moved dt o).
Proof.
  intros Hdt Hdle Ho Hact.
  destruct (moved_spec dt o) as (Ex & Ew & Eh & Es & _ & Ey & Ea & _).
  destruct (Ea Hact) as [Eact Hfgt].
  assert (Hact0 : o_active o <> 0) by congruence.
  destruct (Ho Hact0)
    as (A1 & Hx & Hw & Hh & W1 & W2 & XW & XR & Hs & S1 & S2 & Hy & Y1 & Y2).
  rewrite Ex, Ew, Eh, Es, Eact.
  repeat (split; [assumption|]).
  assert (H01 : nnf f0_1) by reflexivity.
  apply (proj1 (fle_nnf _ _ Hdt H01)) in Hdle.
  assert (HSM : nnf SPEED_MAX) by reflexivity.
  apply (proj1 (fle_nnf _ _ Hs HSM)) in S2. rewrite B2R_SPEED_MAX in S2.
  pose proof (nnf_nonneg _ Hs) as Hs0. pose proof (nnf_nonneg _ Hdt) as Hd0.
  pose proof f0_1_le as H18.
  assert (HEM : nnf ELAPSED_MAX) by reflexivity.
  destruct (RND_le _ _ ELAPSED_MAX (fmul_RND _ _ Hs Hdt) HEM) as [Hd Hdb].
  { rewrite B2R_ELAPSED_MAX. nra. }
  rewrite B2R_ELAPSED_MAX in Hdb. pose proof (nnf_nonneg _ Hd) as Hdp.
  assert (H20 : fin32 (fneg OBSTACLE_HEIGHT)) by reflexivity.
  assert (H600 : fin32 fWINDOW_HEIGHT) by reflexivity.
  apply (proj1 (fle_fin32 _ _ H20 Hy)) in Y1.
  apply (proj1 (fle_fin32 _ _ Hy H600)) in Y2.
  rewrite B2R_fneg, B2R_h20 in Y1. rewrite B2R_600 in Y2.
  set (big := S754_finite false 8388608 (-1)).
  assert (Hbig : B2R big = 4194304%R)
    by (apply (B2R_int _ 1 4194304); [lia|reflexivity]).
  destruct (RNDs_between _ _ (fneg OBSTACLE_HEIGHT) big
              (fadd_RNDs _ _ Hy (nnf_fin32 _ Hd))) as [Hy' Hyb];
    [exact H20|reflexivity|rewrite B2R_fneg, B2R_h20, Hbig; lra|].
  rewrite (Ey Hact0) in *.
  split; [exact Hy'|].
  split; [apply fle_fin32; [exact H20|exact Hy'|exact (proj1 Hyb)]|].
  apply flt_false_fle;
    [reflexivity|apply fin32_not_nan, Hy'|exact Hfgt].
Qed.

Lemma inactive_ok obs :
  Forall (fun o => o_active o = 0) obs -> Forall obstacle_ok obs.
Proof.
  intros H. eapply Forall_impl; [exact H|].
  intros o Ho Hact. contradiction.
Qed.

Lemma game_ok_flags g r s l rt :
  game_ok g -> (s = GAME_STATE_GAME_OVER -> state g = GAME_STATE_GAME_OVER) ->
  game_ok (mkGame r s (player g) (obstacles g) (score g) (highScore g)
                  (elapsedTime g) (lastSpawnTicks g) (spawnIntervalMs g) l rt).
Proof.
  intros (H1 & H2 & H3 & H4 & H5 & H6 & H7 & H8 & H9 & H10 & H11 & H12) Hs.
  unfold game_ok; cbn. repeat (split; [assumption|]). auto.
Qed.

Lemma reset_gameplay_ok ticks g s :
  length (obstacles g) = MAX_OBSTACLES -> s <> GAME_STATE_GAME_OVER ->
  game_ok (set_state s (reset_gameplay ticks g)).
Proof.
  intros H1 Hs. unfold game_ok; cbn.
  split; [unfold reset_obstacles; rewrite length_map; exact H1|].
  split; [apply inactive_ok, reset_obstacles_inactive|].
  split; [reflexivity|]. split; [reflexivity|].
  split; [repeat split|].
  split; [exact I|]. split; [reflexivity|]. split; [reflexivity|].
  split; [reflexivity|]. split; [reflexivity|].
  split; [unfold is_int, F32.INT_MIN, F32.INT_MAX; lia|].
  intros E; contradiction.
Qed.

Lemma handle_key_down_ok t g k : game_ok g -> game_ok (handle_key_down t g k).
Proof.
  intros H. destruct k; cbn [handle_key_down];
    try (apply game_ok_flags; [exact H|tauto]); try exact H.
  - destruct (GameState_eqb (state g) GAME_STATE_MENU ||
              GameState_eqb (state g) GAME_STATE_GAME_OVER);
      [apply reset_gameplay_ok; [exact (proj1 H)|discriminate]|exact H].
  - destruct (GameState_eqb (state g) GAME_STATE_MENU ||
              GameState_eqb (state g) GAME_STATE_GAME_OVER);
      [apply reset_gameplay_ok; [exact (proj1 H)|discriminate]|exact H].
  - destruct (state g) eqn:Es; cbn [GameState_eqb]; try exact H;
      apply game_ok_flags; try exact H; discriminate.
Qed.

Lemma handle_key_up_ok g k : game_ok g -> game_ok (handle_key_up g k).
Proof.
  intros H. destruct k; cbn [handle_key_up]; try exact H;
    apply game_ok_flags; try exact H; tauto.
Qed.

Lemma process_events_ok evs g : game_ok g -> game_ok (process_events evs g).
Proof.
  apply process_events_invariant.
  - intros; apply handle_key_down_ok; assumption.
  - intros; apply handle_key_up_ok; assumption.
  - intros g1 H. apply game_ok_flags; [exact H|tauto].
Qed.

End Bounds.

Section WellFormed.

Variable RAND_MAX : Z.
Hypothesis RAND_MAX_int : 0 < RAND_MAX <= F32.INT_MAX.

Lemma new_obstacle_ok rw rx e :
  0 <= rw <= RAND_MAX -> 0 <= rx <= RAND_MAX ->
  nnf e -> fle e ELAPSED_MAX = true ->
  obstacle_ok (new_obstacle RAND_MAX rw rx e).
Proof.
  intros Hrw Hrx He Hle _.
  destruct (new_obstacle_geometry RAND_MAX RAND_MAX_int rw rx e Hrw Hrx)
    as (Hw & Hx & [Hw1 Hw2] & Hxw & Hs & Hs800).
  destruct (spawn_speed_range e He Hle) as (Hv & Hv1 & Hv2).
  split; [reflexivity|]. split; [exact Hx|]. split; [exact Hw|].
  split; [reflexivity|].
  split; [apply fle_nnf; [reflexivity|exact Hw|rewrite B2R_40; exact Hw1]|].
  split; [apply fle_nnf; [exact Hw|reflexivity|rewrite B2R_140; exact Hw2]|].
  split; [apply fle_nnf; [exact Hs|reflexivity|rewrite B2R_800; exact Hs800]|].
  split; [exact Hxw|].
  split; [exact Hv|]. split; [exact Hv1|]. split; [exact Hv2|].
  split; [reflexivity|]. split; reflexivity.
Qed.

(** A tick in PLAYING, up to the collision check. *)
Lemma advance_ok env dt g :
  game_ok g -> state g = GAME_STATE_PLAYING ->
  nnf dt -> fle dt f0_1 = true ->
  0 <= rand_w env <= RAND_MAX -> 0 <= rand_x env <= RAND_MAX ->
  game_ok (advance RAND_MAX env dt g) /\
  state (advance RAND_MAX env dt g) = GAME_STATE_PLAYING.
Proof.
  intros (H1 & H2 & H3 & H4 & H5 & H6 & H7 & H8 & H9 & H10 & H11 & H12)
         Hs Hdt Hdle Hrw Hrx.
  destruct (elapsed_step _ _ H6 H7 Hdt Hdle) as [E1 E2].
  pose proof (update_player_on_line dt (add_time dt g) H5 (nnf_fin32 _ Hdt))
    as P5.
  unfold advance.
  set (g2 := update_player dt (add_time dt g)) in *.
  set (g3 := update_obstacles dt g2).
  assert (K3 : game_ok g3 /\ state g3 = GAME_STATE_PLAYING).
  { destruct (update_obstacles_frame dt g2)
      as (F1 & F2 & F3 & F4 & F5 & F6 & _ & F8).
    fold g3 in F1, F2, F3, F4, F5, F6, F8.
    split; [|rewrite F1; exact Hs].
    unfold game_ok. rewrite F1, F2, F4, F6, F8.
    unfold g3 at 1 2. rewrite update_obstacles_map.
    split; [rewrite length_map; exact H1|].
    split.
    { apply Forall_fmap. eapply Forall_impl; [exact H2|].
      intros o Ho. apply moved_ok; assumption. }
    split; [exact H3|]. split; [exact H4|]. split; [exact P5|].
    split; [exact E1|]. split; [exact E2|].
    split; [exact H8|]. split; [exact H9|]. split; [exact H10|].
    split.
    { rewrite update_obstacles_loop_score by apply wrap_int_range.
      apply wrap_int_range. }
    cbn [state g2 update_player add_time]. rewrite Hs. discriminate. }
  destruct K3 as [K3 S3].
  destruct (spawn_due env g3); [|split; assumption].
  unfold spawn_obstacle.
  destruct (find_free_slot (obstacles g3) 0) as [idx|]; [|split; assumption].
  split; [|exact S3].
  destruct K3 as (G1 & G2 & G3 & G4 & G5 & G6 & G7 & G8 & G9 & G10 & G11 & G12).
  destruct (decay_interval_bounds _ G8 G9) as (D1 & D2 & D3).
  unfold game_ok; cbn.
  split; [rewrite length_insert; exact G1|].
  split.
  { apply Forall_insert; [exact G2|].
    apply new_obstacle_ok; assumption. }
  repeat (split; [assumption|]).
  split.
  { assert (HB : nnf OBSTACLE_BASE_INTERVAL) by reflexivity.
    apply fle_nnf; [exact D1|exact HB|].
    apply (proj1 (fle_nnf _ _ D1 G8)) in D3.
    apply (proj1 (fle_nnf _ _ G8 HB)) in G10. lra. }
  split; [exact G11|]. rewrite S3. discriminate.
Qed.

Lemma update_game_ok env dt g d :
  game_ok g -> nnf dt -> fle dt f0_1 = true ->
  0 <= rand_w env <= RAND_MAX -> 0 <= rand_x env <= RAND_MAX ->
  game_ok (fst (update_game RAND_MAX env dt (g, d))).
Proof.
  intros Hg Hdt Hdle Hrw Hrx. unfold update_game.
  destruct (state g) eqn:Hs; cbn [GameState_eqb negb fst]; try exact Hg.
  destruct (advance_ok env dt g Hg Hs Hdt Hdle Hrw Hrx) as [Ha Sa].
  destruct (check_collisions _); [|exact Ha].
  destruct Ha as (G1 & G2 & G3 & G4 & G5 & G6 & G7 & G8 & G9 & G10 & G11 & _).
  cbn [set_state highScore score].
  destruct (Z.ltb_spec (highScore (advance RAND_MAX env dt g))
                       (score (advance RAND_MAX env dt g))) as [L|L];
    unfold game_ok; cbn; repeat (split; [assumption|]); intros _; lia.
Qed.

Lemma set_state_same s g : state g = s -> set_state s g = g.
Proof. intros <-. destruct g; reflexivity. Qed.

Lemma init_game_ok e ticks d g h calls :
  init_game e ticks d = (Some g, h, calls) -> game_ok g.
Proof.
  intros H. apply init_game_some in H. subst g.
  set (g0 := set_highScore _ _).
  rewrite <- (set_state_same GAME_STATE_MENU (reset_gameplay ticks g0))
    by reflexivity.
  apply reset_gameplay_ok; [reflexivity|discriminate].
Qed.

Lemma frame_ok inp t g d :
  draws_ok RAND_MAX inp -> game_ok g ->
  game_ok (fst (snd (frame RAND_MAX inp (t, (g, d))))).
Proof.
  intros [Hw Hx] Hg. rewrite frame_snd.
  destruct (frame_dt_range (currentTicks inp - t)) as [Hdt Hdle].
  apply update_game_ok; try assumption.
  apply process_events_ok, Hg.
Qed.

(** What a well-formed game means in numbers. *)
Lemma game_ok_bounds g :
  game_ok g ->
  (0 <= B2R (p_x (player g)) <= 720)%R /\
  (0 <= B2R (elapsedTime g) <= 2097152)%R /\
  (140 <= B2R (spawnIntervalMs g) <= 700)%R /\
  forall i o, obstacles g !! i = Some o -> o_active o <> 0 ->
    (40 <= B2R (o_w o) <= 140)%R /\ (0 <= B2R (o_x o))%R /\
    (B2R (fadd (o_x o) (o_w o)) <= 800)%R /\
    (B2R (o_x o) + B2R (o_w o) <= 800 + / 2 * bpow (-14))%R /\
    (-20 <= B2R (o_y o) <= 600)%R /\
    (200 <= B2R (o_speed o) <= 12583112)%R /\
    is_finite (o_x o) = true /\ is_finite (o_y o) = true /\
    is_finite (o_w o) = true /\ is_finite (o_speed o) = true.
Proof.
  intros (H1 & H2 & H3 & H4 & (_ & _ & P1 & P2) & H6 & H7 & H8 & H9 & H10 & _).
  assert (N720 : nnf PLAYER_MAX_X) by reflexivity.
  assert (NEM : nnf ELAPSED_MAX) by reflexivity.
  assert (N140 : nnf OBSTACLE_MIN_INTERVAL) by reflexivity.
  assert (N700 : nnf OBSTACLE_BASE_INTERVAL) by reflexivity.
  assert (N40 : nnf OBSTACLE_MIN_WIDTH) by reflexivity.
  assert (NW140 : nnf OBSTACLE_MAX_WIDTH) by reflexivity.
  assert (N800 : nnf fWINDOW_WIDTH) by reflexivity.
  assert (N200 : nnf OBSTACLE_BASE_SPEED) by reflexivity.
  assert (NSM : nnf SPEED_MAX) by reflexivity.
  assert (F20 : fin32 (fneg OBSTACLE_HEIGHT)) by reflexivity.
  assert (F600 : fin32 fWINDOW_HEIGHT) by reflexivity.
  split.
  { pose proof (nnf_nonneg _ P1).
    apply (proj1 (fle_nnf _ _ P1 N720)) in P2.
    rewrite B2R_720 in P2. lra. }
  split.
  { pose proof (nnf_nonneg _ H6).
    apply (proj1 (fle_nnf _ _ H6 NEM)) in H7.
    rewrite B2R_ELAPSED_MAX in H7. lra. }
  split.
  { apply (proj1 (fle_nnf _ _ N140 H8)) in H9.
    apply (proj1 (fle_nnf _ _ H8 N700)) in H10.
    rewrite B2R_min_interval in H9. rewrite B2R_700 in H10. lra. }
  intros i o Hl Hact.
  pose proof (proj1 (Forall_lookup _ _) H2 i o Hl Hact)
    as (A1 & Hx & Hw & Hh & W1 & W2 & XW & XR & Hs & S1 & S2 & Hy & Y1 & Y2).
  apply (proj1 (fle_nnf _ _ N40 Hw)) in W1.
  apply (proj1 (fle_nnf _ _ Hw NW140)) in W2.
  rewrite B2R_40 in W1. rewrite B2R_140 in W2.
  assert (Hsum : nnf (fadd (o_x o) (o_w o))).
  { apply (nni_fle_nnf _ fWINDOW_WIDTH); [|exact N800|exact XW].
    eapply RND_nni, fadd_RND; assumption. }
  apply (proj1 (fle_nnf _ _ Hsum N800)) in XW.
  rewrite B2R_800 in XW.
  apply (proj1 (fle_nnf _ _ N200 Hs)) in S1.
  apply (proj1 (fle_nnf _ _ Hs NSM)) in S2.
  rewrite B2R_200 in S1. rewrite B2R_SPEED_MAX in S2.
  apply (proj1 (fle_fin32 _ _ F20 Hy)) in Y1.
  apply (proj1 (fle_fin32 _ _ Hy F600)) in Y2.
  rewrite B2R_fneg, B2R_h20 in Y1. rewrite B2R_600 in Y2.
  pose proof (nnf_nonneg _ Hx).
  repeat split; try lra; try assumption;
    first [apply nnf_is_finite; assumption|apply fin32_is_finite; assumption].
Qed.

(** X22.  Every game the program reaches is well formed.  From the
    game [init_game] leaves, or any well-formed game, the main loop keeps
    the pool at 64 slots, the player on its line in [0, 720], the elapsed
    time in [0, 2^21] s, the spawn interval in [140, 700] ms, and every
    active obstacle 40 to 140 wide, inside the window from side to side,
    between its start row -20 and the bottom edge 600, with a speed
    between 200 and 12583112: no NaN and no infinity ever enters the
    game, whatever the keys, the clock and the draws of [rand].  At
    2^21 s the elapsed time stands still: adding a time step of the main
    loop rounds back to 2^21, so the speed of new obstacles grows no
    further. *)
Theorem main_loop_well_formed (inputs : list FrameInput) (t : Z)
        (g : Game) (d : Disk) :
  game_ok g -> Forall (draws_ok RAND_MAX) inputs ->
  let g' := fst (snd (main_loop RAND_MAX inputs (t, (g, d)))) in
  game_ok g' /\
  length (obstacles g') = MAX_OBSTACLES /\
  (0 <= B2R (p_x (player g')) <= 720)%R /\
  (0 <= B2R (elapsedTime g') <= 2097152)%R /\
  (140 <= B2R (spawnIntervalMs g') <= 700)%R /\
  (forall i o, obstacles g' !! i = Some o -> o_active o <> 0 ->
    (40 <= B2R (o_w o) <= 140)%R /\ (0 <= B2R (o_x o))%R /\
    (B2R (fadd (o_x o) (o_w o)) <= 800)%R /\
    (B2R (o_x o) + B2R (o_w o) <= 800 + / 2 * bpow (-14))%R /\
    (-20 <= B2R (o_y o) <= 600)%R /\
    (200 <= B2R (o_speed o) <= 12583112)%R /\
    is_finite (o_x o) = true /\ is_finite (o_y o) = true /\
    is_finite (o_w o) = true /\ is_finite (o_speed o) = true) /\
  (forall e ticks d0 g0 h calls,
     init_game e ticks d0 = (Some g0, h, calls) -> game_ok g0) /\
  (forall dt, nnf dt -> fle dt f0_1 = true ->
     fadd ELAPSED_MAX dt = ELAPSED_MAX).
Proof.
  intros Hg Hin. cbv zeta.
  assert (Hok : game_ok (fst (snd (main_loop RAND_MAX inputs (t, (g, d)))))).
  { apply (main_loop_invariant RAND_MAX (draws_ok RAND_MAX)
             (fun w => game_ok (fst w))); [|exact Hin|exact Hg].
    intros inp t1 [g1 d1] Hd H1. apply frame_ok; assumption. }
  split; [exact Hok|]. split; [exact (proj1 Hok)|].
  destruct (game_ok_bounds _ Hok) as (B1 & B2 & B3 & B4).
  split; [exact B1|]. split; [exact B2|]. split; [exact B3|].
  split; [exact B4|].
  split; [intros e ticks d0 g0 h calls; apply init_game_ok|].
  exact elapsed_stuck.
Qed.

End WellFormed.

Lemma main_loop_well_formed_witness :
  let g' := fst (snd (main_loop RAND_MAX_glibc session_inputs
                        (0, (session_start, mkDisk (Some 50) [])))) in
  game_ok g' /\ (0 <= B2R (elapsedTime g') <= 2097152)%R.
Proof.
  assert (HR : 0 < RAND_MAX_glibc <= F32.INT_MAX)
    by (unfold RAND_MAX_glibc, F32.INT_MAX; lia).
  assert (Hg : game_ok session_start).
  { apply (init_game_ok sdl_all_ok 0 (mkDisk (Some 50) []) session_start
             (mkHandles true true)
             [SDL_Init true; SDL_CreateWindow true; SDL_CreateRenderer true;
              SDL_SetRenderDrawBlendMode]).
    reflexivity. }
  assert (Hin : Forall (draws_ok RAND_MAX_glibc) session_inputs).
  { apply List.Forall_forall. intros inp Hi. unfold session_inputs in Hi.
    destruct Hi as [<-|Hi].
    - unfold draws_ok, RAND_MAX_glibc. cbn. lia.
    - apply in_map_iff in Hi as (k & <- & _).
      unfold draws_ok, RAND_MAX_glibc. cbn. lia. }
  destruct (main_loop_well_formed RAND_MAX_glibc HR session_inputs 0
              session_start (mkDisk (Some 50) []) Hg Hin)
    as (H1 & _ & _ & H2 & _).
  split; assumption.
Defined.

(** ** Rendering *)

Section Rendering.

Lemma to_int_between r a b :
  nnf r -> (B2R r < 2147483648)%R ->
  (IZR a <= B2R r <= IZR b)%R -> a <= to_int r <= b.
Proof.
  intros Hn Hlt [Ha Hb].
  destruct (to_int_floor r Hn Hlt) as [H1 H2].
  split.
  - assert (H : (IZR a < IZR (to_int r + 1))%R) by (rewrite plus_IZR; lra).
    apply lt_IZR in H. lia.
  - apply le_IZR. lra.
Qed.

Lemma to_int_nonneg r : nnf r -> (B2R r < 2147483648)%R -> 0 <= to_int r.
Proof.
  intros Hn Hlt. pose proof (nnf_nonneg r Hn) as H0.
  destruct (to_int_floor r Hn Hlt) as [_ H2].
  assert (H : (IZR (-1) < IZR (to_int r))%R) by (cbn; lra).
  apply lt_IZR in H. lia.
Qed.

Lemma to_int_fneg r :
  nnf r -> (B2R r < 2147483648)%R -> to_int (fneg r) = - to_int r.
Proof.
  intros Hn Hlt. pose proof (to_int_nonneg r Hn Hlt) as H0.
  destruct r as [s|s| |[] m e]; try (exfalso; exact Hn); [reflexivity|].
  cbn [fneg SFopp negb to_int] in *.
  set (mag := if 0 <=? e then Z.pos m * 2 ^ e else Z.pos m / 2 ^ (- e)) in *.
  assert (Hmag : 0 <= mag).
  { unfold mag. destruct (0 <=? e) eqn:E.
    - apply Z.leb_le in E.
      assert (0 < 2 ^ e) by (apply Z.pow_pos_nonneg; lia). nia.
    - apply Z.div_pos; [lia|apply Z.pow_pos_nonneg; lia]. }
  unfold F32.INT_MIN, F32.INT_MAX in *.
  destruct (Z.leb_spec (- 2 ^ 31) mag); [|lia].
  destruct (Z.leb_spec mag (2 ^ 31 - 1)); cbn [andb] in *; [|lia].
  destruct (Z.leb_spec (- 2 ^ 31) (- mag)); [|lia].
  destruct (Z.leb_spec (- mag) (2 ^ 31 - 1)); [reflexivity|lia].
Qed.

Lemma roundf_fneg x : roundf (fneg x) = fneg (roundf x).
Proof.
  destruct x as [s|s| |s m e]; try reflexivity.
  cbn [fneg SFopp roundf]. destruct (0 <=? e); [reflexivity|].
  cbv zeta. destruct ((Z.pos m + 2 ^ (- e - 1)) / 2 ^ (- e)) as [|p|p];
    destruct s; unfold cond_Zopp, negb;
    try change (- Z.pos p) with (Z.neg p);
    try change (- Z.neg p) with (Z.pos p);
    try change (- 0) with 0;
    cbn [binary_normalize fneg SFopp negb];
    rewrite ?binary_round_neg, ?fneg_invol; reflexivity.
Qed.

(** Rounding half up keeps a value between the integers around it. *)
Lemma half_up_between (m : positive) k a b :
  0 < k ->
  (IZR a <= IZR (Zpos m) * bpow (- k) <= IZR b)%R ->
  a <= (Zpos m + 2 ^ (k - 1)) / 2 ^ k <= b.
Proof.
  intros Hk [Ha Hb].
  assert (H2k : 0 < 2 ^ k) by (apply Z.pow_pos_nonneg; lia).
  assert (Hhalf : 2 * 2 ^ (k - 1) = 2 ^ k).
  { replace k with (Z.succ (k - 1)) at 2 by lia.
    rewrite Z.pow_succ_r by lia. reflexivity. }
  assert (HK : (0 < bpow k)%R) by apply bpow_pos.
  pose proof (bpow_opp k) as Hopp.
  assert (Ea : a * 2 ^ k <= Zpos m).
  { apply le_IZR. rewrite mult_IZR, IZR_pow2 by lia.
    apply (Rmult_le_compat_r (bpow k)) in Ha; [|lra].
    replace (IZR (Z.pos m) * bpow (- k) * bpow k)%R
      with (IZR (Z.pos m) * (bpow k * bpow (- k)))%R in Ha by ring.
    rewrite Hopp in Ha. lra. }
  assert (Eb : Zpos m <= b * 2 ^ k).
  { apply le_IZR. rewrite mult_IZR, IZR_pow2 by lia.
    apply (Rmult_le_compat_r (bpow k)) in Hb; [|lra].
    replace (IZR (Z.pos m) * bpow (- k) * bpow k)%R
      with (IZR (Z.pos m) * (bpow k * bpow (- k)))%R in Hb by ring.
    rewrite Hopp in Hb. lra. }
  assert (H0 : 0 < 2 ^ (k - 1)) by (apply Z.pow_pos_nonneg; lia).
  split.
  - apply Z.div_le_lower_bound; [exact H2k|]. nia.
  - assert (H : (Zpos m + 2 ^ (k - 1)) / 2 ^ k < b + 1); [|lia].
    apply Z.div_lt_upper_bound; [exact H2k|]. nia.
Qed.

(** [roundf] on a positive float with a fraction part. *)
Lemma roundf_small (m : positive) e :
  e < 0 -> (B2R (S754_finite false m e) <= 16777216)%R ->
  let q := (Zpos m + 2 ^ (- e - 1)) / 2 ^ (- e) in
  0 <= q <= 2 ^ 24 /\
  roundf (S754_finite false m e) = of_int q /\
  nnf (of_int q) /\ B2R (of_int q) = IZR q /\ to_int (of_int q) = q.
Proof.
  intros He Hb q.
  set (k := - e) in *. assert (Hk : 0 < k) by (unfold k; lia).
  replace (- e - 1) with (k - 1) in q by (unfold k; lia).
  assert (Hq : 0 <= q <= 2 ^ 24).
  { apply half_up_between; [exact Hk|].
    replace (- k) with e by (unfold k; lia).
    pose proof (bpow_pos e). cbn [B2R] in Hb.
    change (IZR 0) with 0%R. change (IZR (2 ^ 24)) with 16777216%R.
    assert (0 < IZR (Z.pos m))%R by (apply IZR_lt; lia). split; [nra|lra]. }
  split; [exact Hq|].
  split.
  { cbn [roundf]. destruct (Z.leb_spec 0 e); [lia|]. reflexivity. }
  destruct (of_int_exact q Hq) as [Hn Hv].
  assert (Hq24 : (IZR q <= 16777216)%R) by (apply IZR_le; lia).
  split; [exact Hn|]. split; [exact Hv|].
  assert (q <= to_int (of_int q) <= q); [|lia].
  apply to_int_between; [exact Hn|lra|lra].
Qed.

Lemma roundf_nnf_between y a b :
  nnf y -> b <= 2 ^ 24 -> (IZR a <= B2R y <= IZR b)%R ->
  nnf (roundf y) /\ (B2R (roundf y) < 2147483648)%R /\
  a <= to_int (roundf y) <= b.
Proof.
  intros Hy Hb24 Hab.
  assert (Hb : (IZR b <= 16777216)%R) by (apply IZR_le; exact Hb24).
  destruct y as [s|s| |[] m e]; try (exfalso; exact Hy).
  - cbn [roundf]. split; [exact I|]. split; [cbn [B2R]; lra|].
    apply to_int_between; [exact I|cbn [B2R]; lra|exact Hab].
  - destruct (Z.leb_spec 0 e) as [He|He].
    + cbn [roundf]. destruct (Z.leb_spec 0 e); [|lia].
      split; [exact Hy|]. split; [lra|].
      apply to_int_between; [exact Hy|lra|exact Hab].
    + destruct (roundf_small m e He ltac:(lra)) as (Hq & -> & Hn & Hv & ->).
      split; [exact Hn|].
      split.
      { rewrite Hv. destruct Hq as [_ Hq]. apply IZR_le in Hq.
        change (IZR (2 ^ 24)) with 16777216%R in Hq. lra. }
      apply half_up_between; [lia|].
      replace (- - e) with e by lia. cbn [B2R] in Hab. lra.
Qed.

(** [(int)roundf(y)] is at most [y + 1/2]. *)
Lemma roundf_upper y :
  nnf y -> (B2R y <= 16777216)%R ->
  (IZR (to_int (roundf y)) <= B2R y + / 2)%R.
Proof.
  intros Hy Hb.
  destruct y as [s|s| |[] m e]; try (exfalso; exact Hy).
  - cbn. lra.
  - destruct (Z.leb_spec 0 e) as [He|He].
    + cbn [roundf]. destruct (Z.leb_spec 0 e); [|lia].
      destruct (to_int_floor _ Hy ltac:(lra)) as [Hfl _]. lra.
    + destruct (roundf_small m e He Hb) as (Hq & -> & Hn & Hv & ->).
      set (k := - e) in *. assert (Hk : 0 < k) by (unfold k; lia).
      replace (- e - 1) with (k - 1) by (unfold k; lia).
      assert (H2k : 0 < 2 ^ k) by (apply Z.pow_pos_nonneg; lia).
      assert (Hhalf : 2 * 2 ^ (k - 1) = 2 ^ k).
      { replace k with (Z.succ (k - 1)) at 2 by lia.
        rewrite Z.pow_succ_r by lia. reflexivity. }
      pose proof (Z.mul_div_le (Zpos m + 2 ^ (k - 1)) (2 ^ k) H2k) as Hd.
      set (q := (Zpos m + 2 ^ (k - 1)) / 2 ^ k) in *.
      pose proof (B2R_scaled m k ltac:(lia)) as Hs.
      replace (- k) with e in Hs by (unfold k; lia).
      assert (HK : (0 < IZR (2 ^ k))%R) by (apply IZR_lt; exact H2k).
      assert (Hd' : (IZR (2 ^ k) * IZR q <=
                     IZR (Z.pos m) + IZR (2 ^ (k - 1)))%R).
      { rewrite <- mult_IZR, <- plus_IZR. apply IZR_le. exact Hd. }
      assert (Hh' : (2 * IZR (2 ^ (k - 1)) = IZR (2 ^ k))%R).
      { rewrite <- Hhalf, mult_IZR. reflexivity. }
      apply (Rmult_le_reg_l (IZR (2 ^ k))); [exact HK|]. nra.
Qed.

(** [(int)roundf(x)] of a finite [x] between two integers of at most 24
    bits lies between them. *)
Lemma roundf_between x a b :
  fin32 x -> - 2 ^ 24 <= a -> b <= 2 ^ 24 ->
  (IZR a <= B2R x <= IZR b)%R ->
  a <= to_int (roundf x) <= b.
Proof.
  intros Hx Ha Hb Hab.
  destruct (fin32_neg_cases x Hx) as [Hn|[Hn Hneg]].
  - apply (roundf_nnf_between x a b Hn Hb Hab).
  - destruct (roundf_nnf_between (fneg x) (- b) (- a) Hn ltac:(lia))
      as (R1 & R2 & R3).
    { rewrite B2R_fneg, !opp_IZR. lra. }
    rewrite <- (fneg_invol x), roundf_fneg, to_int_fneg by assumption. lia.
Qed.

Lemma filled_app c1 c2 : filled (c1 ++ c2) = filled c1 ++ filled c2.
Proof.
  induction c1 as [|c rest IH]; [reflexivity|].
  destruct c; cbn [app filled]; rewrite IH; reflexivity.
Qed.

Lemma filled_obstacles obs rect :
  In rect (filled (flat_map draw_obstacle obs)) ->
  exists o, In o obs /\ o_active o <> 0 /\
    rect = mkRect (to_int (roundf (o_x o))) (to_int (roundf (o_y o)))
                  (to_int (roundf (o_w o))) (to_int (roundf (o_h o))).
Proof.
  induction obs as [|o rest IH]; [intros []|].
  cbn [flat_map]. rewrite filled_app. intros H.
  apply in_app_or in H as [H|H].
  - exists o. unfold draw_obstacle, is_free in H.
    destruct (Z.eqb_spec (o_active o) 0) as [E|E]; [destruct H|].
    cbn in H. destruct H as [<-|[]].
    split; [left; reflexivity|]. split; [exact E|reflexivity].
  - destruct (IH H) as (o' & Hin & Hact & E).
    exists o'. split; [right; exact Hin|]. split; assumption.
Qed.

Lemma filled_obstacles_length obs :
  length (filled (flat_map draw_obstacle obs)) = active_count obs.
Proof.
  induction obs as [|o rest IH]; [reflexivity|].
  cbn [flat_map active_count]. rewrite filled_app, length_app, IH.
  unfold draw_obstacle. destruct (is_free o); reflexivity.
Qed.

(** X23.  [render_game] draws the player, every active obstacle and, in
    every state but PLAYING, one tint over the whole window, and nothing
    else.  In a well-formed game no conversion to [int] goes wrong: the
    player's rectangle is 80 by 20 at row 540 with its left edge in
    [0, 720], so it lies inside the window; every obstacle's rectangle
    is 40 to 140 wide and 20 high, its top edge in [-20, 600], its left
    edge at 0 or more and its right edge at 801 or less (the two
    roundings can push it one pixel past the window). *)
Theorem render_game_rects (g : Game) :
  game_ok g ->
  exists px rects,
    filled (render_game g) =
      mkRect px 540 80 20 :: rects ++
      (if GameState_eqb (state g) GAME_STATE_PLAYING then []
       else [mkRect 0 0 WINDOW_WIDTH WINDOW_HEIGHT]) /\
    0 <= px <= 720 /\
    length rects = active_count (obstacles g) /\
    Forall (fun rect => 0 <= rect_x rect /\
                        rect_x rect + rect_w rect <= 801 /\
                        - 20 <= rect_y rect <= 600 /\
                        40 <= rect_w rect <= 140 /\
                        rect_h rect = 20) rects.
Proof.
  intros Hg.
  pose proof (game_ok_bounds g Hg) as ([P0 P1] & _ & _ & Hobs).
  destruct Hg as (_ & HO & Hpy & Hph & (Hpw & _ & Hpx & _) & _).
  exists (to_int (roundf (p_x (player g)))),
         (filled (flat_map draw_obstacle (obstacles g))).
  split.
  { unfold render_game. rewrite !filled_app. rewrite Hpy, Hph, Hpw.
    cbn [app filled draw_filled_rect]. f_equal. f_equal.
    destruct (state g); reflexivity. }
  split.
  { apply roundf_between; [apply nnf_fin32, Hpx|lia|lia|].
    change (IZR 0) with 0%R. change (IZR 720) with 720%R. lra. }
  split; [apply filled_obstacles_length|].
  apply List.Forall_forall. intros rect Hin.
  apply filled_obstacles in Hin as (o & Ho & Hact & ->).
  apply list_elem_of_In, list_elem_of_lookup in Ho as [i Hi].
  destruct (Hobs i o Hi Hact)
    as ([W1 W2] & X0 & _ & XW & [Y1 Y2] & _).
  destruct (proj1 (Forall_lookup _ _) HO i o Hi Hact)
    as (_ & Hx & Hw & Hh & _ & _ & _ & _ & _ & _ & _ & Hy & _).
  cbn [rect_x rect_y rect_w rect_h].
  assert (E14 : (/ 2 * bpow (-14) <= / 2)%R).
  { pose proof (bpow_le (-14) 0 ltac:(lia)) as H. rewrite bpow_0 in H. lra. }
  assert (Hx800 : (B2R (o_x o) <= 801)%R) by lra.
  destruct (roundf_nnf_between (o_x o) 0 801 Hx ltac:(lia)) as (_ & _ & [Rx _]).
  { change (IZR 0) with 0%R. change (IZR 801) with 801%R. lra. }
  destruct (roundf_nnf_between (o_w o) 40 140 Hw ltac:(lia)) as (_ & _ & Rw).
  { change (IZR 40) with 40%R. change (IZR 140) with 140%R. lra. }
  split; [exact Rx|].
  split.
  { pose proof (roundf_upper (o_x o) Hx ltac:(lra)) as Ux.
    pose proof (roundf_upper (o_w o) Hw ltac:(lra)) as Uw.
    assert (H : (IZR (to_int (roundf (o_x o)) + to_int (roundf (o_w o)))
                 < IZR 802)%R).
    { rewrite plus_IZR. change (IZR 802) with 802%R. lra. }
    apply lt_IZR in H. lia. }
  split.
  { apply roundf_between; [exact Hy|lia|lia|].
    change (IZR (-20)) with (-20)%R. change (IZR 600) with 600%R. lra. }
  split; [exact Rw|].
  rewrite Hh. reflexivity.
Qed.

End Rendering.

Lemma render_game_rects_witness :
  exists px rects,
    filled (render_game session_start) =
      mkRect px 540 80 20 :: rects ++ [mkRect 0 0 WINDOW_WIDTH WINDOW_HEIGHT] /\
    0 <= px <= 720.
Proof.
  assert (Hg : game_ok session_start).
  { apply (init_game_ok sdl_all_ok 0 (mkDisk (Some 50) []) session_start
             (mkHandles true true)
             [SDL_Init true; SDL_CreateWindow true; SDL_CreateRenderer true;
              SDL_SetRenderDrawBlendMode]).
    reflexivity. }
  destruct (render_game_rects session_start Hg) as (px & rects & E & Hp & _).
  exists px, rects. split; [exact E|exact Hp].
Defined.

(** ** The window title *)

Section Title.

Import Ascii String.
Local Open Scope string_scope.
Local Open Scope Z_scope.

Lemma string_length_app s1 s2 :
  String.length (s1 ++ s2) = (String.length s1 + String.length s2)%nat.
Proof. induction s1 as [|c s1 IH]; cbn; [reflexivity|rewrite IH; reflexivity]. Qed.

Lemma substring_all s : forall n,
  (String.length s <= n)%nat -> substring 0 n s = s.
Proof.
  induction s as [|c s IH]; intros [|n] H; cbn in *; try reflexivity; try lia.
  rewrite IH by lia. reflexivity.
Qed.

Lemma digits_length fuel : forall n acc,
  (String.length (digits fuel n acc) <= fuel + String.length acc)%nat.
Proof.
  induction fuel as [|fuel IH]; intros n acc; cbn [digits]; [lia|].
  cbv zeta. destruct (n / 10 =? 0); [cbn; lia|].
  specialize (IH (n / 10) (String (digit_char (n mod 10)) acc)).
  cbn [String.length] in IH. lia.
Qed.

Lemma format_int_length n : (String.length (format_int n) <= 11)%nat.
Proof.
  unfold format_int. destruct (n <? 0).
  - pose proof (digits_length 10 (- n) ""). cbn [String.length] in *. lia.
  - pose proof (digits_length 10 n ""). cbn [String.length] in *. lia.
Qed.

Lemma string_app_assoc s1 s2 s3 : (s1 ++ s2) ++ s3 = s1 ++ (s2 ++ s3).
Proof. induction s1 as [|c s1 IH]; cbn; [reflexivity|rewrite IH; reflexivity]. Qed.

Lemma digits_app fuel : forall n acc,
  digits fuel n acc = digits fuel n "" ++ acc.
Proof.
  induction fuel as [|fuel IH]; intros n acc; cbn [digits]; [reflexivity|].
  cbv zeta. destruct (n / 10 =? 0); [reflexivity|].
  rewrite (IH _ (String _ acc)), (IH _ (String _ "")).
  rewrite string_app_assoc. reflexivity.
Qed.

Lemma decimal_digits_app s1 : forall s2 a,
  decimal_digits (s1 ++ s2) a = decimal_digits s2 (decimal_digits s1 a).
Proof. induction s1 as [|c s1 IH]; intros s2 a; cbn; [reflexivity|apply IH]. Qed.

Lemma digit_char_value d :
  0 <= d < 10 -> Z.of_N (N_of_ascii (digit_char d)) - 48 = d.
Proof.
  intros Hd. unfold digit_char. rewrite N_ascii_embedding by lia. lia.
Qed.

(** The digits produced read back as the number. *)
Lemma digits_value fuel : forall n,
  0 <= n < 10 ^ Z.of_nat fuel -> (0 < fuel)%nat ->
  decimal_digits (digits fuel n "") 0 = n.
Proof.
  induction fuel as [|fuel IH]; intros n Hn Hf; [lia|].
  cbn [digits]. cbv zeta.
  pose proof (Z.mod_pos_bound n 10 ltac:(lia)) as Hm.
  pose proof (Z_div_mod_eq_full n 10) as Hdm.
  destruct (Z.eqb_spec (n / 10) 0) as [E|E].
  - cbn [decimal_digits]. rewrite digit_char_value by exact Hm. lia.
  - rewrite digits_app, decimal_digits_app. cbn [decimal_digits].
    rewrite digit_char_value by exact Hm.
    assert (Hq : 0 <= n / 10 < 10 ^ Z.of_nat fuel).
    { split; [apply Z.div_pos; lia|].
      apply Z.div_lt_upper_bound; [lia|].
      rewrite Nat2Z.inj_succ, Z.pow_succ_r in Hn by lia. lia. }
    destruct fuel as [|fuel']; [cbn in Hq; lia|].
    rewrite IH by (try exact Hq; lia). lia.
Qed.

Lemma digits_head fuel : forall n acc,
  (0 < fuel)%nat -> 0 <= n ->
  exists d rest, 0 <= d < 10 /\ digits fuel n acc = String (digit_char d) rest.
Proof.
  induction fuel as [|fuel IH]; intros n acc Hf Hn; [lia|].
  cbn [digits]. cbv zeta.
  pose proof (Z.mod_pos_bound n 10 ltac:(lia)) as Hm.
  destruct (n / 10 =? 0); [eexists _, _; split; [exact Hm|reflexivity]|].
  destruct fuel as [|fuel'].
  - cbn [digits]. eexists _, _; split; [exact Hm|reflexivity].
  - apply IH; [lia|apply Z.div_pos; lia].
Qed.

Lemma format_int_value n :
  - 10 ^ 10 < n < 10 ^ 10 -> decimal_value (format_int n) = n.
Proof.
  intros Hn. unfold format_int. destruct (Z.ltb_spec n 0) as [H|H].
  - cbn [decimal_value]. rewrite digits_value; [lia| |lia].
    change (Z.of_nat 10) with 10. lia.
  - destruct (digits_head 10 n "" ltac:(lia) H) as (d & rest & Hd & E).
    assert (Hv : decimal_digits (digits 10 n "") 0 = n).
    { apply digits_value; [|lia]. change (Z.of_nat 10) with 10. lia. }
    rewrite E in *. unfold decimal_value.
    assert (Hc : digit_char d <> "-"%char).
    { intros Ec. apply (f_equal N_of_ascii) in Ec.
      unfold digit_char in Ec. rewrite N_ascii_embedding in Ec by lia.
      cbn in Ec. lia. }
    destruct (digit_char d) as [[] [] [] [] [] [] [] []];
      try exact Hv; congruence.
Qed.

(** X24.  The window title is never cut: for every score and high
    score of type [int] and every state the text has at most 66
    characters, so the 128-byte buffer of [snprintf] holds all of it; the
    two numbers are printed in full, as decimal numerals that read back
    as the score and the high score. *)
Theorem window_title_fits (g : Game) :
  is_int (score g) -> is_int (highScore g) ->
  update_window_title g = title_text g /\
  (String.length (update_window_title g) <= 66)%nat /\
  decimal_value (format_int (score g)) = score g /\
  decimal_value (format_int (highScore g)) = highScore g.
Proof.
  intros Hs Hh.
  assert (Hlen : (String.length (title_text g) <= 66)%nat).
  { unfold title_text. rewrite !string_length_app.
    pose proof (format_int_length (score g)).
    pose proof (format_int_length (highScore g)).
    assert (String.length (state_str (state g)) <= 9)%nat
      by (destruct (state g); cbn; lia).
    cbn [String.length]. lia. }
  assert (E : update_window_title g = title_text g)
    by (apply substring_all; lia).
  split; [exact E|]. split; [rewrite E; exact Hlen|].
  unfold is_int, F32.INT_MIN, F32.INT_MAX in *.
  split; apply format_int_value; lia.
Qed.

End Title.

Example title_of_crash :
  update_window_title game_about_to_crash =
  title_text game_about_to_crash /\
  String.length (update_window_title game_about_to_crash) = 47%nat /\
  format_int (-2147483648) = format_int F32.INT_MIN /\
  String.length (format_int F32.INT_MIN) = 11%nat.
Proof. vm_compute. repeat split. Qed.

Lemma window_title_fits_witness :
  update_window_title game_about_to_crash = title_text game_about_to_crash /\
  decimal_value (format_int 100) = 100.
Proof.
  destruct (window_title_fits game_about_to_crash) as (E & _ & V & _).
  - unfold is_int, F32.INT_MIN, F32.INT_MAX. cbn. lia.
  - unfold is_int, F32.INT_MIN, F32.INT_MAX. cbn. lia.
  - split; [exact E|exact V].
Defined.

(** ** [rand_range] on every range *)

Section RandRange.

Variable RAND_MAX : Z.
Hypothesis RAND_MAX_int : 0 < RAND_MAX <= F32.INT_MAX.

Lemma rand_unit_mono r r' :
  0 <= r <= r' -> r' <= RAND_MAX ->
  fle (fdiv (of_int r) (of_int RAND_MAX))
      (fdiv (of_int r') (of_int RAND_MAX)) = true.
Proof.
  intros Hr Hr'.
  destruct (of_int_small r ltac:(lia)) as [HA _].
  destruct (of_int_small r' ltac:(lia)) as [HA' _].
  destruct (of_int_small RAND_MAX ltac:(lia)) as [HB _].
  assert (H1 : (1 <= B2R (of_int RAND_MAX))%R).
  { destruct (RND_ge (IZR RAND_MAX) (of_int RAND_MAX) f1) as [E|[_ H]].
    - apply of_int_RND; lia.
    - reflexivity.
    - rewrite B2R_f1. apply IZR_le. lia.
    - rewrite E in HB. contradiction.
    - rewrite B2R_f1 in H. exact H. }
  assert (HAB : (B2R (of_int r) <= B2R (of_int r'))%R).
  { apply fle_nnf; try assumption.
    apply (RND_mono (IZR r) _ (IZR r')); try (apply of_int_RND; lia).
    apply IZR_le. lia. }
  apply (RND_mono (B2R (of_int r) / B2R (of_int RAND_MAX)) _
                  (B2R (of_int r') / B2R (of_int RAND_MAX))).
  - apply fdiv_RND; try assumption. lra.
  - apply fdiv_RND; try assumption. lra.
  - unfold Rdiv. apply Rmult_le_compat_r; [|exact HAB].
    apply Rlt_le, Rinv_0_lt_compat. lra.
Qed.

Lemma rand_range_parts r lo hi :
  0 <= r <= RAND_MAX -> nnf lo -> nnf hi -> (B2R lo <= B2R hi)%R ->
  let t := fdiv (of_int r) (of_int RAND_MAX) in
  nnf t /\ (B2R t <= 1)%R /\ nnf (fsub hi lo) /\
  nnf (fmul t (fsub hi lo)) /\
  (B2R (fmul t (fsub hi lo)) <= B2R (fsub hi lo))%R.
Proof.
  intros Hr Hlo Hhi Hle t.
  destruct (rand_unit RAND_MAX RAND_MAX_int r Hr) as [Ht Ht1]. fold t in Ht, Ht1.
  pose proof (nnf_nonneg _ Hlo) as Hlo0. pose proof (nnf_nonneg _ Ht) as Ht0.
  destruct (RND_le _ _ hi (fsub_RND hi lo Hhi Hlo Hle) Hhi) as [Hd _]; [lra|].
  pose proof (nnf_nonneg _ Hd) as Hd0.
  destruct (RND_le _ _ (fsub hi lo) (fmul_RND t _ Ht Hd) Hd) as [Hp Hpd];
    [nra|].
  repeat split; assumption.
Qed.

(** X25.  [rand_range] grows with the draw: a larger value of [rand]
    never gives a smaller result; the result is never below [min], it is
    [min] for the draw 0 and at most [min + (max - min)] as single
    precision computes it, which is [max] or less whenever [max - min]
    is computed exactly. *)
Theorem rand_range_monotone (r r' : Z) (lo hi : float) :
  0 <= r <= r' -> r' <= RAND_MAX ->
  nnf lo -> nnf hi -> (B2R lo <= B2R hi)%R ->
  fle (rand_range RAND_MAX r lo hi) (rand_range RAND_MAX r' lo hi) = true /\
  fle lo (rand_range RAND_MAX r lo hi) = true /\
  fle (rand_range RAND_MAX r lo hi) (fadd lo (fsub hi lo)) = true /\
  B2R (rand_range RAND_MAX 0 lo hi) = B2R lo /\
  (B2R (fsub hi lo) = (B2R hi - B2R lo)%R ->
   (B2R (rand_range RAND_MAX r lo hi) <= B2R hi)%R).
Proof.
  intros Hr Hr' Hlo Hhi Hle.
  destruct (rand_range_parts r lo hi ltac:(lia) Hlo Hhi Hle)
    as (Ht & Ht1 & Hd & Hp & Hpd).
  destruct (rand_range_parts r' lo hi ltac:(lia) Hlo Hhi Hle)
    as (Ht' & Ht1' & _ & Hp' & Hpd').
  cbv zeta in *. unfold rand_range.
  set (t := fdiv (of_int r) (of_int RAND_MAX)) in *.
  set (t' := fdiv (of_int r') (of_int RAND_MAX)) in *.
  set (d := fsub hi lo) in *.
  pose proof (nnf_nonneg _ Hd) as Hd0. pose proof (nnf_nonneg _ Hp) as Hp0.
  assert (Htt : (B2R t <= B2R t')%R).
  { apply fle_nnf; try assumption. apply rand_unit_mono; assumption. }
  assert (Hpp : (B2R (fmul t d) <= B2R (fmul t' d))%R).
  { apply fle_nnf; try assumption.
    apply (RND_mono (B2R t * B2R d) _ (B2R t' * B2R d));
      [apply fmul_RND; assumption..|nra]. }
  split.
  { apply (RND_mono (B2R lo + B2R (fmul t d)) _ (B2R lo + B2R (fmul t' d)));
      [apply fadd_RND; assumption..|lra]. }
  split.
  { destruct (RND_ge _ _ lo (fadd_RND lo _ Hlo Hp) Hlo) as [->|[Hn Hge]];
      [lra|apply fle_nni_inf; left; exact Hlo|].
    apply fle_nnf; assumption. }
  split.
  { apply (RND_mono (B2R lo + B2R (fmul t d)) _ (B2R lo + B2R d));
      [apply fadd_RND; assumption..|lra]. }
  split.
  { assert (E0 : fdiv (of_int 0) (of_int RAND_MAX) = S754_zero false).
    { destruct (of_int_small RAND_MAX ltac:(lia))
        as [HB _].
      destruct (nnf_pos_finite (of_int RAND_MAX) HB) as (m & e & ->);
        [|reflexivity].
      destruct (RND_ge (IZR RAND_MAX) (of_int RAND_MAX) f1) as [E|[_ H]].
      - apply of_int_RND; lia.
      - reflexivity.
      - rewrite B2R_f1. apply IZR_le. lia.
      - rewrite E in HB. contradiction.
      - rewrite B2R_f1 in H. lra. }
    rewrite E0.
    assert (Ez : exists s, fmul (S754_zero false) d = S754_zero s).
    { destruct d as [sd|sd| |[] md ed]; try (exfalso; exact Hd);
        eexists; reflexivity. }
    destruct Ez as [s ->].
    destruct lo as [sl|sl| |[] ml el]; try (exfalso; exact Hlo);
      [destruct sl, s; reflexivity|reflexivity]. }
  intros Hex.
  destruct (rand_range_bounds RAND_MAX RAND_MAX_int r lo hi
              ltac:(lia) Hlo Hhi Hd Hex Hle) as [_ [_ H]].
  exact H.
Qed.

End RandRange.

Lemma rand_range_monotone_witness :
  fle (rand_range RAND_MAX_glibc 82 OBSTACLE_MIN_WIDTH OBSTACLE_MAX_WIDTH)
      (rand_range RAND_MAX_glibc 5000 OBSTACLE_MIN_WIDTH OBSTACLE_MAX_WIDTH)
  = true.
Proof.
  refine (proj1 (rand_range_monotone RAND_MAX_glibc _ 82 5000
                   OBSTACLE_MIN_WIDTH OBSTACLE_MAX_WIDTH _ _ _ _ _)).
  - unfold RAND_MAX_glibc, F32.INT_MAX. lia.
  - lia.
  - unfold RAND_MAX_glibc. lia.
  - reflexivity.
  - reflexivity.
  - rewrite B2R_40, B2R_140. lra.
Defined.

(** The bound [min + (max - min)] can lie one float above [max]: the
    largest draw takes [rand_range] out of [[min, max]] here. *)
Example rand_range_overshoot :
  rand_range RAND_MAX_glibc RAND_MAX_glibc overshoot_min overshoot_max =
  S754_finite false 12582914 (-23) /\
  flt overshoot_max
      (rand_range RAND_MAX_glibc RAND_MAX_glibc overshoot_min overshoot_max)
  = true /\
  fsub overshoot_max overshoot_min = S754_finite false 12582912 (-23).
Proof. vm_compute. repeat split. Qed.

(** ** Keys, the score of a tick and the failure of a write *)

Section More.

Variable RAND_MAX : Z.

Lemma handle_key_down_flags t g k :
  leftPressed (handle_key_down t g k) =
    match k with SDLK_a | SDLK_LEFT => 1 | _ => leftPressed g end /\
  rightPressed (handle_key_down t g k) =
    match k with SDLK_d | SDLK_RIGHT => 1 | _ => rightPressed g end.
Proof.
  destruct k; cbn; try (split; reflexivity);
    destruct (state g); split; reflexivity.
Qed.

Lemma process_event_flags g te :
  leftPressed (process_event g te) =
    match left_effect te with Some v => v | None => leftPressed g end /\
  rightPressed (process_event g te) =
    match right_effect te with Some v => v | None => rightPressed g end.
Proof.
  unfold process_event, left_effect, right_effect.
  destruct (snd te) as [|rep sym|sym|].
  - split; reflexivity.
  - destruct (rep =? 0) eqn:E.
    + destruct (handle_key_down_flags (fst te) g sym) as [-> ->].
      destruct sym; split; reflexivity.
    + destruct sym; split; reflexivity.
  - destruct sym; split; reflexivity.
  - split; reflexivity.
Qed.

(** X26.  The movement flags follow the key events and nothing else:
    after [process_events] each flag holds what the last press or release
    of one of its two keys wrote, a repeated press not counting, and is
    unchanged if the queue has none; Enter, P, Escape and the restart
    they may cause leave the flags alone.  The two keys of a side share
    the flag: releasing one clears it while the other is still held. *)
Theorem key_flags_follow_events (evs : list (Z * SDL_Event)) (g : Game)
        (t1 t2 t3 : Z) :
  leftPressed (process_events evs g) =
    last_effect left_effect evs (leftPressed g) /\
  rightPressed (process_events evs g) =
    last_effect right_effect evs (rightPressed g) /\
  leftPressed (process_events
                 [(t1, SDL_KEYDOWN 0 SDLK_LEFT); (t2, SDL_KEYDOWN 0 SDLK_a);
                  (t3, SDL_KEYUP SDLK_a)] g) = 0.
Proof.
  split; [|split; [|reflexivity]].
  - revert g. unfold process_events, last_effect.
    induction evs as [|te rest IH]; intros g; [reflexivity|].
    cbn [fold_left]. rewrite IH.
    destruct (process_event_flags g te) as [-> _]. reflexivity.
  - revert g. unfold process_events, last_effect.
    induction evs as [|te rest IH]; intros g; [reflexivity|].
    cbn [fold_left]. rewrite IH.
    destruct (process_event_flags g te) as [_ ->]. reflexivity.
Qed.

Lemma exits_range dt obs : 0 <= exits dt obs <= Z.of_nat (length obs).
Proof.
  induction obs as [|o rest IH]; [cbn; lia|].
  cbn [exits length]. destruct (leaves dt o); lia.
Qed.

Lemma time_points_range dt :
  nnf dt -> fle dt f0_1 = true -> 0 <= time_points dt <= 2.
Proof.
  intros Hdt Hle.
  destruct (time_points_exact_floor dt Hdt Hle) as [H1 H2].
  assert (H01 : nnf f0_1) by reflexivity.
  apply (proj1 (fle_nnf _ _ Hdt H01)) in Hle.
  pose proof (nnf_nonneg _ Hdt) as H0. pose proof B2R_f0_1 as H3.
  split.
  - assert (H : (IZR (-1) < IZR (time_points dt))%R)
      by (change (IZR (-1)) with (-1)%R; lra).
    apply lt_IZR in H. lia.
  - assert (H : (IZR (time_points dt) < IZR 3)%R)
      by (change (IZR 3) with 3%R; lra).
    apply lt_IZR in H. lia.
Qed.

(** X27.  A tick never takes points away and adds at most 642: with a
    time step of the main loop and the score at least 642 below
    [INT_MAX], the score after a tick in PLAYING is the score before plus
    0, 1 or 2 points of time and 10 points for each of the at most 64
    obstacles that left the window. *)
Theorem score_gain_bounded (env : TickEnv) (dt : float) (g : Game) (d : Disk) :
  state g = GAME_STATE_PLAYING ->
  length (obstacles g) = MAX_OBSTACLES ->
  nnf dt -> fle dt f0_1 = true ->
  F32.INT_MIN <= score g <= F32.INT_MAX - 642 ->
  let sc' := score (fst (update_game RAND_MAX env dt (g, d))) in
  sc' = score g + time_points dt + 10 * exits dt (obstacles g) /\
  0 <= time_points dt <= 2 /\
  0 <= exits dt (obstacles g) <= 64 /\
  score g <= sc' <= score g + 642.
Proof.
  intros Hs Hlen Hdt Hle Hsc sc'.
  pose proof (time_points_range dt Hdt Hle) as Htp.
  pose proof (exits_range dt (obstacles g)) as Hex.
  rewrite Hlen in Hex. change (Z.of_nat MAX_OBSTACLES) with 64 in Hex.
  assert (E : sc' = score g + time_points dt + 10 * exits dt (obstacles g)).
  { unfold sc'. rewrite update_game_score; [|exact Hs|unfold is_int; lia].
    apply wrap_int_id. unfold is_int. lia. }
  split; [exact E|]. split; [exact Htp|]. split; [exact Hex|]. lia.
Qed.


End More.

Lemma score_gain_bounded_witness :
  score (fst (update_game RAND_MAX_glibc quiet_env f0_1
                (fresh_game, mkDisk None []))) = 2.
Proof.
  refine (proj1 (score_gain_bounded RAND_MAX_glibc quiet_env f0_1
                   fresh_game (mkDisk None []) eq_refl eq_refl eq_refl eq_refl _)).
  unfold F32.INT_MIN, F32.INT_MAX. cbn. lia.
Defined.


(** ** Collisions in a well-formed game *)

Section Contact.

Lemma B2R_f520_pred : (B2R f520_pred + bpow (-14) = 520)%R.
Proof.
  assert (H : (B2R f520_pred * IZR (2 ^ 14) = 8519679)%R)
    by exact (B2R_scaled 8519679 14 ltac:(lia)).
  pose proof (bpow_opp 14) as Ho. rewrite (bpow_IZR 14) in Ho by lia.
  change (bpow (- (14))) with (bpow (-14)) in Ho.
  change (IZR (2 ^ 14)) with 16384%R in *. lra.
Qed.

Lemma B2R_f540_pred : (B2R f540_pred + bpow (-14) = 540)%R.
Proof.
  assert (H : (B2R f540_pred * IZR (2 ^ 14) = 8847359)%R)
    by exact (B2R_scaled 8847359 14 ltac:(lia)).
  pose proof (bpow_opp 14) as Ho. rewrite (bpow_IZR 14) in Ho by lia.
  change (bpow (- (14))) with (bpow (-14)) in Ho.
  change (IZR (2 ^ 14)) with 16384%R in *. lra.
Qed.

Lemma B2R_540 : B2R (p_y init_player) = 540%R.
Proof. apply (B2R_int _ 14 540); [lia|reflexivity]. Qed.

Lemma B2R_560 : B2R (fadd (p_y init_player) PLAYER_HEIGHT) = 560%R.
Proof. apply (B2R_int _ 14 560); [lia|reflexivity]. Qed.

Lemma B2R_80 : B2R PLAYER_WIDTH = 80%R.
Proof. apply (B2R_int _ 17 80); [lia|reflexivity]. Qed.

(** A finite float below 520 is at most the float next below 520. *)
Lemma below_520 y :
  fin32 y -> (B2R y < 520)%R -> (B2R y <= B2R f520_pred)%R.
Proof.
  intros Hy Hlt. pose proof (bpow_pos (-14)) as Hp.
  pose proof B2R_f520_pred as H520.
  destruct (fin32_neg_cases y Hy) as [Hn|[_ Hneg]].
  - assert (N520 : nnf (S754_finite false (Pos.succ 8519679) (-14)))
      by reflexivity.
    assert (V520 : B2R (S754_finite false (Pos.succ 8519679) (-14)) = 520%R)
      by (apply (B2R_int _ 14 520); [lia|reflexivity]).
    assert (Hf : flt y (S754_finite false (Pos.succ 8519679) (-14)) = true)
      by (apply flt_nnf; [exact Hn|exact N520|rewrite V520; exact Hlt]).
    apply flt_adjacent in Hf; [|exact Hn].
    assert (Np : nnf f520_pred) by reflexivity.
    exact (proj1 (fle_nnf y f520_pred Hn Np) Hf).
  - assert (0 <= B2R f520_pred)%R by (apply nnf_nonneg; reflexivity). lra.
Qed.

(** X29.  In a well-formed game the collision check answers the
    geometry: an obstacle hits only if it is active and its top edge [y]
    is between 520 and 560, that is, if its rows [y, y + 20] meet the
    player's rows [540, 560]; and an active obstacle in those rows whose
    columns [x, x + w] meet the player's columns [px, px + 80] as real
    numbers does hit, edges that only touch included.  No rounding makes
    the check miss an overlap. *)
Theorem collision_needs_contact (g : Game) (i : nat) (o : Obstacle) :
  game_ok g -> obstacles g !! i = Some o ->
  (hits (player g) o = true ->
   o_active o <> 0 /\ (520 <= B2R (o_y o) <= 560)%R) /\
  (o_active o <> 0 ->
   (520 <= B2R (o_y o) <= 560)%R ->
   (B2R (p_x (player g)) <= B2R (o_x o) + B2R (o_w o))%R ->
   (B2R (o_x o) <= B2R (p_x (player g)) + 80)%R ->
   hits (player g) o = true /\ check_collisions g = true).
Proof.
  intros Hg Hl.
  pose proof (game_ok_bounds g Hg) as ([P0 P1] & _ & _ & Hobs).
  destruct Hg as (_ & HO & Hpy & Hph & (Hpw & _ & Hpx & _) & _).
  pose proof (bpow_pos (-14)) as Hp14.
  assert (Hvert : o_active o <> 0 ->
    fgt (p_y (player g)) (fadd (o_y o) (o_h o)) =
      negb (fle (p_y init_player) (fadd (o_y o) OBSTACLE_HEIGHT)) /\
    flt (fadd (p_y (player g)) (p_h (player g))) (o_y o) =
      negb (fle (o_y o) (fadd (p_y init_player) PLAYER_HEIGHT)) /\
    (fle (p_y init_player) (fadd (o_y o) OBSTACLE_HEIGHT) = true <->
     (520 <= B2R (o_y o))%R) /\
    (fle (o_y o) (fadd (p_y init_player) PLAYER_HEIGHT) = true <->
     (B2R (o_y o) <= 560)%R)).
  { intros Hact.
    destruct (Hobs i o Hl Hact) as (_ & _ & _ & _ & [Y1 Y2] & _).
    destruct (proj1 (Forall_lookup _ _) HO i o Hl Hact)
      as (_ & _ & _ & Hh & _ & _ & _ & _ & _ & _ & _ & Hy & _).
    rewrite Hpy, Hph, Hh.
    assert (F20 : fin32 OBSTACLE_HEIGHT) by reflexivity.
    pose proof (fadd_RNDs (o_y o) OBSTACLE_HEIGHT Hy F20) as Hs.
    rewrite B2R_h20 in Hs.
    assert (Hbig : fin32 (of_int 620)) by reflexivity.
    assert (Vbig : B2R (of_int 620) = 620%R)
      by (apply (B2R_int _ 14 620); [lia|reflexivity]).
    destruct (RNDs_between _ _ (o_y o) (of_int 620) Hs Hy Hbig)
      as [Hsf Hsb]; [rewrite Vbig; lra|].
    assert (F540 : fin32 (p_y init_player)) by reflexivity.
    assert (F560 : fin32 (fadd (p_y init_player) PLAYER_HEIGHT))
      by reflexivity.
    split; [apply fgt_negb_fle; [reflexivity|apply fin32_not_nan, Hsf]|].
    split.
    { change (flt (fadd (p_y init_player) PLAYER_HEIGHT) (o_y o))
        with (fgt (o_y o) (fadd (p_y init_player) PLAYER_HEIGHT)).
      apply fgt_negb_fle; [apply fin32_not_nan, Hy|reflexivity]. }
    split.
    - rewrite (fle_fin32 _ _ F540 Hsf), B2R_540. split.
      + intros H540.
        destruct (Rle_lt_dec 520 (B2R (o_y o))) as [H|H]; [exact H|].
        pose proof (below_520 _ Hy H) as Hb.
        pose proof B2R_f520_pred as E520. pose proof B2R_f540_pred as E540.
        assert (F540p : fin32 f540_pred) by reflexivity.
        destruct (RNDs_between _ _ (o_y o) f540_pred Hs Hy F540p)
          as [_ [_ Hup]]; lra.
      + intros H520.
        destruct (RNDs_between _ _ (p_y init_player) (of_int 620) Hs F540 Hbig)
          as [_ [Hlo _]]; [rewrite B2R_540, Vbig; lra|].
        rewrite B2R_540 in Hlo. exact Hlo.
    - rewrite (fle_fin32 _ _ Hy F560), B2R_560. reflexivity. }
  assert (Hsplit : hits (player g) o =
    negb (is_free o) &&
    negb (fgt (p_x (player g)) (fadd (o_x o) (o_w o)) ||
          flt (fadd (p_x (player g)) (p_w (player g))) (o_x o) ||
          fgt (p_y (player g)) (fadd (o_y o) (o_h o)) ||
          flt (fadd (p_y (player g)) (p_h (player g))) (o_y o)))
    by reflexivity.
  split.
  - intros Hhit. rewrite Hsplit in Hhit.
    apply andb_true_iff in Hhit as [Hfree Hrect].
    assert (Hact : o_active o <> 0).
    { unfold is_free in Hfree.
      destruct (Z.eqb_spec (o_active o) 0); [discriminate|assumption]. }
    split; [exact Hact|].
    destruct (Hvert Hact) as (E1 & E2 & I1 & I2).
    rewrite E1, E2 in Hrect.
    apply negb_true_iff in Hrect.
    apply orb_false_iff in Hrect as [Hrect H4].
    apply orb_false_iff in Hrect as [_ H3].
    apply negb_false_iff in H3, H4.
    split; [apply I1, H3|apply I2, H4].
  - intros Hact [Y1 Y2] X1 X2.
    destruct (Hvert Hact) as (E1 & E2 & I1 & I2).
    destruct (Hobs i o Hl Hact) as ([W1 W2] & X0 & _).
    destruct (proj1 (Forall_lookup _ _) HO i o Hl Hact)
      as (_ & Hx & Hw & _).
    assert (Hhit : hits (player g) o = true).
    { rewrite Hsplit, E1, E2.
      rewrite (proj2 I1 Y1), (proj2 I2 Y2).
      assert (Ef : is_free o = false)
        by (unfold is_free; apply Z.eqb_neq; exact Hact).
      rewrite Ef. cbn [negb andb orb]. rewrite !orb_false_r.
      apply negb_true_iff, orb_false_iff. split.
      - unfold fgt. apply (fle_true_fgt_false (p_x (player g))).
        destruct (RND_ge _ _ (p_x (player g)) (fadd_RND _ _ Hx Hw) Hpx)
          as [->|[Hn Hge]]; [exact X1|apply fle_nni_inf; left; exact Hpx|].
        apply fle_nnf; assumption.
      - change (flt (fadd (p_x (player g)) (p_w (player g))) (o_x o))
          with (fgt (o_x o) (fadd (p_x (player g)) (p_w (player g)))).
        apply fle_true_fgt_false. rewrite Hpw.
        assert (N80 : nnf PLAYER_WIDTH) by reflexivity.
        pose proof (fadd_RND _ _ Hpx N80) as Hs. rewrite B2R_80 in Hs.
        destruct (RND_ge _ _ (o_x o) Hs Hx)
          as [->|[Hn Hge]]; [exact X2|apply fle_nni_inf; left; exact Hx|].
        apply fle_nnf; assumption. }
    split; [exact Hhit|].
    unfold check_collisions. apply existsb_exists.
    exists o. split; [|exact Hhit].
    apply list_elem_of_In, list_elem_of_lookup. exists i. exact Hl.
Qed.

End Contact.

Lemma collision_needs_contact_witness :
  hits (player game_about_to_crash) obstacle_on_player = true /\
  check_collisions game_about_to_crash = true.
Proof.
  assert (Hg : game_ok game_about_to_crash).
  { unfold game_ok, game_about_to_crash; cbn [obstacles player elapsedTime
      spawnIntervalMs score state highScore].
    split; [reflexivity|].
    split.
    { apply Forall_cons. split.
      - intros _. unfold obstacle_on_player; cbn [o_active o_x o_y o_w o_h o_speed].
        assert (V350 : B2R (of_int 350) = 350%R)
          by (apply (B2R_int _ 15 350); [lia|reflexivity]).
        rewrite V350, B2R_100. pose proof (bpow_pos (-14)).
        repeat split; try reflexivity. lra.
      - apply inactive_ok. apply Forall_forall. intros o Ho.
        apply list_elem_of_In, repeat_spec in Ho. subst o. reflexivity. }
    split; [reflexivity|]. split; [reflexivity|].
    split; [repeat split|].
    split; [exact I|]. split; [reflexivity|]. split; [reflexivity|].
    split; [reflexivity|]. split; [reflexivity|].
    split; [unfold is_int, F32.INT_MIN, F32.INT_MAX; lia|discriminate]. }
  refine (proj2 (collision_needs_contact game_about_to_crash 0
                   obstacle_on_player Hg eq_refl) _ _ _ _).
  - discriminate.
  - change (o_y obstacle_on_player) with (of_int 535).
    assert (V : B2R (of_int 535) = 535%R)
      by (apply (B2R_int _ 14 535); [lia|reflexivity]).
    rewrite V. lra.
  - change (p_x (player game_about_to_crash)) with (of_int 360).
    change (o_x obstacle_on_player) with (of_int 350).
    change (o_w obstacle_on_player) with (of_int 100).
    assert (V1 : B2R (of_int 360) = 360%R)
      by (apply (B2R_int _ 15 360); [lia|reflexivity]).
    assert (V2 : B2R (of_int 350) = 350%R)
      by (apply (B2R_int _ 15 350); [lia|reflexivity]).
    rewrite V1, V2, B2R_100. lra.
  - change (p_x (player game_about_to_crash)) with (of_int 360).
    change (o_x obstacle_on_player) with (of_int 350).
    assert (V1 : B2R (of_int 360) = 360%R)
      by (apply (B2R_int _ 15 360); [lia|reflexivity]).
    assert (V2 : B2R (of_int 350) = 350%R)
      by (apply (B2R_int _ 15 350); [lia|reflexivity]).
    rewrite V1, V2. lra.
Defined.
